(** * droceRoG: the game-record navigation engine of [gogame.c]

    A shallow embedding of the cursor navigation code of [src/gogame.c]
    (step forward/back, variation switch, event skip, page jump, comment
    cache) together with the properties of the engine stated in the
    specification.

    The SGF node store is an arena: a node pointer is an index into the
    list of nodes, [None] is the C [NULL].  Global variables of the C file
    are the fields of [State].  Functions that can hit an [assert], follow
    a bad pointer or loop are written in a small error monad.

    The board of [goboard.c] is not among the sources.  It is the history
    stack of the specification, read twice: with one undo frame for every
    run of [apply_sgf_cmds_to_board], as the specification states its
    [apply(node)], and, in the module [Calls], with a frame only where the
    run calls the board. *)

From Stdlib Require Import ZArith String Ascii List Bool Lia.
Import ListNotations.
Open Scope Z_scope.

(** ** Outcomes of a C function call *)

Inductive outcome (A : Type) : Type :=
| Ret (a : A)      (* normal return *)
| AssertFail       (* an [assert] fired: the process aborts *)
| Fault            (* a NULL or dangling pointer was dereferenced *)
| OutOfFuel.       (* the loop bound of the model was exhausted *)

Arguments Ret {A} a.
Arguments AssertFail {A}.
Arguments Fault {A}.
Arguments OutOfFuel {A}.

Definition bind {A B : Type} (m : outcome A) (k : A -> outcome B) : outcome B :=
  match m with
  | Ret a => k a
  | AssertFail => AssertFail
  | Fault => Fault
  | OutOfFuel => OutOfFuel
  end.

Notation "x <- m ;; k" := (bind m (fun x => k))
  (at level 61, m at next level, right associativity).

Definition assert (b : bool) : outcome unit :=
  if b then Ret tt else AssertFail.

(** A C [int] used as a truth value. *)
Definition c_true (z : Z) : bool := negb (z =? 0).

(** ** The SGF tree (fields of [sgftree.h] that [gogame.c] reads) *)

Definition ptr := option nat.

(** Modelled from the spec: the property and node types of [sgftree.h],
    which is not part of the available sources.  The fields are the ones
    [gogame.c] reads: the commands of the spec's node are its [props], the
    main child is [child], the neighbours in the variation chain are
    [prevVar] and [nextVar], the render rank is [draw_lvl] and the ply index
    is [move_num]; [next] is the link tested by the event skips. *)
Record SGFProperty := {
  name : Z;              (* two characters packed in a short *)
  value : string
}.

Record SGFNode := {
  props : list SGFProperty;   (* the [props]/[next] linked list *)
  parent : ptr;
  child : ptr;
  next : ptr;
  prevVar : ptr;
  nextVar : ptr;
  draw_lvl : Z;
  move_num : Z
}.

Record SGFTree := { root : ptr }.

(** [(short)] conversion of an [int]. *)
Definition to_short (z : Z) : Z := (z + 32768) mod 65536 - 32768.

(** The code of a character of a property name.  The names [gogame.c]
    builds and compares are made of ASCII characters, whose code is below
    128 whether the C [char] is signed or not. *)
Definition char_code (c : ascii) : Z := Z.of_N (N_of_ascii c).

(** [#define ENC_SGFPROP(c1_, c2_) ((short)( c1_ | c2_ << 8 ))] *)
Definition ENC_SGFPROP (c1 c2 : ascii) : Z :=
  to_short (Z.lor (char_code c1) (Z.shiftl (char_code c2) 8)).

(** Modelled from the spec: [sgfGetCharProperty] of the SGF library, which is
    not part of the available sources.  The spec's [annotation] is the
    optional text attached to a node; the call in [gogame.c] asks for the
    property named by the two characters ["C "], and we return the value of
    the first property of the node with that name. *)
Fixpoint sgfGetCharProperty (ps : list SGFProperty) (c1 c2 : ascii) : option string :=
  match ps with
  | [] => None
  | p :: ps' =>
      if name p =? ENC_SGFPROP c1 c2 then Some (value p)
      else sgfGetCharProperty ps' c1 c2
  end.

Definition annotation (nd : SGFNode) : option string :=
  sgfGetCharProperty (props nd) "C" " ".

(** ** The board projection *)

(** Modelled from the spec: the stone colours and marker kinds of
    [goboard.h] (not part of the available sources), named as [gogame.c]
    uses them. *)
Inductive BoardPlayer := BOARD_BLACK | BOARD_WHITE.
Inductive BoardMarker := MARK_SQUARE | MARK_CIRC | MARK_TRIANGLE.

(** Modelled from the spec: the board coordinate a command is tagged with.
    [gogame.c] computes it as [get_moveX(prop, sz), get_moveY(prop, sz)]
    (SGF library, not part of the available sources); both are functions
    of the property value and the board size, which the pair records. *)
Record Coord := { coord_value : string; coord_size : Z }.

Inductive BoardCmd :=
| PlaceStone (xy : Coord) (player : BoardPlayer) (bMove : Z)
| PlaceMarker (xy : Coord) (m : BoardMarker).

Definition Frame := list BoardCmd.

(** Modelled from the spec: the board projection of [goboard.c], which is
    not part of the available sources.  The spec gives it a history stack:
    [apply(node)] applies all commands of a node and pushes one undo frame,
    [undo()] pops one frame and restores the prior state, and reports
    failure when there is no frame to pop; [reset()] empties it. *)
Definition Board := list Frame.

Definition board_new : Board := [].

Definition board_apply (b : Board) (f : Frame) : Board := f :: b.

Definition board_pop (b : Board) : bool * Board :=
  match b with
  | [] => (false, [])
  | _ :: b' => (true, b')
  end.

(** The primitive calls issued against the projection, oldest first. *)
Inductive Prim :=
| PrimApply (n : nat)
| PrimUndo (ok : bool).

(** ** Global state of [gogame.c] *)

Record State := {
  nodes : list SGFNode;            (* memory holding the SGF nodes *)
  gameTree : option SGFTree;
  curNode : ptr;
  comment_str : option string;
  comment_update : Z;
  boardSize : Z;                   (* gameInfo.boardSize *)
  bShowFullScreenComment : Z;
  board : Board;
  prims : list Prim                (* log of apply/undo calls *)
}.

Definition set_curNode (p : ptr) (s : State) : State :=
  {| nodes := nodes s; gameTree := gameTree s; curNode := p;
     comment_str := comment_str s; comment_update := comment_update s;
     boardSize := boardSize s;
     bShowFullScreenComment := bShowFullScreenComment s;
     board := board s; prims := prims s |}.

Definition set_comment (c : option string) (u : Z) (s : State) : State :=
  {| nodes := nodes s; gameTree := gameTree s; curNode := curNode s;
     comment_str := c; comment_update := u;
     boardSize := boardSize s;
     bShowFullScreenComment := bShowFullScreenComment s;
     board := board s; prims := prims s |}.

Definition set_board (b : Board) (p : Prim) (s : State) : State :=
  {| nodes := nodes s; gameTree := gameTree s; curNode := curNode s;
     comment_str := comment_str s; comment_update := comment_update s;
     boardSize := boardSize s;
     bShowFullScreenComment := bShowFullScreenComment s;
     board := b; prims := prims s ++ [p] |}.

(** [p->field] for a node pointer [p]. *)
Definition deref (s : State) (p : ptr) : outcome SGFNode :=
  match p with
  | None => Fault
  | Some n =>
      match nth_error (nodes s) n with
      | Some nd => Ret nd
      | None => Fault
      end
  end.

(** ** [apply_sgf_cmds_to_board] *)

(** The case of the [switch] a property falls in: the call it makes, if
    any. *)
Definition prop_cmd (sz : Z) (p : SGFProperty) : list BoardCmd :=
  let xy := {| coord_value := value p; coord_size := sz |} in
  if name p =? ENC_SGFPROP "A" "B" then [PlaceStone xy BOARD_BLACK 0]
  else if name p =? ENC_SGFPROP "A" "W" then [PlaceStone xy BOARD_WHITE 0]
  else if name p =? ENC_SGFPROP "B" " " then [PlaceStone xy BOARD_BLACK 1]
  else if name p =? ENC_SGFPROP "W" " " then [PlaceStone xy BOARD_WHITE 1]
  else if name p =? ENC_SGFPROP "S" "Q" then [PlaceMarker xy MARK_SQUARE]
  else if name p =? ENC_SGFPROP "C" "R" then [PlaceMarker xy MARK_CIRC]
  else if name p =? ENC_SGFPROP "T" "R" then [PlaceMarker xy MARK_TRIANGLE]
  else [].

(** The commands the loop over [curNode->props] sends to the board. *)
Definition node_cmds (sz : Z) (nd : SGFNode) : Frame :=
  flat_map (prop_cmd sz) (props nd).

(** The function read as the spec's [apply(node)]: the commands of the
    current node reach the projection as one frame, for every node.  The
    module [Calls] below reads it call by call. *)
Definition apply_sgf_cmds_to_board (s : State) : outcome State :=
  _ <- assert (match gameTree s with Some _ => true | None => false end) ;;
  match curNode s with
  | None => Fault
  | Some n =>
      nd <- deref s (Some n) ;;
      Ret (set_board (board_apply (board s) (node_cmds (boardSize s) nd))
                     (PrimApply n) s)
  end.

(** [board_undo()] seen from [gogame.c]: the result and the new state. *)
Definition board_undo (s : State) : bool * State :=
  let (ok, b) := board_pop (board s) in
  (ok, set_board b (PrimUndo ok) s).

(** ** [updateCommentStr] *)

Definition updateCommentStr (s : State) : outcome State :=
  _ <- assert (match gameTree s with Some _ => true | None => false end) ;;
  _ <- assert (match curNode s with Some _ => true | None => false end) ;;
  nd <- deref s (curNode s) ;;
  match annotation nd with
  | None =>
      match comment_str s with
      | Some _ => Ret (set_comment None 1 s)
      | None => Ret (set_comment (comment_str s) 0 s)
      end
  | Some msg => Ret (set_comment (Some msg) 1 s)
  end.

(** ** Linear steps *)

Definition gogame_move_forward_update (bUpdate : Z) (s : State) : outcome State :=
  match gameTree s with
  | None => Ret s
  | Some _ =>
      if c_true (bShowFullScreenComment s) then Ret s
      else
        nd <- deref s (curNode s) ;;
        match child nd with
        | None => Ret s
        | Some c =>
            s1 <- apply_sgf_cmds_to_board (set_curNode (Some c) s) ;;
            if c_true bUpdate then updateCommentStr s1 else Ret s1
        end
  end.

Definition gogame_move_forward (s : State) : outcome State :=
  gogame_move_forward_update 1 s.

Definition gogame_move_back_update (bUpdate : Z) (s : State) : outcome State :=
  match gameTree s with
  | None => Ret s
  | Some _ =>
      if c_true (bShowFullScreenComment s) then Ret s
      else
        let (ok, s1) := board_undo s in
        s2 <- (if ok then
                 nd <- deref s1 (curNode s1) ;;
                 Ret (set_curNode (parent nd) s1)
               else Ret s1) ;;
        if c_true bUpdate then updateCommentStr s2 else Ret s2
  end.

Definition gogame_move_back (s : State) : outcome State :=
  gogame_move_back_update 1 s.

(** ** [undo_variation]

    The C code stages the path to the target in a temporary doubly linked
    list of fresh nodes whose [next] field carries the payload.  The list is
    only ever extended at its head ([pathToTarget->parent]) and read from
    the head along [child], so it is a Rocq list with the head first. *)

Fixpoint undo_variation_ascend (fuel : nat) (s : State)
    (srcNode_i targetNode_i : ptr) (pathToTarget : list nat)
    : outcome (State * ptr * ptr * list nat) :=
  match fuel with
  | O => OutOfFuel
  | S fuel' =>
      match srcNode_i, targetNode_i with
      | Some a, Some b =>
          if Nat.eqb a b then Ret (s, srcNode_i, targetNode_i, pathToTarget)
          else
            let (ok, s1) := board_undo s in
            s2 <- (if ok then
                     nd <- deref s1 (curNode s1) ;;
                     Ret (set_curNode (parent nd) s1)
                   else Ret s1) ;;
            nda <- deref s2 (Some a) ;;
            ndb <- deref s2 (Some b) ;;
            undo_variation_ascend fuel' s2 (parent nda) (parent ndb)
                                  (b :: pathToTarget)
      | _, _ => Ret (s, srcNode_i, targetNode_i, pathToTarget)
      end
  end.

Fixpoint undo_variation_replay (pathToTarget : list nat) (s : State)
    : outcome State :=
  match pathToTarget with
  | [] => Ret s
  | n :: rest =>
      s1 <- apply_sgf_cmds_to_board (set_curNode (Some n) s) ;;
      undo_variation_replay rest s1
  end.

Definition is_some {A : Type} (o : option A) : bool :=
  match o with Some _ => true | None => false end.

Definition undo_variation (fuel : nat) (srcNode targetNode : ptr) (s : State)
    : outcome State :=
  _ <- assert (is_some srcNode) ;;
  _ <- assert (is_some targetNode) ;;
  r <- undo_variation_ascend fuel s srcNode targetNode [] ;;
  match r with
  | (s1, srcNode_i, targetNode_i, pathToTarget) =>
      _ <- assert (is_some srcNode_i) ;;
      _ <- assert (is_some targetNode_i) ;;
      undo_variation_replay pathToTarget s1
  end.

(** ** Variation up / down *)

(** [while (ndCur->prevVar) ndCur = ndCur->prevVar;] *)
Fixpoint var_head (fuel : nat) (s : State) (ndCur : ptr) : outcome ptr :=
  match fuel with
  | O => OutOfFuel
  | S fuel' =>
      nd <- deref s ndCur ;;
      match prevVar nd with
      | None => Ret ndCur
      | Some p => var_head fuel' s (Some p)
      end
  end.

(** The [for (; ndCur; ndCur=ndCur->nextVar)] scan of [gogame_moveVar_down]. *)
Fixpoint scan_down (fuel : nat) (s : State) (ndCur : ptr)
    (cur_lvl lvl : Z) (ndNextVar : ptr) : outcome ptr :=
  match fuel with
  | O => OutOfFuel
  | S fuel' =>
      match ndCur with
      | None => Ret ndNextVar
      | Some _ =>
          nd <- deref s ndCur ;;
          if (draw_lvl nd >? cur_lvl) && (draw_lvl nd <? lvl)
          then scan_down fuel' s (nextVar nd) cur_lvl (draw_lvl nd) ndCur
          else scan_down fuel' s (nextVar nd) cur_lvl lvl ndNextVar
      end
  end.

(** The scan of [gogame_moveVar_up]. *)
Fixpoint scan_up (fuel : nat) (s : State) (ndCur : ptr)
    (cur_lvl lvl : Z) (ndPrevVar : ptr) : outcome ptr :=
  match fuel with
  | O => OutOfFuel
  | S fuel' =>
      match ndCur with
      | None => Ret ndPrevVar
      | Some _ =>
          nd <- deref s ndCur ;;
          if (draw_lvl nd <? cur_lvl) && (draw_lvl nd >? lvl)
          then scan_up fuel' s (nextVar nd) cur_lvl (draw_lvl nd) ndCur
          else scan_up fuel' s (nextVar nd) cur_lvl lvl ndPrevVar
      end
  end.

Definition gogame_moveVar_down (fuel : nat) (s : State) : outcome State :=
  match gameTree s with
  | None => Ret s
  | Some _ =>
      if c_true (bShowFullScreenComment s) then Ret s
      else
        ndCur <- var_head fuel s (curNode s) ;;
        cur <- deref s (curNode s) ;;
        ndNextVar <- scan_down fuel s ndCur (draw_lvl cur) 20000 None ;;
        match ndNextVar with
        | None => Ret s
        | Some _ =>
            s1 <- undo_variation fuel (curNode s) ndNextVar s ;;
            updateCommentStr s1
        end
  end.

Definition gogame_moveVar_up (fuel : nat) (s : State) : outcome State :=
  match gameTree s with
  | None => Ret s
  | Some _ =>
      if c_true (bShowFullScreenComment s) then Ret s
      else
        ndCur <- var_head fuel s (curNode s) ;;
        cur <- deref s (curNode s) ;;
        ndPrevVar <- scan_up fuel s ndCur (draw_lvl cur) (-20000) None ;;
        match ndPrevVar with
        | None => Ret s
        | Some _ =>
            s1 <- undo_variation fuel (curNode s) ndPrevVar s ;;
            updateCommentStr s1
        end
  end.

(** ** Event skip *)

(** [curNode->child && curNode->next == NULL && !sgfGetCharProperty(...)] *)
Definition nextEvt_cond (s : State) : outcome bool :=
  nd <- deref s (curNode s) ;;
  Ret (is_some (child nd) && negb (is_some (next nd))
       && negb (is_some (annotation nd))).

Fixpoint nextEvt_loop (fuel : nat) (s : State) : outcome State :=
  match fuel with
  | O => OutOfFuel
  | S fuel' =>
      c <- nextEvt_cond s ;;
      if c then
        s1 <- gogame_move_forward_update 0 s ;;
        nextEvt_loop fuel' s1
      else Ret s
  end.

Definition gogame_move_to_nextEvt (fuel : nat) (s : State) : outcome State :=
  match gameTree s with
  | None => Ret s
  | Some _ =>
      if c_true (bShowFullScreenComment s) then Ret s
      else
        s1 <- gogame_move_forward_update 0 s ;;
        s2 <- nextEvt_loop fuel s1 ;;
        updateCommentStr s2
  end.

(** [curNode->parent && curNode->next == NULL
     && curNode->parent->child->next == NULL && !sgfGetCharProperty(...)],
    evaluated left to right with short circuit. *)
Definition prevEvt_cond (s : State) : outcome bool :=
  nd <- deref s (curNode s) ;;
  match parent nd with
  | None => Ret false
  | Some p =>
      if is_some (next nd) then Ret false
      else
        ndp <- deref s (Some p) ;;
        ndc <- deref s (child ndp) ;;
        if is_some (next ndc) then Ret false
        else Ret (negb (is_some (annotation nd)))
  end.

Fixpoint prevEvt_loop (fuel : nat) (s : State) : outcome State :=
  match fuel with
  | O => OutOfFuel
  | S fuel' =>
      c <- prevEvt_cond s ;;
      if c then
        s1 <- gogame_move_back_update 0 s ;;
        prevEvt_loop fuel' s1
      else Ret s
  end.

Definition gogame_move_to_prevEvt (fuel : nat) (s : State) : outcome State :=
  match gameTree s with
  | None => Ret s
  | Some _ =>
      if c_true (bShowFullScreenComment s) then Ret s
      else
        s1 <- gogame_move_back_update 0 s ;;
        s2 <- prevEvt_loop fuel s1 ;;
        updateCommentStr s2
  end.

(** ** Page jump *)

(** [while (curNode->parent && page < curNode->move_num)] *)
Fixpoint page_back_loop (fuel : nat) (page : Z) (s : State) : outcome State :=
  match fuel with
  | O => OutOfFuel
  | S fuel' =>
      nd <- deref s (curNode s) ;;
      if is_some (parent nd) && (page <? move_num nd) then
        s1 <- gogame_move_back_update 0 s ;;
        page_back_loop fuel' page s1
      else Ret s
  end.

(** [while (curNode->child && page > curNode->move_num)] *)
Fixpoint page_forward_loop (fuel : nat) (page : Z) (s : State) : outcome State :=
  match fuel with
  | O => OutOfFuel
  | S fuel' =>
      nd <- deref s (curNode s) ;;
      if is_some (child nd) && (page >? move_num nd) then
        s1 <- gogame_move_forward_update 0 s ;;
        page_forward_loop fuel' page s1
      else Ret s
  end.

Definition gogame_move_to_page (fuel : nat) (page : Z) (s : State)
    : outcome (State * Z) :=
  match gameTree s with
  | None => Ret (s, 0)
  | Some _ =>
      if c_true (bShowFullScreenComment s) then Ret (s, 0)
      else
        match curNode s with
        | None => Ret (s, 0)
        | Some _ =>
            nd <- deref s (curNode s) ;;
            if page =? move_num nd then Ret (s, 0)
            else
              s1 <- (if page <? move_num nd then page_back_loop fuel page s
                     else if page >? move_num nd then page_forward_loop fuel page s
                     else Ret s) ;;
              s2 <- updateCommentStr s1 ;;
              Ret (s2, 1)
        end
  end.

(** ** Loading

    The part of [gogame_new_from_file] that follows a successful
    [sgftree_readfile]: [mem] holds the parsed nodes, [tree] is the tree
    handle and [sz] the board size read by [readGameInfo]. *)
Definition gogame_new_from_file (mem : list SGFNode) (tree : SGFTree) (sz : Z)
    : outcome State :=
  let s0 := {| nodes := mem; gameTree := Some tree; curNode := root tree;
               comment_str := None; comment_update := 0; boardSize := sz;
               bShowFullScreenComment := 0; board := board_new; prims := [] |} in
  s1 <- apply_sgf_cmds_to_board s0 ;;
  updateCommentStr s1.

(** ** The public navigation operations *)

Inductive NavOp :=
| OpForward
| OpBack
| OpVarDown
| OpVarUp
| OpNextEvt
| OpPrevEvt
| OpPage (page : Z).

Definition run_op (fuel : nat) (op : NavOp) (s : State) : outcome State :=
  match op with
  | OpForward => gogame_move_forward s
  | OpBack => gogame_move_back s
  | OpVarDown => gogame_moveVar_down fuel s
  | OpVarUp => gogame_moveVar_up fuel s
  | OpNextEvt => gogame_move_to_nextEvt fuel s
  | OpPrevEvt => gogame_move_to_prevEvt fuel s
  | OpPage page => r <- gogame_move_to_page fuel page s ;; Ret (fst r)
  end.

(** A session: navigation operations one after the other. *)
Fixpoint run_ops (fuel : nat) (ops : list NavOp) (s : State) : outcome State :=
  match ops with
  | [] => Ret s
  | op :: rest => s1 <- run_op fuel op s ;; run_ops fuel rest s1
  end.

(** ** A sample record

    [[
      0 root --- 1 A --+-- 2 B1 --- 4 C   (C carries a comment)
                       +-- 3 B2 --- 5 D
    ]]
    B1 and B2 are sibling variations (linked by [next] and by the
    [prevVar]/[nextVar] chain); C and D sit at the same ply on the two
    branches and are linked by the variation chain as well. *)

(** A node as [sgfNewNode] returns it: no properties, no links. *)
Definition sgfNewNode : SGFNode :=
  {| props := []; parent := None; child := None; next := None;
     prevVar := None; nextVar := None; draw_lvl := 0; move_num := 0 |}.

Definition mk_prop (c1 c2 : ascii) (v : string) : SGFProperty :=
  {| name := ENC_SGFPROP c1 c2; value := v |}.

Definition sample_nodes : list SGFNode :=
  [ {| props := [mk_prop "S" "Z" "19"]; parent := None; child := Some 1%nat;
       next := None; prevVar := None; nextVar := None;
       draw_lvl := 0; move_num := 0 |};
    {| props := [mk_prop "B" " " "pd"]; parent := Some 0%nat; child := Some 2%nat;
       next := None; prevVar := None; nextVar := None;
       draw_lvl := 0; move_num := 1 |};
    {| props := [mk_prop "W" " " "dp"]; parent := Some 1%nat; child := Some 4%nat;
       next := Some 3%nat; prevVar := None; nextVar := Some 3%nat;
       draw_lvl := 0; move_num := 2 |};
    {| props := [mk_prop "W" " " "dd"; mk_prop "T" "R" "dd"];
       parent := Some 1%nat; child := Some 5%nat;
       next := None; prevVar := Some 2%nat; nextVar := None;
       draw_lvl := 1; move_num := 2 |};
    {| props := [mk_prop "B" " " "pp"; mk_prop "C" " " "good move"];
       parent := Some 2%nat; child := None;
       next := None; prevVar := None; nextVar := Some 5%nat;
       draw_lvl := 0; move_num := 3 |};
    {| props := [mk_prop "B" " " "qq"]; parent := Some 3%nat; child := None;
       next := None; prevVar := Some 4%nat; nextVar := None;
       draw_lvl := 1; move_num := 3 |} ].

Definition sample_tree : SGFTree := {| root := Some 0%nat |}.

(** The state right after loading the sample record. *)
Definition sample_start : State :=
  {| nodes := sample_nodes; gameTree := Some sample_tree; curNode := Some 0%nat;
     comment_str := None; comment_update := 0; boardSize := 19;
     bShowFullScreenComment := 0;
     board := [node_cmds 19 (nth 0 sample_nodes
                 sgfNewNode)];
     prims := [PrimApply 0] |}.

(** The sample record with the cursor moved to node [n] along [path]
    (root first), the projection in step. *)
Definition sample_at (path : list nat) (n : nat) : State :=
  {| nodes := sample_nodes; gameTree := Some sample_tree; curNode := Some n;
     comment_str := None; comment_update := 0; boardSize := 19;
     bShowFullScreenComment := 0;
     board := rev (map (fun k => node_cmds 19 (nth k sample_nodes
                 sgfNewNode)) path);
     prims := [] |}.

Definition set_fullscreen (z : Z) (s : State) : State :=
  {| nodes := nodes s; gameTree := gameTree s; curNode := curNode s;
     comment_str := comment_str s; comment_update := comment_update s;
     boardSize := boardSize s;
     bShowFullScreenComment := z;
     board := board s; prims := prims s |}.

(** [gogame_switch_fullComment] *)
Definition gogame_switch_fullComment (s : State) : State * Z :=
  match gameTree s with
  | None => (s, 0)
  | Some _ =>
      match comment_str s with
      | None => (s, 0)
      | Some _ =>
          (set_fullscreen (if c_true (bShowFullScreenComment s) then 0 else 1) s, 1)
      end
  end.

(** No record loaded: the state of a fresh process. *)
Definition no_record : State :=
  {| nodes := []; gameTree := None; curNode := None;
     comment_str := None; comment_update := 0; boardSize := 19;
     bShowFullScreenComment := 0; board := board_new; prims := [] |}.

(** ** The record tree invariants of the data model

    [wf_tree h r]: [r] is the root of the tree stored in [h]; it is the only
    node without a parent, [move_num] counts the distance from the root,
    a node that is the parent of some node has a main child, the main child
    of a node points back to it (I2), and the nodes linked by the variation
    chain carry the same [move_num] (I1). *)

Record wf_tree (h : list SGFNode) (r : nat) : Prop := {
  wf_root : exists nd, nth_error h r = Some nd /\ parent nd = None
                       /\ move_num nd = 0;
  wf_parent : forall n nd p, nth_error h n = Some nd -> parent nd = Some p ->
      exists ndp, nth_error h p = Some ndp /\ move_num nd = move_num ndp + 1
                  /\ 0 <= move_num ndp /\ child ndp <> None;
  wf_orphan : forall n nd, nth_error h n = Some nd -> parent nd = None -> n = r;
  wf_child : forall n nd c, nth_error h n = Some nd -> child nd = Some c ->
      exists ndc, nth_error h c = Some ndc /\ parent ndc = Some n;
  wf_nextVar : forall n nd m, nth_error h n = Some nd -> nextVar nd = Some m ->
      exists ndm, nth_error h m = Some ndm /\ move_num ndm = move_num nd;
  wf_prevVar : forall n nd m, nth_error h n = Some nd -> prevVar nd = Some m ->
      exists ndm, nth_error h m = Some ndm /\ move_num ndm = move_num nd
}.

(** The same conditions as a check that runs on a concrete node store. *)
Definition ptr_eqb (p q : ptr) : bool :=
  match p, q with
  | Some a, Some b => Nat.eqb a b
  | None, None => true
  | _, _ => false
  end.

Definition same_ply_ok (h : list SGFNode) (nd : SGFNode) (p : ptr) : bool :=
  match p with
  | None => true
  | Some m =>
      match nth_error h m with
      | Some ndm => move_num ndm =? move_num nd
      | None => false
      end
  end.

Definition node_okb (h : list SGFNode) (r : nat) (n : nat) (nd : SGFNode) : bool :=
  match parent nd with
  | None => Nat.eqb n r
  | Some p =>
      match nth_error h p with
      | Some ndp => (move_num nd =? move_num ndp + 1) && (0 <=? move_num ndp)
                    && is_some (child ndp)
      | None => false
      end
  end
  && match child nd with
     | None => true
     | Some c =>
         match nth_error h c with
         | Some ndc => ptr_eqb (parent ndc) (Some n)
         | None => false
         end
     end
  && same_ply_ok h nd (nextVar nd)
  && same_ply_ok h nd (prevVar nd).

Definition wf_treeb (h : list SGFNode) (r : nat) : bool :=
  match nth_error h r with
  | Some nd => negb (is_some (parent nd)) && (move_num nd =? 0)
  | None => false
  end
  && forallb (fun x => node_okb h r (fst x) (snd x))
             (combine (seq 0 (length h)) h).

(** [root_path h r n l]: [l] lists the nodes from the root [r] down to [n],
    each the parent of the next. *)
Inductive root_path (h : list SGFNode) (r : nat) : nat -> list nat -> Prop :=
| root_path_root nd :
    nth_error h r = Some nd -> parent nd = None ->
    root_path h r r [r]
| root_path_step p l n nd :
    root_path h r p l ->
    nth_error h n = Some nd -> parent nd = Some p ->
    root_path h r n (l ++ [n]).

(** [apply(node)] of the projection for the node stored at [n]. *)
Definition apply_node (h : list SGFNode) (sz : Z) (b : Board) (n : nat) : Board :=
  match nth_error h n with
  | Some nd => board_apply b (node_cmds sz nd)
  | None => b
  end.

(** The cumulative effect of applying the commands of the nodes of [path],
    in that order, to the empty projection. *)
Definition replay (h : list SGFNode) (sz : Z) (path : list nat) : Board :=
  fold_left (apply_node h sz) path board_new.

(** Invariant I3: the projection is the replay of the root-to-cursor path. *)
Definition at_node (s : State) (r n : nat) (l : list nat) : Prop :=
  curNode s = Some n /\ root_path (nodes s) r n l
  /\ board s = replay (nodes s) (boardSize s) l.

Definition consistent (s : State) : Prop :=
  exists r n l, gameTree s = Some {| root := Some r |} /\ at_node s r n l.

(** A record is loaded and its tree is well formed. *)
Definition loaded (s : State) : Prop :=
  exists r, gameTree s = Some {| root := Some r |} /\ wf_tree (nodes s) r.

(** Two nodes of the same variation chain. *)
Inductive var_chain (h : list SGFNode) : nat -> nat -> Prop :=
| var_chain_refl n nd : nth_error h n = Some nd -> var_chain h n n
| var_chain_next n nd m k :
    nth_error h n = Some nd -> nextVar nd = Some m -> var_chain h m k ->
    var_chain h n k
| var_chain_prev n nd m k :
    nth_error h n = Some nd -> prevVar nd = Some m -> var_chain h m k ->
    var_chain h n k.

(** The state after [curNode = curNode->child; apply_sgf_cmds_to_board()]. *)
Definition stepped_forward (s : State) (c : nat) (ndc : SGFNode) : State :=
  set_board (board_apply (board s) (node_cmds (boardSize s) ndc))
            (PrimApply c) (set_curNode (Some c) s).

(** The state after a successful [board_undo()] and [curNode = curNode->parent]. *)
Definition stepped_back (s : State) (b : Board) (p : ptr) : State :=
  set_curNode p (set_board b (PrimUndo true) s).

(** The invariant carried through the navigation code: the record [h] with
    board size [sz] is loaded as tree [t], the full-screen comment is off,
    the cursor is on [n], and the projection is the replay of the path [l]
    from the root [r] to [n]. *)
Definition inv (h : list SGFNode) (sz : Z) (t : SGFTree) (r : nat)
    (s : State) (n : nat) (l : list nat) : Prop :=
  nodes s = h /\ boardSize s = sz /\ gameTree s = Some t
  /\ c_true (bShowFullScreenComment s) = false
  /\ curNode s = Some n /\ root_path h r n l /\ board s = replay h sz l.

(** A pointer that is NULL or points to a node on the ply of [nd]. *)
Definition same_ply (h : list SGFNode) (nd : SGFNode) (p : ptr) : Prop :=
  match p with
  | None => True
  | Some m => exists ndm, nth_error h m = Some ndm /\ move_num ndm = move_num nd
  end.

(** ** Event skip: where the loops stop *)

(** The loop test of [gogame_move_to_nextEvt] on a node. *)
Definition fwd_continue (nd : SGFNode) : bool :=
  is_some (child nd) && negb (is_some (next nd))
  && negb (is_some (annotation nd)).

(** [fwd_run h n m]: walking the main line from [n] while the loop test
    holds ends on [m]. *)
Inductive fwd_run (h : list SGFNode) : nat -> nat -> Prop :=
| fwd_run_stop n nd :
    nth_error h n = Some nd -> fwd_continue nd = false -> fwd_run h n n
| fwd_run_go n nd c m :
    nth_error h n = Some nd -> fwd_continue nd = true -> child nd = Some c ->
    fwd_run h c m -> fwd_run h n m.

(** The loop test of [gogame_move_to_prevEvt] on a node with parent [ndp]
    whose first child is [ndc]. *)
Definition bwd_continue (nd ndc : SGFNode) : bool :=
  negb (is_some (next nd)) && negb (is_some (next ndc))
  && negb (is_some (annotation nd)).

Inductive bwd_run (h : list SGFNode) : nat -> nat -> Prop :=
| bwd_run_root n nd :
    nth_error h n = Some nd -> parent nd = None -> bwd_run h n n
| bwd_run_stop n nd p ndp c ndc :
    nth_error h n = Some nd -> parent nd = Some p ->
    nth_error h p = Some ndp -> child ndp = Some c ->
    nth_error h c = Some ndc ->
    bwd_continue nd ndc = false -> bwd_run h n n
| bwd_run_sibling n nd p :
    nth_error h n = Some nd -> parent nd = Some p ->
    is_some (next nd) = true -> bwd_run h n n
| bwd_run_go n nd p ndp c ndc m :
    nth_error h n = Some nd -> parent nd = Some p ->
    nth_error h p = Some ndp -> child ndp = Some c ->
    nth_error h c = Some ndc ->
    bwd_continue nd ndc = true ->
    bwd_run h p m -> bwd_run h n m.

(** Where the forward loop can stop: a leaf, a node with a following
    sibling, or a node with a comment. *)
Definition fwd_stop (nd : SGFNode) : Prop :=
  child nd = None \/ next nd <> None \/ annotation nd <> None.

(** Where the backward loop can stop: the root, a node with a following
    sibling, a node whose parent's first child has a following sibling, or a
    node with a comment. *)
Definition bwd_stop (h : list SGFNode) (nd : SGFNode) : Prop :=
  parent nd = None \/ next nd <> None \/ annotation nd <> None
  \/ exists p ndp c ndc,
       parent nd = Some p /\ nth_error h p = Some ndp /\ child ndp = Some c
       /\ nth_error h c = Some ndc /\ next ndc <> None.

(** The spec's reading of a branch point for the forward direction: a node
    with more than one viable continuation, that is, whose main child has
    a sibling. *)
Definition spec_branch_point_fwd (h : list SGFNode) (nd : SGFNode) : bool :=
  match child nd with
  | None => false
  | Some c =>
      match nth_error h c with
      | Some ndc => is_some (next ndc)
      | None => false
      end
  end.

(** Where the spec says an event skip may stop: a boundary, an annotated
    node, or a branch point. *)
Definition spec_stop_fwd (h : list SGFNode) (nd : SGFNode) : bool :=
  negb (is_some (child nd)) || is_some (annotation nd)
  || spec_branch_point_fwd h nd.

(** ** Further functions of [gogame.c] *)

(** The two characters of a property name as [test_readSGF] prints them:
    [prop->name & 255] and [prop->name >> 8]. *)
Definition prop_name_chars (nm : Z) : Z * Z :=
  (Z.land nm 255, Z.shiftr nm 8).

(** [gogame_cleanup]: with a record loaded, the tree is freed (its nodes
    are gone from memory), the handle and the cursor are NULL, the board
    size is back to 19, the full-screen flag is off and the board is
    cleaned up (the spec's [reset()] of the projection); [comment_str] and
    [comment_update] are not touched.  Without a record nothing happens. *)
Definition gogame_cleanup (s : State) : State :=
  match gameTree s with
  | None => s
  | Some _ =>
      {| nodes := []; gameTree := None; curNode := None;
         comment_str := comment_str s; comment_update := comment_update s;
         boardSize := 19; bShowFullScreenComment := 0;
         board := board_new; prims := prims s |}
  end.

(** The whole of [gogame_new_from_file], called in state [s]:
    [malloc_ok] tells whether the tree handle could be allocated, [parsed]
    is what [sgftree_readfile] produced ([None] when it failed) and [sz] the
    board size [readGameInfo] finds.  The result is the return code. *)
Definition gogame_new_from_file_call (malloc_ok : bool)
    (parsed : option (list SGFNode * SGFTree)) (sz : Z) (s : State)
    : outcome (State * Z) :=
  let s0 := gogame_cleanup s in
  if negb malloc_ok then Ret (s0, 1)
  else
    match parsed with
    | None =>
        Ret (gogame_cleanup
               {| nodes := nodes s0; gameTree := Some {| root := None |};
                  curNode := curNode s0;
                  comment_str := comment_str s0;
                  comment_update := comment_update s0;
                  boardSize := boardSize s0;
                  bShowFullScreenComment := bShowFullScreenComment s0;
                  board := board s0; prims := prims s0 |}, 2)
    | Some (mem, tree) =>
        let s1 := {| nodes := mem; gameTree := Some tree;
                     curNode := root tree;
                     comment_str := comment_str s0;
                     comment_update := comment_update s0;
                     boardSize := sz;
                     bShowFullScreenComment := bShowFullScreenComment s0;
                     board := board_new; prims := prims s0 |} in
        s2 <- apply_sgf_cmds_to_board s1 ;;
        s3 <- updateCommentStr s2 ;;
        Ret (set_fullscreen 0 s3, 0)
    end.

(** [gogame_isGameOpened] *)
Definition gogame_isGameOpened (s : State) : Z :=
  match gameTree s with None => 0 | Some _ => 1 end.

(** What a user can do in a session: navigate, or switch the full-screen
    comment on and off. *)
Inductive Cmd :=
| CmdNav (op : NavOp)
| CmdSwitchFull.

Definition run_cmd (fuel : nat) (c : Cmd) (s : State) : outcome State :=
  match c with
  | CmdNav op => run_op fuel op s
  | CmdSwitchFull => Ret (fst (gogame_switch_fullComment s))
  end.

Fixpoint run_cmds (fuel : nat) (cs : list Cmd) (s : State) : outcome State :=
  match cs with
  | [] => Ret s
  | c :: rest => s1 <- run_cmd fuel c s ;; run_cmds fuel rest s1
  end.

(** ** Further state predicates *)

(** The parts of the state navigation only reads. *)
Definition same_record (s s' : State) : Prop :=
  nodes s' = nodes s /\ gameTree s' = gameTree s
  /\ boardSize s' = boardSize s
  /\ bShowFullScreenComment s' = bShowFullScreenComment s.

(** A move that leaves the record and the comment cache alone. *)
Definition quiet (s s' : State) : Prop :=
  same_record s s'
  /\ comment_str s' = comment_str s /\ comment_update s' = comment_update s.

(** [s'] is [s] after some quiet moves and a final comment refresh. *)
Definition refreshed (s s' : State) : Prop :=
  exists s1, quiet s s1 /\ updateCommentStr s1 = Ret s'.

(** The comment cache holds the annotation of the node under the cursor. *)
Definition comment_in_step (s : State) : Prop :=
  exists n nd, curNode s = Some n /\ nth_error (nodes s) n = Some nd
               /\ comment_str s = annotation nd.

(** What [gogame_draw_fullrepaint] asserts in full-screen comment mode:
    there is a comment to show.  The flag is 0 or 1. *)
Definition fullscreen_has_comment (s : State) : Prop :=
  (bShowFullScreenComment s = 0 \/ bShowFullScreenComment s = 1)
  /\ (c_true (bShowFullScreenComment s) = true -> comment_str s <> None).

(** ** Variation chains as lists *)

(** [is_chain h prev c]: the nodes of [c] are linked in this order by
    [nextVar], and back by [prevVar], the first one having [prev] before it
    and the last one nothing after it. *)
Fixpoint is_chain (h : list SGFNode) (prev : ptr) (c : list nat) : Prop :=
  match c with
  | [] => True
  | x :: rest =>
      exists nd, nth_error h x = Some nd /\ prevVar nd = prev
                 /\ nextVar nd = hd_error rest /\ is_chain h (Some x) rest
  end.

Definition lvl_at (h : list SGFNode) (x : nat) : Z :=
  match nth_error h x with
  | Some nd => draw_lvl nd
  | None => 0
  end.

(** What the scan of [gogame_moveVar_down] is after: the node of the chain
    with the least [draw_lvl] above [cur_lvl] (and below the start value
    20000 of the scan); nothing when there is none. *)
Definition is_next_below (h : list SGFNode) (c : list nat) (cur_lvl : Z)
    (res : ptr) : Prop :=
  match res with
  | Some m =>
      In m c /\ cur_lvl < lvl_at h m < 20000
      /\ forall x, In x c -> cur_lvl < lvl_at h x -> lvl_at h m <= lvl_at h x
  | None => forall x, In x c -> ~ (cur_lvl < lvl_at h x < 20000)
  end.

(** The same for [gogame_moveVar_up]: the greatest [draw_lvl] below
    [cur_lvl] (and above the start value -20000). *)
Definition is_next_above (h : list SGFNode) (c : list nat) (cur_lvl : Z)
    (res : ptr) : Prop :=
  match res with
  | Some m =>
      In m c /\ -20000 < lvl_at h m < cur_lvl
      /\ forall x, In x c -> lvl_at h x < cur_lvl -> lvl_at h x <= lvl_at h m
  | None => forall x, In x c -> ~ (-20000 < lvl_at h x < cur_lvl)
  end.

(** [main_line h n sfx]: [sfx] lists the nodes met from [n] by following
    [child] links. *)
Fixpoint main_line (h : list SGFNode) (n : nat) (sfx : list nat) : Prop :=
  match sfx with
  | [] => True
  | c :: rest =>
      exists nd, nth_error h n = Some nd /\ child nd = Some c
                 /\ main_line h c rest
  end.

(** The node before the one that follows [pre] in a chain entered from
    [prev]. *)
Fixpoint chain_prev (prev : ptr) (pre : list nat) : ptr :=
  match pre with
  | [] => prev
  | y :: pre' => chain_prev (Some y) pre'
  end.

(** ** The projection at the level of the board calls

    [apply_sgf_cmds_to_board] above follows the spec's [apply(node)]: every
    run of the loop leaves one frame.  The loop itself reaches the board
    only through [board_placeStone] and [board_placeMarker], once for each
    stone or marker property of the node.  For a node without such a
    property it makes no call at all, so the board cannot have changed and
    holds no frame for that node.  The module [Calls] follows the calls:
    its [apply_sgf_cmds_to_board] leaves the board alone when the node
    sends nothing, and the functions of [gogame.c] that reach the board
    through it are repeated over it, the same text over the other apply.
    The functions that only undo ([gogame_move_back_update], the ascent of
    [undo_variation], the backward loops) are shared. *)

Module Calls.

(** Modelled from the spec: the history stack of [goboard.c] (not part of
    the available sources) seen from the calls.  The calls of one run of
    the loop of [apply_sgf_cmds_to_board] make up one undo frame, as in
    the spec's [apply(node)]; a run without a call pushes nothing. *)
Definition board_apply (b : Board) (f : Frame) : Board :=
  match f with
  | [] => b
  | _ :: _ => f :: b
  end.

(** A run of the loop that makes no call changes nothing; otherwise its
    calls reach the board as one frame and the log records the apply. *)
Definition apply_sgf_cmds_to_board (s : State) : outcome State :=
  _ <- assert (match gameTree s with Some _ => true | None => false end) ;;
  match curNode s with
  | None => Fault
  | Some n =>
      nd <- deref s (Some n) ;;
      match node_cmds (boardSize s) nd with
      | [] => Ret s
      | _ :: _ =>
          Ret (set_board (board_apply (board s) (node_cmds (boardSize s) nd))
                         (PrimApply n) s)
      end
  end.

Definition gogame_move_forward_update (bUpdate : Z) (s : State) : outcome State :=
  match gameTree s with
  | None => Ret s
  | Some _ =>
      if c_true (bShowFullScreenComment s) then Ret s
      else
        nd <- deref s (curNode s) ;;
        match child nd with
        | None => Ret s
        | Some c =>
            s1 <- apply_sgf_cmds_to_board (set_curNode (Some c) s) ;;
            if c_true bUpdate then updateCommentStr s1 else Ret s1
        end
  end.

Definition gogame_move_forward (s : State) : outcome State :=
  gogame_move_forward_update 1 s.

Fixpoint undo_variation_replay (pathToTarget : list nat) (s : State)
    : outcome State :=
  match pathToTarget with
  | [] => Ret s
  | n :: rest =>
      s1 <- apply_sgf_cmds_to_board (set_curNode (Some n) s) ;;
      undo_variation_replay rest s1
  end.

Definition undo_variation (fuel : nat) (srcNode targetNode : ptr) (s : State)
    : outcome State :=
  _ <- assert (is_some srcNode) ;;
  _ <- assert (is_some targetNode) ;;
  r <- undo_variation_ascend fuel s srcNode targetNode [] ;;
  match r with
  | (s1, srcNode_i, targetNode_i, pathToTarget) =>
      _ <- assert (is_some srcNode_i) ;;
      _ <- assert (is_some targetNode_i) ;;
      undo_variation_replay pathToTarget s1
  end.

Definition gogame_moveVar_down (fuel : nat) (s : State) : outcome State :=
  match gameTree s with
  | None => Ret s
  | Some _ =>
      if c_true (bShowFullScreenComment s) then Ret s
      else
        ndCur <- var_head fuel s (curNode s) ;;
        cur <- deref s (curNode s) ;;
        ndNextVar <- scan_down fuel s ndCur (draw_lvl cur) 20000 None ;;
        match ndNextVar with
        | None => Ret s
        | Some _ =>
            s1 <- undo_variation fuel (curNode s) ndNextVar s ;;
            updateCommentStr s1
        end
  end.

Definition gogame_moveVar_up (fuel : nat) (s : State) : outcome State :=
  match gameTree s with
  | None => Ret s
  | Some _ =>
      if c_true (bShowFullScreenComment s) then Ret s
      else
        ndCur <- var_head fuel s (curNode s) ;;
        cur <- deref s (curNode s) ;;
        ndPrevVar <- scan_up fuel s ndCur (draw_lvl cur) (-20000) None ;;
        match ndPrevVar with
        | None => Ret s
        | Some _ =>
            s1 <- undo_variation fuel (curNode s) ndPrevVar s ;;
            updateCommentStr s1
        end
  end.

Fixpoint nextEvt_loop (fuel : nat) (s : State) : outcome State :=
  match fuel with
  | O => OutOfFuel
  | S fuel' =>
      c <- nextEvt_cond s ;;
      if c then
        s1 <- gogame_move_forward_update 0 s ;;
        nextEvt_loop fuel' s1
      else Ret s
  end.

Definition gogame_move_to_nextEvt (fuel : nat) (s : State) : outcome State :=
  match gameTree s with
  | None => Ret s
  | Some _ =>
      if c_true (bShowFullScreenComment s) then Ret s
      else
        s1 <- gogame_move_forward_update 0 s ;;
        s2 <- nextEvt_loop fuel s1 ;;
        updateCommentStr s2
  end.

Fixpoint page_forward_loop (fuel : nat) (page : Z) (s : State) : outcome State :=
  match fuel with
  | O => OutOfFuel
  | S fuel' =>
      nd <- deref s (curNode s) ;;
      if is_some (child nd) && (page >? move_num nd) then
        s1 <- gogame_move_forward_update 0 s ;;
        page_forward_loop fuel' page s1
      else Ret s
  end.

Definition gogame_move_to_page (fuel : nat) (page : Z) (s : State)
    : outcome (State * Z) :=
  match gameTree s with
  | None => Ret (s, 0)
  | Some _ =>
      if c_true (bShowFullScreenComment s) then Ret (s, 0)
      else
        match curNode s with
        | None => Ret (s, 0)
        | Some _ =>
            nd <- deref s (curNode s) ;;
            if page =? move_num nd then Ret (s, 0)
            else
              s1 <- (if page <? move_num nd then page_back_loop fuel page s
                     else if page >? move_num nd then page_forward_loop fuel page s
                     else Ret s) ;;
              s2 <- updateCommentStr s1 ;;
              Ret (s2, 1)
        end
  end.

Definition gogame_new_from_file (mem : list SGFNode) (tree : SGFTree) (sz : Z)
    : outcome State :=
  let s0 := {| nodes := mem; gameTree := Some tree; curNode := root tree;
               comment_str := None; comment_update := 0; boardSize := sz;
               bShowFullScreenComment := 0; board := board_new; prims := [] |} in
  s1 <- apply_sgf_cmds_to_board s0 ;;
  updateCommentStr s1.

Definition run_op (fuel : nat) (op : NavOp) (s : State) : outcome State :=
  match op with
  | OpForward => gogame_move_forward s
  | OpBack => gogame_move_back s
  | OpVarDown => gogame_moveVar_down fuel s
  | OpVarUp => gogame_moveVar_up fuel s
  | OpNextEvt => gogame_move_to_nextEvt fuel s
  | OpPrevEvt => gogame_move_to_prevEvt fuel s
  | OpPage page => r <- gogame_move_to_page fuel page s ;; Ret (fst r)
  end.

Fixpoint run_ops (fuel : nat) (ops : list NavOp) (s : State) : outcome State :=
  match ops with
  | [] => Ret s
  | op :: rest => s1 <- run_op fuel op s ;; run_ops fuel rest s1
  end.

(** What the board holds after the calls for the node stored at [n]. *)
Definition apply_node (h : list SGFNode) (sz : Z) (b : Board) (n : nat) : Board :=
  match nth_error h n with
  | Some nd => board_apply b (node_cmds sz nd)
  | None => b
  end.

(** The cumulative effect of the calls made for the nodes of [path], in
    that order, on the empty board. *)
Definition replay (h : list SGFNode) (sz : Z) (path : list nat) : Board :=
  fold_left (apply_node h sz) path board_new.

(** Invariant I3 over the calls: the board holds what the nodes on the
    root-to-cursor path have sent. *)
Definition at_node (s : State) (r n : nat) (l : list nat) : Prop :=
  curNode s = Some n /\ root_path (nodes s) r n l
  /\ board s = replay (nodes s) (boardSize s) l.

Definition consistent (s : State) : Prop :=
  exists r n l, gameTree s = Some {| root := Some r |} /\ at_node s r n l.

Definition inv (h : list SGFNode) (sz : Z) (t : SGFTree) (r : nat)
    (s : State) (n : nat) (l : list nat) : Prop :=
  nodes s = h /\ boardSize s = sz /\ gameTree s = Some t
  /\ c_true (bShowFullScreenComment s) = false
  /\ curNode s = Some n /\ root_path h r n l /\ board s = replay h sz l.

End Calls.

(** Every node below the root carries at least one stone or marker
    property: applying it calls the board. *)
Definition sends_below_root (h : list SGFNode) (sz : Z) : Prop :=
  forall n nd, nth_error h n = Some nd -> parent nd <> None ->
               node_cmds sz nd <> [].

(** The same as a check that runs on a concrete node store. *)
Definition sends_below_rootb (h : list SGFNode) (sz : Z) : bool :=
  forallb (fun nd => negb (is_some (parent nd))
                     || match node_cmds sz nd with [] => false | _ => true end)
          h.

(** Every node of the store sits on a variation chain that can be listed:
    the [prevVar] and [nextVar] links do not run in a circle. *)
Definition chains_listed (h : list SGFNode) : Prop :=
  forall n nd, nth_error h n = Some nd ->
  exists c, is_chain h None c /\ In n c /\ (length c <= length h)%nat.

(** ** A record with a node that sends nothing

    [[
      0 root --- 1 M1 --- 2 M2     (M2 carries a comment and no stone)
    ]] *)
Definition remark_nodes : list SGFNode :=
  [ {| props := [mk_prop "S" "Z" "19"]; parent := None; child := Some 1%nat;
       next := None; prevVar := None; nextVar := None;
       draw_lvl := 0; move_num := 0 |};
    {| props := [mk_prop "B" " " "pd"]; parent := Some 0%nat; child := Some 2%nat;
       next := None; prevVar := None; nextVar := None;
       draw_lvl := 0; move_num := 1 |};
    {| props := [mk_prop "C" " " "joseki"]; parent := Some 1%nat; child := None;
       next := None; prevVar := None; nextVar := None;
       draw_lvl := 0; move_num := 2 |} ].

(** The sample record with the cursor on [n] and the board holding what
    the nodes of [path] (root first) have sent. *)
Definition sample_on (path : list nat) (n : nat) : State :=
  {| nodes := sample_nodes; gameTree := Some sample_tree; curNode := Some n;
     comment_str := None; comment_update := 0; boardSize := 19;
     bShowFullScreenComment := 0;
     board := Calls.replay sample_nodes 19 path;
     prims := [] |}.

(** The one call that undoes the frame of the root: a step back or a
    backward event skip, with the full-screen comment off, the cursor on
    the root [r] and the root having sent stones or markers. *)
Definition back_from_sent_root (op : NavOp) (s : State) (r : nat) : Prop :=
  (op = OpBack \/ op = OpPrevEvt)
  /\ c_true (bShowFullScreenComment s) = false
  /\ curNode s = Some r
  /\ exists ndr, nth_error (nodes s) r = Some ndr
                 /\ node_cmds (boardSize s) ndr <> [].

(** * Properties *)

(** ** Basic facts about the monad and the state updates *)

Lemma bind_ret_inv {A B : Type} (m : outcome A) (k : A -> outcome B) (b : B) :
  bind m k = Ret b -> exists a, m = Ret a /\ k a = Ret b.
Proof.
  destruct m; simpl; intros H; try discriminate.
  exists a. split; [reflexivity | exact H].
Qed.

Lemma deref_ret_inv (s : State) (p : ptr) (nd : SGFNode) :
  deref s p = Ret nd -> exists n, p = Some n /\ nth_error (nodes s) n = Some nd.
Proof.
  destruct p as [n|]; simpl; [|discriminate].
  destruct (nth_error (nodes s) n) eqn:E; [|discriminate].
  intros H. injection H as <-. exists n. auto.
Qed.

Lemma deref_some (s : State) (n : nat) (nd : SGFNode) :
  nth_error (nodes s) n = Some nd -> deref s (Some n) = Ret nd.
Proof. intros H. simpl. rewrite H. reflexivity. Qed.

Lemma is_some_true {A : Type} (o : option A) :
  is_some o = true <-> o <> None.
Proof. destruct o; simpl; split; congruence. Qed.

Lemma is_some_false {A : Type} (o : option A) :
  is_some o = false <-> o = None.
Proof. destruct o; simpl; split; congruence. Qed.

(** Step by step inversion of a monadic computation that returned. *)
Ltac ret_inv H :=
  let a := fresh "x" in
  let H1 := fresh "E" in
  apply bind_ret_inv in H; destruct H as (a & H1 & H).

Example sample_load :
  gogame_new_from_file sample_nodes sample_tree 19 = Ret sample_start.
Proof. reflexivity. Qed.

Example sample_enc : ENC_SGFPROP "C" " " = 8259.
Proof. reflexivity. Qed.

(** ** The comment cache (C4) *)

(** What [updateCommentStr] does, by cases on the annotation of the current
    node and on the cached value. *)
Lemma updateCommentStr_cases (s : State) (n : nat) (nd : SGFNode) :
  gameTree s <> None ->
  curNode s = Some n ->
  nth_error (nodes s) n = Some nd ->
  updateCommentStr s =
    Ret (match annotation nd, comment_str s with
         | None, None => set_comment None 0 s
         | None, Some _ => set_comment None 1 s
         | Some msg, _ => set_comment (Some msg) 1 s
         end).
Proof.
  intros Ht Hc Hn. unfold updateCommentStr.
  destruct (gameTree s) eqn:Et; [|congruence]. simpl.
  rewrite Hc. simpl. rewrite Hn. simpl.
  destruct (annotation nd); [reflexivity|].
  destruct (comment_str s); reflexivity.
Qed.

Lemma updateCommentStr_ret (s : State) (n : nat) (nd : SGFNode) :
  gameTree s <> None ->
  curNode s = Some n ->
  nth_error (nodes s) n = Some nd ->
  exists c u, updateCommentStr s = Ret (set_comment c u s).
Proof.
  intros Ht Hc Hn. rewrite (updateCommentStr_cases s n nd Ht Hc Hn).
  destruct (annotation nd); [|destruct (comment_str s)]; eauto.
Qed.

Lemma updateCommentStr_ret_inv (s s' : State) :
  updateCommentStr s = Ret s' ->
  exists c u, s' = set_comment c u s.
Proof.
  unfold updateCommentStr. intros H.
  ret_inv H. ret_inv H. ret_inv H.
  destruct (annotation x1); [|destruct (comment_str s)];
    injection H as <-; eauto.
Qed.

(** C4 (as amended): the refresh stores the annotation of the current node
    in the cache; it clears the dirty flag only when the annotation and the
    cached value are both absent, and sets it in every other case, that is
    whenever the node carries an annotation (equal to the cached one or
    not) and when a cached value disappears.  Nothing else changes. *)
Theorem updateCommentStr_refresh (s : State) (n : nat) (nd : SGFNode) :
  gameTree s <> None ->
  curNode s = Some n ->
  nth_error (nodes s) n = Some nd ->
  exists s',
    updateCommentStr s = Ret s'
    /\ comment_str s' = annotation nd
    /\ comment_update s' =
         match annotation nd, comment_str s with
         | None, None => 0
         | _, _ => 1
         end
    /\ s' = set_comment (comment_str s') (comment_update s') s.
Proof.
  intros Ht Hc Hn. rewrite (updateCommentStr_cases s n nd Ht Hc Hn).
  destruct (annotation nd) as [msg|]; [|destruct (comment_str s)];
    eexists; (split; [reflexivity|]); simpl; auto.
Qed.

Lemma updateCommentStr_refresh_witness :
  exists s',
    updateCommentStr (sample_at [0; 1; 2; 4]%nat 4) = Ret s'
    /\ comment_str s' = Some "good move"%string
    /\ comment_update s' = 1.
Proof.
  destruct (updateCommentStr_refresh (sample_at [0; 1; 2; 4]%nat 4) 4
              (nth 4 sample_nodes sgfNewNode))
    as (s' & H1 & H2 & H3 & _).
  - simpl. discriminate.
  - reflexivity.
  - reflexivity.
  - exists s'. split; [exact H1|]. split; [exact H2 | exact H3].
Defined.

(** C4 fails as stated: refreshing on a node whose annotation equals the
    cached value leaves the dirty flag set instead of clearing it. *)
Lemma updateCommentStr_equal_sets_dirty :
  let s := set_comment (Some "good move"%string) 0
             (sample_at [0; 1; 2; 4]%nat 4) in
  exists nd s',
    nth_error (nodes s) 4 = Some nd
    /\ annotation nd = comment_str s
    /\ updateCommentStr s = Ret s'
    /\ comment_str s' = comment_str s
    /\ comment_update s' = 1.
Proof.
  simpl. eexists. eexists.
  split; [reflexivity|]. split; [reflexivity|].
  split; [reflexivity|]. split; reflexivity.
Qed.

(** ** No record loaded, full-screen comment (C9, C10) *)

(** C9: with no record loaded ([gameTree == NULL]) every public navigation
    operation returns at once with the state untouched, so no apply or undo
    is issued; the page jump reports 0. *)
Theorem no_record_noop (fuel : nat) (op : NavOp) (page : Z) (s : State) :
  gameTree s = None ->
  run_op fuel op s = Ret s
  /\ gogame_move_to_page fuel page s = Ret (s, 0).
Proof.
  intros H. split.
  - destruct op; simpl;
      unfold gogame_move_forward, gogame_move_back,
        gogame_move_forward_update, gogame_move_back_update,
        gogame_moveVar_down, gogame_moveVar_up, gogame_move_to_nextEvt,
        gogame_move_to_prevEvt, gogame_move_to_page;
      rewrite H; reflexivity.
  - unfold gogame_move_to_page. rewrite H. reflexivity.
Qed.

Lemma no_record_noop_witness :
  run_op 0 OpPrevEvt no_record = Ret no_record
  /\ gogame_move_to_page 0 3 no_record = Ret (no_record, 0).
Proof. apply (no_record_noop 0 OpPrevEvt 3 no_record). reflexivity. Defined.

Lemma run_op_fullscreen (fuel : nat) (op : NavOp) (s : State) :
  c_true (bShowFullScreenComment s) = true -> run_op fuel op s = Ret s.
Proof.
  intros H.
  destruct op; simpl;
    unfold gogame_move_forward, gogame_move_back,
      gogame_move_forward_update, gogame_move_back_update,
      gogame_moveVar_down, gogame_moveVar_up, gogame_move_to_nextEvt,
      gogame_move_to_prevEvt, gogame_move_to_page;
    rewrite H; destruct (gameTree s); reflexivity.
Qed.

Lemma gogame_move_to_page_fullscreen (fuel : nat) (page : Z) (s : State) :
  c_true (bShowFullScreenComment s) = true ->
  gogame_move_to_page fuel page s = Ret (s, 0).
Proof.
  intros H. unfold gogame_move_to_page. rewrite H.
  destruct (gameTree s); reflexivity.
Qed.

(** C10: while the full-screen comment flag is set every navigation
    operation returns at once with the whole state (cursor, projection,
    comment cache) untouched; the page jump reports 0. *)
Theorem fullscreen_noop (fuel : nat) (op : NavOp) (page : Z) (s : State) :
  c_true (bShowFullScreenComment s) = true ->
  run_op fuel op s = Ret s
  /\ gogame_move_to_page fuel page s = Ret (s, 0).
Proof.
  intros H. split.
  - apply run_op_fullscreen. exact H.
  - apply gogame_move_to_page_fullscreen. exact H.
Qed.

Lemma fullscreen_noop_witness :
  let s := set_fullscreen 1 (sample_at [0; 1; 2; 4]%nat 4) in
  run_op 0 OpVarDown s = Ret s
  /\ gogame_move_to_page 0 0 s = Ret (s, 0).
Proof.
  apply (fullscreen_noop 0 OpVarDown 0
           (set_fullscreen 1 (sample_at [0; 1; 2; 4]%nat 4))).
  reflexivity.
Defined.

(** ** The boolean tree check is sound *)

Lemma nth_error_combine_seq (h : list SGFNode) :
  forall (k n : nat) (nd : SGFNode),
    nth_error h n = Some nd ->
    In ((k + n)%nat, nd) (combine (seq k (length h)) h).
Proof.
  induction h as [|x h IH]; intros k n nd H.
  - destruct n; discriminate.
  - destruct n as [|n]; simpl in *.
    + injection H as ->. left. f_equal. lia.
    + right. replace (k + S n)%nat with (S k + n)%nat by lia.
      apply IH. exact H.
Qed.

Lemma ptr_eqb_eq (p q : ptr) : ptr_eqb p q = true -> p = q.
Proof.
  destruct p, q; simpl; try discriminate; auto.
  intros H. apply Nat.eqb_eq in H. congruence.
Qed.

Lemma same_ply_ok_sound (h : list SGFNode) (nd : SGFNode) (m : nat) :
  same_ply_ok h nd (Some m) = true ->
  exists ndm, nth_error h m = Some ndm /\ move_num ndm = move_num nd.
Proof.
  simpl. destruct (nth_error h m) as [ndm|]; [|discriminate].
  intros H. apply Z.eqb_eq in H. eauto.
Qed.

Lemma wf_treeb_sound (h : list SGFNode) (r : nat) :
  wf_treeb h r = true -> wf_tree h r.
Proof.
  unfold wf_treeb. intros H. apply andb_prop in H. destruct H as [Hr Hall].
  assert (Hn : forall n nd, nth_error h n = Some nd -> node_okb h r n nd = true).
  { intros n nd Hnd. rewrite forallb_forall in Hall.
    apply (Hall (n, nd)). apply (nth_error_combine_seq h 0 n nd Hnd). }
  clear Hall. constructor.
  - destruct (nth_error h r) as [nd|]; [|discriminate].
    apply andb_prop in Hr. destruct Hr as [Hp Hm].
    exists nd. split; [reflexivity|]. split.
    + destruct (parent nd); [discriminate | reflexivity].
    + apply Z.eqb_eq. exact Hm.
  - intros n nd p Hnd Hp. specialize (Hn n nd Hnd). unfold node_okb in Hn.
    repeat (apply andb_prop in Hn; destruct Hn as [Hn ?]).
    rewrite Hp in Hn. destruct (nth_error h p) as [ndp|]; [|discriminate].
    apply andb_prop in Hn. destruct Hn as [Hn Hd].
    apply andb_prop in Hn. destruct Hn as [Ha Hb].
    apply Z.eqb_eq in Ha. apply Z.leb_le in Hb. apply is_some_true in Hd.
    eauto.
  - intros n nd Hnd Hp. specialize (Hn n nd Hnd). unfold node_okb in Hn.
    repeat (apply andb_prop in Hn; destruct Hn as [Hn ?]).
    rewrite Hp in Hn. apply Nat.eqb_eq. exact Hn.
  - intros n nd c Hnd Hc. specialize (Hn n nd Hnd). unfold node_okb in Hn.
    repeat (apply andb_prop in Hn; destruct Hn as [Hn ?]).
    rewrite Hc in *. destruct (nth_error h c) as [ndc|]; [|discriminate].
    exists ndc. split; [reflexivity|]. apply ptr_eqb_eq. assumption.
  - intros n nd m Hnd Hm. specialize (Hn n nd Hnd). unfold node_okb in Hn.
    repeat (apply andb_prop in Hn; destruct Hn as [Hn ?]).
    rewrite Hm in *. apply same_ply_ok_sound. assumption.
  - intros n nd m Hnd Hm. specialize (Hn n nd Hnd). unfold node_okb in Hn.
    repeat (apply andb_prop in Hn; destruct Hn as [Hn ?]).
    rewrite Hm in *. apply same_ply_ok_sound. assumption.
Qed.

Lemma sample_wf : wf_tree sample_nodes 0.
Proof. apply wf_treeb_sound. reflexivity. Qed.

(** ** Equations for the primitive steps *)

Lemma apply_sgf_cmds_to_board_eq (s : State) (n : nat) (nd : SGFNode) :
  gameTree s <> None ->
  curNode s = Some n ->
  nth_error (nodes s) n = Some nd ->
  apply_sgf_cmds_to_board s =
    Ret (set_board (board_apply (board s) (node_cmds (boardSize s) nd))
                   (PrimApply n) s).
Proof.
  intros Ht Hc Hn. unfold apply_sgf_cmds_to_board.
  destruct (gameTree s); [|congruence]. simpl.
  rewrite Hc, Hn. reflexivity.
Qed.

Lemma gogame_move_forward_update_eq (bUpdate : Z) (s : State) (n c : nat)
    (nd ndc : SGFNode) :
  gameTree s <> None ->
  c_true (bShowFullScreenComment s) = false ->
  curNode s = Some n ->
  nth_error (nodes s) n = Some nd ->
  child nd = Some c ->
  nth_error (nodes s) c = Some ndc ->
  gogame_move_forward_update bUpdate s =
    if c_true bUpdate then updateCommentStr (stepped_forward s c ndc)
    else Ret (stepped_forward s c ndc).
Proof.
  intros Ht Hf Hc Hn Hch Hnc. unfold gogame_move_forward_update.
  destruct (gameTree s) eqn:Et; [|congruence].
  rewrite Hf, Hc. rewrite (deref_some s n nd Hn). simpl. rewrite Hch.
  rewrite (apply_sgf_cmds_to_board_eq (set_curNode (Some c) s) c ndc);
    simpl; try rewrite Et; auto; discriminate.
Qed.

Lemma gogame_move_forward_update_leaf (bUpdate : Z) (s : State) (n : nat)
    (nd : SGFNode) :
  curNode s = Some n ->
  nth_error (nodes s) n = Some nd ->
  child nd = None ->
  gogame_move_forward_update bUpdate s = Ret s.
Proof.
  intros Hc Hn Hch. unfold gogame_move_forward_update.
  destruct (gameTree s); [|reflexivity].
  destruct (c_true (bShowFullScreenComment s)); [reflexivity|].
  rewrite Hc. rewrite (deref_some s n nd Hn). simpl. rewrite Hch. reflexivity.
Qed.

Lemma gogame_move_back_update_eq (bUpdate : Z) (s : State) (n : nat)
    (nd : SGFNode) (f : Frame) (b : Board) :
  gameTree s <> None ->
  c_true (bShowFullScreenComment s) = false ->
  curNode s = Some n ->
  nth_error (nodes s) n = Some nd ->
  board s = f :: b ->
  gogame_move_back_update bUpdate s =
    if c_true bUpdate then updateCommentStr (stepped_back s b (parent nd))
    else Ret (stepped_back s b (parent nd)).
Proof.
  intros Ht Hf Hc Hn Hb. unfold gogame_move_back_update.
  destruct (gameTree s) eqn:Et; [|congruence].
  rewrite Hf. unfold board_undo. rewrite Hb. simpl.
  rewrite Hc. simpl. rewrite Hn. simpl. reflexivity.
Qed.

(** ** Paths from the root *)

Lemma root_path_last (h : list SGFNode) (r n : nat) (l : list nat) :
  root_path h r n l -> exists l', l = l' ++ [n].
Proof.
  intros H. destruct H.
  - exists []. reflexivity.
  - exists l. reflexivity.
Qed.

Lemma root_path_node (h : list SGFNode) (r n : nat) (l : list nat) :
  root_path h r n l -> exists nd, nth_error h n = Some nd.
Proof. intros H. destruct H; eauto. Qed.

Lemma root_path_inv_parent (h : list SGFNode) (r n p : nat) (l : list nat)
    (nd : SGFNode) :
  root_path h r n l ->
  nth_error h n = Some nd -> parent nd = Some p ->
  exists l', l = l' ++ [n] /\ root_path h r p l'.
Proof.
  intros H Hn Hp. destruct H.
  - congruence.
  - exists l. split; [reflexivity|].
    assert (p0 = p) by congruence. subst p0. assumption.
Qed.

Lemma root_path_inv_root (h : list SGFNode) (r n : nat) (l : list nat)
    (nd : SGFNode) :
  root_path h r n l ->
  nth_error h n = Some nd -> parent nd = None ->
  n = r /\ l = [r].
Proof.
  intros H Hn Hp. destruct H.
  - auto.
  - congruence.
Qed.

Lemma root_path_unique (h : list SGFNode) (r n : nat) (l1 : list nat) :
  root_path h r n l1 -> forall l2, root_path h r n l2 -> l1 = l2.
Proof.
  induction 1 as [nd Hn Hp | p l n nd Hpath IH Hn Hp]; intros l2 H2.
  - destruct (root_path_inv_root h r r l2 nd H2 Hn Hp) as [_ ->]. reflexivity.
  - destruct (root_path_inv_parent h r n p l2 nd H2 Hn Hp) as (l' & -> & Hl').
    rewrite (IH l' Hl'). reflexivity.
Qed.

Lemma root_path_prefix (h : list SGFNode) (r b : nat) (l : list nat) :
  root_path h r b l ->
  forall l1 x l2, l = l1 ++ x :: l2 -> root_path h r x (l1 ++ [x]).
Proof.
  induction 1 as [nd Hn Hp | p l n nd Hpath IH Hn Hp]; intros l1 x l2 E.
  - destruct l1 as [|y l1].
    + simpl in E. injection E as <- _. simpl. eapply root_path_root; eauto.
    + simpl in E. injection E as _ E. destruct l1; discriminate.
  - destruct (exists_last (l := x :: l2)) as (l2' & y & E2); [discriminate|].
    rewrite E2 in E. rewrite app_assoc in E.
    apply app_inj_tail in E. destruct E as [El Ey]. subst y.
    destruct l2' as [|z l2'].
    + simpl in E2. destruct l2; [|destruct l2; discriminate].
      injection E2 as ->.
      rewrite app_nil_r in El. subst l1.
      eapply root_path_step; eauto.
    + simpl in E2. injection E2 as <- E2.
      eapply IH. exact El.
Qed.

Lemma root_path_single (h : list SGFNode) (r n x : nat) :
  root_path h r n [x] -> n = r /\ x = r.
Proof.
  intros H. remember [x] as l eqn:E. destruct H as [nd Hn Hp | p l n nd Hpath Hn Hp].
  - injection E as ->. auto.
  - destruct (root_path_last h r p l Hpath) as (l' & ->).
    destruct l'; simpl in E; [discriminate|].
    destruct l'; discriminate.
Qed.

Lemma replay_snoc (h : list SGFNode) (sz : Z) (l : list nat) (n : nat)
    (nd : SGFNode) :
  nth_error h n = Some nd ->
  replay h sz (l ++ [n]) = node_cmds sz nd :: replay h sz l.
Proof.
  intros Hn. unfold replay. rewrite fold_left_app. simpl.
  unfold apply_node at 1. rewrite Hn. reflexivity.
Qed.

Section Tree.

Variables (h : list SGFNode) (r : nat).
Hypothesis Hwf : wf_tree h r.

Lemma root_path_length (n : nat) (l : list nat) :
  root_path h r n l ->
  forall nd, nth_error h n = Some nd -> Z.of_nat (length l) = move_num nd + 1.
Proof.
  induction 1 as [nd Hn Hp | p l n nd Hpath IH Hn Hp]; intros nd' Hn'.
  - destruct (wf_root h r Hwf) as (ndr & Hr & _ & Hm).
    assert (nd' = ndr) by congruence. subst nd'. simpl. lia.
  - assert (nd' = nd) by congruence. subst nd'.
    destruct (wf_parent h r Hwf n nd p Hn Hp) as (ndp & Hndp & Hm & _).
    rewrite length_app. simpl. specialize (IH ndp Hndp). lia.
Qed.

Lemma move_num_nonneg (n : nat) (nd : SGFNode) :
  nth_error h n = Some nd -> 0 <= move_num nd.
Proof.
  intros Hn. destruct (parent nd) as [p|] eqn:Hp.
  - destruct (wf_parent h r Hwf n nd p Hn Hp) as (ndp & _ & Hm & H0). lia.
  - pose proof (wf_orphan h r Hwf n nd Hn Hp) as ->.
    destruct (wf_root h r Hwf) as (ndr & Hr & _ & Hm).
    assert (nd = ndr) by congruence. subst. lia.
Qed.

Lemma root_path_exists_aux (k : nat) :
  forall n nd, nth_error h n = Some nd -> move_num nd = Z.of_nat k ->
               exists l, root_path h r n l.
Proof.
  induction k as [|k IH]; intros n nd Hn Hm.
  - destruct (parent nd) as [p|] eqn:Hp.
    + destruct (wf_parent h r Hwf n nd p Hn Hp) as (ndp & _ & Hm' & H0). lia.
    + pose proof (wf_orphan h r Hwf n nd Hn Hp) as ->.
      exists [r]. eapply root_path_root; eauto.
  - destruct (parent nd) as [p|] eqn:Hp.
    + destruct (wf_parent h r Hwf n nd p Hn Hp) as (ndp & Hndp & Hm' & H0).
      destruct (IH p ndp Hndp) as (l & Hl); [lia|].
      exists (l ++ [n]). eapply root_path_step; eauto.
    + pose proof (wf_orphan h r Hwf n nd Hn Hp) as ->.
      exists [r]. eapply root_path_root; eauto.
Qed.

Lemma root_path_exists (n : nat) (nd : SGFNode) :
  nth_error h n = Some nd -> exists l, root_path h r n l.
Proof.
  intros Hn. pose proof (move_num_nonneg n nd Hn) as H0.
  apply (root_path_exists_aux (Z.to_nat (move_num nd)) n nd Hn). lia.
Qed.

Lemma var_chain_same_ply (a b : nat) :
  var_chain h a b ->
  forall nda ndb, nth_error h a = Some nda -> nth_error h b = Some ndb ->
                  move_num nda = move_num ndb.
Proof.
  induction 1 as [n nd Hn | n nd m k Hn Hnx Hch IH | n nd m k Hn Hpv Hch IH];
    intros nda ndb Ha Hb.
  - congruence.
  - assert (nda = nd) by congruence. subst nda.
    destruct (wf_nextVar h r Hwf n nd m Hn Hnx) as (ndm & Hm & E).
    rewrite <- E. apply IH; assumption.
  - assert (nda = nd) by congruence. subst nda.
    destruct (wf_prevVar h r Hwf n nd m Hn Hpv) as (ndm & Hm & E).
    rewrite <- E. apply IH; assumption.
Qed.

Lemma root_path_below (n : nat) (l : list nat) :
  root_path h r n l ->
  forall nd, nth_error h n = Some nd ->
  forall x, In x l ->
  exists ndx, nth_error h x = Some ndx /\ move_num ndx <= move_num nd.
Proof.
  induction 1 as [nd Hn Hp | p l n nd Hpath IH Hn Hp]; intros nd' Hn' x Hx.
  - destruct Hx as [<- | []]. exists nd'. split; [assumption | lia].
  - assert (nd' = nd) by congruence. subst nd'.
    apply in_app_or in Hx. destruct Hx as [Hx | [<- | []]].
    + destruct (wf_parent h r Hwf n nd p Hn Hp) as (ndp & Hndp & Hm & _).
      destruct (IH ndp Hndp x Hx) as (ndx & Hndx & Hle).
      exists ndx. split; [assumption | lia].
    + exists nd. split; [assumption | lia].
Qed.

Lemma root_path_NoDup (n : nat) (l : list nat) :
  root_path h r n l -> NoDup l.
Proof.
  induction 1 as [nd Hn Hp | p l n nd Hpath IH Hn Hp].
  - constructor; [intros [] | constructor].
  - apply NoDup_app; [assumption | constructor; [intros [] | constructor] |].
    intros x Hx [E | []]. subst x.
    destruct (wf_parent h r Hwf n nd p Hn Hp) as (ndp & Hndp & Hm & _).
    destruct (root_path_below p l Hpath ndp Hndp n Hx) as (ndx & Hndx & Hle).
    assert (ndx = nd) by congruence. subst ndx. lia.
Qed.

(** A root path visits distinct nodes of the store, so it is no longer than
    the store. *)
Lemma root_path_bound (n : nat) (l : list nat) :
  root_path h r n l -> (length l <= length h)%nat.
Proof.
  intros Hp. rewrite <- (length_seq (length h) 0).
  apply NoDup_incl_length; [eapply root_path_NoDup; eauto|].
  intros x Hx. apply in_seq. split; [lia|]. simpl.
  destruct (root_path_node h r n l Hp) as (nd & Hn).
  destruct (root_path_below n l Hp nd Hn x Hx) as (ndx & Hndx & _).
  apply nth_error_Some. congruence.
Qed.

End Tree.

(** ** Loop bounds: more fuel gives the same result *)

Arguments deref : simpl never.

Lemma undo_variation_ascend_mono (fuel : nat) :
  forall s a b path res,
    undo_variation_ascend fuel s a b path = Ret res ->
    forall fuel', (fuel <= fuel')%nat ->
                  undo_variation_ascend fuel' s a b path = Ret res.
Proof.
  induction fuel as [|fuel IH]; intros s a b path res H fuel' Hle;
    [discriminate|].
  destruct fuel' as [|fuel']; [lia|].
  simpl in *.
  destruct a as [a|]; [|assumption].
  destruct b as [b|]; [|assumption].
  destruct (Nat.eqb a b); [assumption|].
  destruct (board_undo s) as [ok s1].
  ret_inv H. rewrite E. simpl.
  ret_inv H. rewrite E0. simpl.
  ret_inv H. rewrite E1. simpl.
  apply IH; [assumption | lia].
Qed.

(** Split a conjunction of routine side conditions. *)
Ltac conj_auto :=
  repeat match goal with |- _ /\ _ => split end;
  try assumption; try reflexivity; try (intros; discriminate).

Lemma undo_variation_mono (fuel fuel' : nat) (a b : ptr) (s s' : State) :
  undo_variation fuel a b s = Ret s' -> (fuel <= fuel')%nat ->
  undo_variation fuel' a b s = Ret s'.
Proof.
  unfold undo_variation. intros H Hle.
  ret_inv H. rewrite E. simpl.
  ret_inv H. rewrite E0. simpl.
  ret_inv H.
  rewrite (undo_variation_ascend_mono fuel s a b [] x1 E1 fuel' Hle).
  simpl. exact H.
Qed.

Lemma updateCommentStr_null (s : State) :
  curNode s = None -> forall s', updateCommentStr s <> Ret s'.
Proof.
  intros Hc s'. unfold updateCommentStr. rewrite Hc.
  destruct (gameTree s); simpl; discriminate.
Qed.

(** ** The invariant through the navigation code *)

Section Navigation.

Variables (h : list SGFNode) (sz : Z) (t : SGFTree) (r : nat).
Hypothesis Hwf : wf_tree h r.

Abbreviation Inv := (inv h sz t r).

(** *** Linear steps *)

Lemma inv_set_comment (s : State) (n : nat) (l : list nat) c u :
  Inv s n l -> Inv (set_comment c u s) n l.
Proof. unfold inv. simpl. tauto. Qed.

Lemma inv_node (s : State) (n : nat) (l : list nat) :
  Inv s n l -> exists nd, nth_error (nodes s) n = Some nd.
Proof.
  intros (Hh & _ & _ & _ & _ & Hp & _). rewrite Hh.
  eapply root_path_node; eauto.
Qed.

Lemma inv_updateCommentStr (s : State) (n : nat) (l : list nat) :
  Inv s n l -> exists c u, updateCommentStr s = Ret (set_comment c u s).
Proof.
  intros HI. destruct (inv_node s n l HI) as (nd & Hn).
  destruct HI as (Hh & _ & Ht & _ & Hc & _).
  apply (updateCommentStr_ret s n nd); [congruence | assumption | assumption].
Qed.

Lemma inv_forward (s : State) (n c : nat) (l : list nat) (nd : SGFNode) :
  Inv s n l -> nth_error h n = Some nd -> child nd = Some c ->
  exists ndc,
    nth_error h c = Some ndc /\ move_num ndc = move_num nd + 1
    /\ gogame_move_forward_update 0 s = Ret (stepped_forward s c ndc)
    /\ Inv (stepped_forward s c ndc) c (l ++ [c]).
Proof.
  intros (Hh & Hsz & Ht & Hf & Hc & Hp & Hb) Hn Hch.
  destruct (wf_child h r Hwf n nd c Hn Hch) as (ndc & Hndc & Hpar).
  destruct (wf_parent h r Hwf c ndc n Hndc Hpar) as (nd' & Hn' & Hm & _).
  assert (nd' = nd) by congruence. subst nd'.
  exists ndc. split; [assumption|]. split; [assumption|]. split.
  - rewrite (gogame_move_forward_update_eq 0 s n c nd ndc);
      try rewrite Hh; auto. congruence.
  - unfold inv, stepped_forward. simpl.
    repeat (split; [assumption|]). split; [reflexivity|]. split.
    + eapply root_path_step; eauto.
    + rewrite Hsz, Hb. unfold board_apply.
      symmetry. apply replay_snoc. assumption.
Qed.

Lemma inv_board (s : State) (n : nat) (l : list nat) (nd : SGFNode) :
  Inv s n l -> nth_error h n = Some nd ->
  exists l', l = l' ++ [n] /\ board s = node_cmds sz nd :: replay h sz l'.
Proof.
  intros (Hh & Hsz & Ht & Hf & Hc & Hp & Hb) Hn.
  destruct (root_path_last h r n l Hp) as (l' & ->).
  exists l'. split; [reflexivity|].
  rewrite Hb. apply replay_snoc. assumption.
Qed.

Lemma inv_back (s : State) (n p : nat) (l : list nat) (nd : SGFNode) :
  Inv s n l -> nth_error h n = Some nd -> parent nd = Some p ->
  exists l' ndp,
    l = l' ++ [n]
    /\ nth_error h p = Some ndp /\ move_num nd = move_num ndp + 1
    /\ gogame_move_back_update 0 s
       = Ret (stepped_back s (replay h sz l') (Some p))
    /\ Inv (stepped_back s (replay h sz l') (Some p)) p l'.
Proof.
  intros HI Hn Hpar.
  destruct (inv_board s n l nd HI Hn) as (l' & El & Hb').
  destruct HI as (Hh & Hsz & Ht & Hf & Hc & Hp & Hb).
  destruct (wf_parent h r Hwf n nd p Hn Hpar) as (ndp & Hndp & Hm & _).
  destruct (root_path_inv_parent h r n p l nd Hp Hn Hpar) as (l'' & El' & Hp').
  assert (l'' = l').
  { rewrite El in El'. apply app_inj_tail in El'. symmetry. tauto. }
  subst l''.
  exists l', ndp. split; [assumption|]. split; [assumption|].
  split; [assumption|]. split.
  - rewrite (gogame_move_back_update_eq 0 s n nd (node_cmds sz nd)
               (replay h sz l'));
      try rewrite Hh; auto; try congruence.
    rewrite Hpar. reflexivity.
  - unfold inv, stepped_back. simpl. auto 10.
Qed.

(** Stepping back from the root empties the projection and leaves a
    NULL cursor. *)
Lemma inv_back_root (s : State) (n : nat) (l : list nat) (nd : SGFNode) :
  Inv s n l -> nth_error h n = Some nd -> parent nd = None ->
  gogame_move_back_update 0 s = Ret (stepped_back s (replay h sz []) None).
Proof.
  intros HI Hn Hpar.
  destruct (inv_board s n l nd HI Hn) as (l' & El & Hb').
  destruct HI as (Hh & Hsz & Ht & Hf & Hc & Hp & Hb).
  destruct (root_path_inv_root h r n l nd Hp Hn Hpar) as [-> El'].
  assert (l' = []).
  { rewrite El in El'. destruct l'; [reflexivity|].
    destruct l'; discriminate. }
  subst l'.
  rewrite (gogame_move_back_update_eq 0 s r nd (node_cmds sz nd)
             (replay h sz []));
    try rewrite Hh; auto; try congruence.
  rewrite Hpar. reflexivity.
Qed.

(** *** Event skip loops *)

Lemma nextEvt_cond_eq (s : State) (n : nat) (l : list nat) (nd : SGFNode) :
  Inv s n l -> nth_error h n = Some nd ->
  nextEvt_cond s = Ret (fwd_continue nd).
Proof.
  intros (Hh & _ & _ & _ & Hc & _) Hn. unfold nextEvt_cond.
  rewrite Hc. rewrite (deref_some s n nd) by (rewrite Hh; assumption).
  reflexivity.
Qed.

Lemma nextEvt_loop_inv (fuel : nat) :
  forall s n l s',
    Inv s n l -> nextEvt_loop fuel s = Ret s' ->
    exists n' l', Inv s' n' l' /\ fwd_run h n n'
                  /\ comment_str s' = comment_str s.
Proof.
  induction fuel as [|fuel IH]; intros s n l s' HI H; [discriminate|].
  simpl in H.
  destruct (inv_node s n l HI) as (nd & Hn).
  assert (Hn' : nth_error h n = Some nd).
  { destruct HI as (Hh & _). rewrite <- Hh. assumption. }
  rewrite (nextEvt_cond_eq s n l nd HI Hn') in H. simpl in H.
  destruct (fwd_continue nd) eqn:Ec.
  - assert (exists c, child nd = Some c) as (c & Hch).
    { unfold fwd_continue in Ec. destruct (child nd); [eauto|discriminate]. }
    destruct (inv_forward s n c l nd HI Hn' Hch) as (ndc & Hndc & _ & E & HI').
    rewrite E in H. simpl in H.
    destruct (IH _ c (l ++ [c]) s' HI' H) as (n' & l' & HI'' & Hrun & Hcm).
    exists n', l'. split; [assumption|]. split.
    + eapply fwd_run_go; eauto.
    + rewrite Hcm. reflexivity.
  - injection H as <-. exists n, l. split; [assumption|]. split.
    + eapply fwd_run_stop; eauto.
    + reflexivity.
Qed.

Lemma prevEvt_loop_inv (fuel : nat) :
  forall s n l s',
    Inv s n l -> prevEvt_loop fuel s = Ret s' ->
    exists n' l', Inv s' n' l' /\ bwd_run h n n'.
Proof.
  induction fuel as [|fuel IH]; intros s n l s' HI H; [discriminate|].
  simpl in H.
  destruct (inv_node s n l HI) as (nd & Hn).
  assert (Hh : nodes s = h) by (destruct HI; assumption).
  assert (Hc : curNode s = Some n) by (destruct HI; tauto).
  assert (Hn' : nth_error h n = Some nd) by (rewrite <- Hh; assumption).
  ret_inv H. unfold prevEvt_cond in E.
  rewrite Hc in E. rewrite (deref_some s n nd Hn) in E. simpl in E.
  destruct (parent nd) as [p|] eqn:Hpar.
  - destruct (is_some (next nd)) eqn:Hnx.
    + injection E as <-. injection H as <-.
      exists n, l. split; [assumption|]. eapply bwd_run_sibling; eauto.
    + ret_inv E. ret_inv E.
      apply deref_ret_inv in E0. destruct E0 as (p' & Ep & Hndp).
      injection Ep as <-.
      apply deref_ret_inv in E1. destruct E1 as (c & Hch & Hndc).
      rewrite Hh in Hndp, Hndc.
      assert (Hx : x = bwd_continue nd x1).
      { unfold bwd_continue. rewrite Hnx. simpl.
        destruct (is_some (next x1)); injection E as <-; reflexivity. }
      clear E. destruct x.
      * destruct (inv_back s n p l nd HI Hn' Hpar)
          as (l' & ndp & El & _ & _ & Eb & HI').
        rewrite Eb in H. simpl in H.
        destruct (IH _ p l' s' HI' H) as (n' & l'' & HI'' & Hrun).
        exists n', l''. split; [assumption|].
        eapply bwd_run_go; eauto.
      * injection H as <-. exists n, l. split; [assumption|].
        eapply bwd_run_stop; eauto.
  - injection E as <-. injection H as <-.
    exists n, l. split; [assumption|]. eapply bwd_run_root; eauto.
Qed.

(** *** Page jump loops *)

Lemma page_back_loop_inv (fuel : nat) (page : Z) :
  forall s n l nd s',
    Inv s n l -> nth_error h n = Some nd -> page <= move_num nd ->
    page_back_loop fuel page s = Ret s' ->
    exists n' l' nd',
      Inv s' n' l' /\ nth_error h n' = Some nd' /\ page <= move_num nd'
      /\ (parent nd' = None \/ page = move_num nd')
      /\ comment_str s' = comment_str s.
Proof.
  induction fuel as [|fuel IH]; intros s n l nd s' HI Hn Hle H; [discriminate|].
  simpl in H.
  assert (Hh : nodes s = h) by (destruct HI; assumption).
  assert (Hc : curNode s = Some n) by (destruct HI; tauto).
  rewrite Hc in H. rewrite (deref_some s n nd) in H by (rewrite Hh; assumption).
  simpl in H.
  destruct (parent nd) as [p|] eqn:Hpar; simpl in H.
  - destruct (page <? move_num nd) eqn:Elt.
    + apply Z.ltb_lt in Elt.
      destruct (inv_back s n p l nd HI Hn Hpar)
        as (l' & ndp & El & Hndp & Hm & Eb & HI').
      rewrite Eb in H. simpl in H.
      destruct (IH _ p l' ndp s' HI' Hndp ltac:(lia) H)
        as (n' & l'' & nd' & HI'' & Hn'' & Hle' & Hex & Hcm).
      exists n', l'', nd'. auto 10.
    + apply Z.ltb_ge in Elt. injection H as <-.
      exists n, l, nd. split; [assumption|]. split; [assumption|].
      split; [assumption|]. split; [right; lia | reflexivity].
  - injection H as <-. exists n, l, nd. auto 10.
Qed.

Lemma page_forward_loop_inv (fuel : nat) (page : Z) :
  forall s n l nd s',
    Inv s n l -> nth_error h n = Some nd -> move_num nd <= page ->
    page_forward_loop fuel page s = Ret s' ->
    exists n' l' nd',
      Inv s' n' l' /\ nth_error h n' = Some nd' /\ move_num nd' <= page
      /\ (child nd' = None \/ page = move_num nd')
      /\ comment_str s' = comment_str s.
Proof.
  induction fuel as [|fuel IH]; intros s n l nd s' HI Hn Hle H; [discriminate|].
  simpl in H.
  assert (Hh : nodes s = h) by (destruct HI; assumption).
  assert (Hc : curNode s = Some n) by (destruct HI; tauto).
  rewrite Hc in H. rewrite (deref_some s n nd) in H by (rewrite Hh; assumption).
  simpl in H.
  destruct (child nd) as [c|] eqn:Hch; simpl in H.
  - destruct (page >? move_num nd) eqn:Egt.
    + apply Z.gtb_lt in Egt.
      destruct (inv_forward s n c l nd HI Hn Hch) as (ndc & Hndc & Hm & E & HI').
      rewrite E in H. simpl in H.
      destruct (IH _ c (l ++ [c]) ndc s' HI' Hndc ltac:(lia) H)
        as (n' & l'' & nd' & HI'' & Hn'' & Hle' & Hex & Hcm).
      exists n', l'', nd'. auto 10.
    + assert (move_num nd >= page) by (rewrite Z.gtb_ltb in Egt; apply Z.ltb_ge in Egt; lia).
      injection H as <-.
      exists n, l, nd. split; [assumption|]. split; [assumption|].
      split; [assumption|]. split; [right; lia | reflexivity].
  - injection H as <-. exists n, l, nd. auto 10.
Qed.

(** *** The variation switch *)

(** The ascent: with both walkers on the same ply the loop stops on their
    lowest common ancestor [c], after one successful undo per step, with
    the target side of the path staged oldest first. *)
Lemma undo_variation_ascend_ok (a : nat) (la : list nat) :
  root_path h r a la ->
  forall b lb s path fuel,
    root_path h r b lb -> length la = length lb ->
    Inv s a la -> (length la <= fuel)%nat ->
    exists s' c lc sa sb,
      undo_variation_ascend fuel s (Some a) (Some b) path
        = Ret (s', Some c, Some c, sb ++ path)
      /\ Inv s' c lc
      /\ la = lc ++ sa /\ lb = lc ++ sb /\ length sa = length sb
      /\ (forall x y, hd_error sa = Some x -> hd_error sb = Some y -> x <> y)
      /\ prims s' = prims s ++ repeat (PrimUndo true) (length sa)
      /\ comment_str s' = comment_str s
      /\ comment_update s' = comment_update s.
Proof.
  induction 1 as [nd Hn Hp | p l a nd Hpath IH Hn Hp];
    intros b lb s path fuel Hb Hlen HI Hfuel.
  - (* both walkers are on the root *)
    destruct lb as [|x lb]; [discriminate|].
    destruct lb; [|discriminate].
    destruct (root_path_single h r b x Hb) as [-> ->].
    destruct fuel as [|fuel]; [simpl in Hfuel; lia|].
    exists s, r, [r], [], []. simpl. rewrite Nat.eqb_refl.
    rewrite app_nil_r. conj_auto.
  - destruct fuel as [|fuel]; [rewrite length_app in Hfuel; simpl in Hfuel; lia|].
    simpl. destruct (Nat.eqb a b) eqn:Eab.
    + apply Nat.eqb_eq in Eab. subst b.
      assert (Hla : root_path h r a (l ++ [a]))
        by (eapply root_path_step; eauto).
      rewrite <- (root_path_unique h r a _ Hla lb Hb).
      exists s, a, (l ++ [a]), [], []. simpl.
      rewrite !app_nil_r. conj_auto.
    + apply Nat.eqb_neq in Eab.
      destruct (root_path_node h r b lb Hb) as (ndb & Hndb).
      destruct (parent ndb) as [q|] eqn:Hq.
      2:{ destruct (root_path_inv_root h r b lb ndb Hb Hndb Hq) as [_ ->].
          rewrite length_app in Hlen. simpl in Hlen.
          destruct (root_path_last h r p l Hpath) as (l0 & ->).
          rewrite length_app in Hlen. simpl in Hlen. lia. }
      destruct (root_path_inv_parent h r b q lb ndb Hb Hndb Hq)
        as (l2 & -> & Hq').
      assert (HI0 := HI).
      destruct HI0 as (Hh & Hsz & Ht & Hf & Hc & Hrp & Hbd).
      destruct (inv_back s a p (l ++ [a]) nd HI Hn Hp)
        as (l' & ndp & El & Hndp & _ & _ & HI').
      apply app_inj_tail in El. destruct El as [<- _].
      destruct (inv_board s a (l ++ [a]) nd HI Hn) as (l'' & El & Hbd').
      apply app_inj_tail in El. destruct El as [<- _].
      unfold board_undo. rewrite Hbd'. simpl board_pop. cbv iota beta.
      simpl curNode. rewrite Hc.
      rewrite (deref_some _ a nd) by (simpl; rewrite Hh; assumption).
      simpl bind at 2. simpl bind at 1.
      rewrite Hp.
      rewrite (deref_some _ a nd) by (simpl; rewrite Hh; assumption).
      simpl bind at 1.
      rewrite (deref_some _ b ndb) by (simpl; rewrite Hh; assumption).
      simpl bind at 1. rewrite Hp, Hq.
      rewrite !length_app in Hlen. rewrite length_app in Hfuel.
      simpl in Hlen, Hfuel.
      destruct (IH q l2 (stepped_back s (replay h sz l) (Some p))
                  (b :: path) fuel Hq' ltac:(lia) HI' ltac:(lia))
        as (s' & c & lc & sa & sb & E & HI'' & Ela & Elb & Hlen' & Hhd
            & Hpr & Hcs & Hcu).
      exists s', c, lc, (sa ++ [a]), (sb ++ [b]).
      split. { unfold stepped_back in E. rewrite E. rewrite <- app_assoc.
               reflexivity. }
      split; [assumption|].
      split. { rewrite Ela. rewrite app_assoc. reflexivity. }
      split. { rewrite Elb. rewrite app_assoc. reflexivity. }
      split. { rewrite !length_app. simpl. lia. }
      split.
      { intros x y Hx Hy. destruct sa as [|x0 sa]; destruct sb as [|y0 sb];
          try discriminate.
        - simpl in Hx, Hy. congruence.
        - simpl in Hx, Hy. apply (Hhd x y); simpl; assumption. }
      split.
      { rewrite Hpr. simpl. rewrite length_app. simpl.
        rewrite Nat.add_1_r. rewrite <- app_assoc. reflexivity. }
      split; [rewrite Hcs; reflexivity | rewrite Hcu; reflexivity].
Qed.

(** The replay: the staged nodes are applied from the common ancestor
    down to the target. *)
Lemma undo_variation_replay_ok (sb : list nat) :
  forall s c lc b,
    Inv s c lc -> root_path h r b (lc ++ sb) ->
    exists s',
      undo_variation_replay sb s = Ret s'
      /\ Inv s' b (lc ++ sb)
      /\ prims s' = prims s ++ map PrimApply sb
      /\ comment_str s' = comment_str s
      /\ comment_update s' = comment_update s.
Proof.
  induction sb as [|n sb IH]; intros s c lc b HI Hb.
  - rewrite app_nil_r in *. exists s. simpl. rewrite app_nil_r.
    destruct HI as (Hh & Hsz & Ht & Hf & Hc & Hrp & Hbd).
    destruct (root_path_last h r c lc Hrp) as (l1 & E1).
    destruct (root_path_last h r b lc Hb) as (l2 & E2).
    rewrite E1 in E2. apply app_inj_tail in E2. destruct E2 as [_ ->].
    unfold inv. auto 10.
  - pose proof (root_path_prefix h r b _ Hb lc n sb eq_refl) as Hn.
    destruct (root_path_node h r n _ Hn) as (ndn & Hndn).
    destruct HI as (Hh & Hsz & Ht & Hf & Hc & Hrp & Hbd).
    simpl.
    rewrite (apply_sgf_cmds_to_board_eq (set_curNode (Some n) s) n ndn);
      [| simpl; congruence | reflexivity | simpl; rewrite Hh; assumption].
    simpl bind.
    match goal with
    | |- exists s', undo_variation_replay sb ?s1 = _ /\ _ =>
        destruct (IH s1 n (lc ++ [n]) b) as (s' & E & HI' & Hpr & Hcs & Hcu)
    end.
    + unfold inv. simpl. repeat (split; [assumption|]).
      split; [reflexivity|]. split; [assumption|].
      rewrite Hsz, Hbd. unfold board_apply. symmetry.
      apply replay_snoc. assumption.
    + rewrite <- app_assoc. exact Hb.
    + exists s'. split; [exact E|].
      split. { rewrite <- app_assoc in HI'. exact HI'. }
      split. { rewrite Hpr. simpl. rewrite <- app_assoc. reflexivity. }
      split; [rewrite Hcs; reflexivity | rewrite Hcu; reflexivity].
Qed.

(** [undo_variation] between two nodes of the same ply. *)
Lemma undo_variation_ok (s : State) (a b : nat) (la lb : list nat)
    (fuel : nat) :
  Inv s a la -> root_path h r b lb -> length la = length lb ->
  (length la <= fuel)%nat ->
  exists s' lc sa sb,
    undo_variation fuel (Some a) (Some b) s = Ret s'
    /\ Inv s' b lb
    /\ la = lc ++ sa /\ lb = lc ++ sb /\ length sa = length sb
    /\ lc <> []
    /\ (forall x y, hd_error sa = Some x -> hd_error sb = Some y -> x <> y)
    /\ prims s' = prims s ++ repeat (PrimUndo true) (length sa)
                          ++ map PrimApply sb
    /\ comment_str s' = comment_str s
    /\ comment_update s' = comment_update s.
Proof.
  intros HI Hb Hlen Hfuel.
  assert (Ha : root_path h r a la) by (destruct HI; tauto).
  destruct (undo_variation_ascend_ok a la Ha b lb s [] fuel Hb Hlen HI Hfuel)
    as (s1 & c & lc & sa & sb & E & HI1 & Ela & Elb & Hl & Hhd & Hpr & Hcs & Hcu).
  rewrite app_nil_r in E.
  rewrite Elb in Hb.
  destruct (undo_variation_replay_ok sb s1 c lc b HI1 Hb)
    as (s' & E' & HI' & Hpr' & Hcs' & Hcu').
  exists s', lc, sa, sb.
  split. { unfold undo_variation. simpl. rewrite E. simpl. exact E'. }
  split. { rewrite Elb. exact HI'. }
  split; [assumption|]. split; [assumption|]. split; [assumption|].
  split. { destruct HI1 as (_ & _ & _ & _ & _ & Hrp & _).
           destruct (root_path_last h r c lc Hrp) as (l0 & ->).
           destruct l0; discriminate. }
  split; [assumption|].
  split. { rewrite Hpr', Hpr. rewrite <- app_assoc. reflexivity. }
  split; congruence.
Qed.

(** *** The public operations *)

Lemma inv_updateCommentStr_inv (s s' : State) (n : nat) (l : list nat) :
  Inv s n l -> updateCommentStr s = Ret s' ->
  Inv s' n l /\ curNode s' = curNode s /\ board s' = board s
  /\ prims s' = prims s.
Proof.
  intros HI H. apply updateCommentStr_ret_inv in H.
  destruct H as (c & u & ->). split.
  - apply inv_set_comment. assumption.
  - simpl. auto.
Qed.

Lemma var_head_same_ply (nd0 : SGFNode) (fuel : nat) :
  forall s p q,
    nodes s = h -> var_head fuel s p = Ret q ->
    same_ply h nd0 p -> same_ply h nd0 q.
Proof.
  induction fuel as [|fuel IH]; intros s p q Hh H Hp; [discriminate|].
  simpl in H. ret_inv H.
  apply deref_ret_inv in E. destruct E as (n & -> & Hn).
  rewrite Hh in Hn.
  destruct (prevVar x) as [m|] eqn:Hpv.
  - apply (IH s (Some m) q Hh H).
    destruct (wf_prevVar h r Hwf n x m Hn Hpv) as (ndm & Hm & E).
    simpl in Hp. destruct Hp as (nd' & Hn' & E').
    assert (nd' = x) by congruence. subst nd'.
    simpl. exists ndm. split; [assumption | congruence].
  - injection H as <-. assumption.
Qed.

Lemma scan_down_same_ply (nd0 : SGFNode) (fuel : nat) :
  forall s p cur_lvl lvl best q,
    nodes s = h -> scan_down fuel s p cur_lvl lvl best = Ret q ->
    same_ply h nd0 p -> same_ply h nd0 best -> same_ply h nd0 q.
Proof.
  induction fuel as [|fuel IH]; intros s p cl lvl best q Hh H Hp Hbest;
    [discriminate|].
  simpl in H. destruct p as [n|].
  - ret_inv H. apply deref_ret_inv in E. destruct E as (n' & En & Hn).
    injection En as <-. rewrite Hh in Hn.
    assert (Hnx : same_ply h nd0 (nextVar x)).
    { destruct (nextVar x) as [m|] eqn:Hnv; [|exact I].
      destruct (wf_nextVar h r Hwf n x m Hn Hnv) as (ndm & Hm & E).
      simpl in Hp. destruct Hp as (nd' & Hn' & E').
      assert (nd' = x) by congruence. subst nd'.
      simpl. exists ndm. split; [assumption | congruence]. }
    destruct ((draw_lvl x >? cl) && (draw_lvl x <? lvl));
      eapply IH; eauto.
  - injection H as <-. assumption.
Qed.

Lemma scan_up_same_ply (nd0 : SGFNode) (fuel : nat) :
  forall s p cur_lvl lvl best q,
    nodes s = h -> scan_up fuel s p cur_lvl lvl best = Ret q ->
    same_ply h nd0 p -> same_ply h nd0 best -> same_ply h nd0 q.
Proof.
  induction fuel as [|fuel IH]; intros s p cl lvl best q Hh H Hp Hbest;
    [discriminate|].
  simpl in H. destruct p as [n|].
  - ret_inv H. apply deref_ret_inv in E. destruct E as (n' & En & Hn).
    injection En as <-. rewrite Hh in Hn.
    assert (Hnx : same_ply h nd0 (nextVar x)).
    { destruct (nextVar x) as [m|] eqn:Hnv; [|exact I].
      destruct (wf_nextVar h r Hwf n x m Hn Hnv) as (ndm & Hm & E).
      simpl in Hp. destruct Hp as (nd' & Hn' & E').
      assert (nd' = x) by congruence. subst nd'.
      simpl. exists ndm. split; [assumption | congruence]. }
    destruct ((draw_lvl x <? cl) && (draw_lvl x >? lvl));
      eapply IH; eauto.
  - injection H as <-. assumption.
Qed.

(** Switching to a node of the same ply keeps the invariant. *)
Lemma undo_variation_inv (s s' : State) (n m : nat) (l : list nat)
    (nd : SGFNode) (fuel : nat) :
  Inv s n l -> nth_error h n = Some nd -> same_ply h nd (Some m) ->
  undo_variation fuel (Some n) (Some m) s = Ret s' ->
  exists l', Inv s' m l'.
Proof.
  intros HI Hn (ndm & Hm & Eply) H.
  assert (Hrp : root_path h r n l) by (destruct HI; tauto).
  destruct (root_path_exists h r Hwf m ndm Hm) as (lb & Hlb).
  pose proof (root_path_length h r Hwf n l Hrp nd Hn) as L1.
  pose proof (root_path_length h r Hwf m lb Hlb ndm Hm) as L2.
  assert (Hlen : length l = length lb).
  { apply Nat2Z.inj. rewrite L1, L2, Eply. reflexivity. }
  destruct (undo_variation_ok s n m l lb (Nat.max fuel (length l))
              HI Hlb Hlen (Nat.le_max_r _ _))
    as (s1 & lc & sa & sb & E & HI1 & _).
  rewrite (undo_variation_mono fuel _ _ _ s s' H (Nat.le_max_l _ _)) in E.
  injection E as <-. exists lb. assumption.
Qed.

Lemma gogame_moveVar_down_inv (fuel : nat) (s s' : State) (n : nat)
    (l : list nat) :
  Inv s n l -> gogame_moveVar_down fuel s = Ret s' ->
  exists n' l', Inv s' n' l'.
Proof.
  intros HI H. assert (HI0 := HI).
  destruct HI0 as (Hh & Hsz & Ht & Hf & Hc & Hrp & Hbd).
  destruct (root_path_node h r n l Hrp) as (nd & Hn).
  unfold gogame_moveVar_down in H. rewrite Ht, Hf in H.
  ret_inv H. ret_inv H. ret_inv H.
  rewrite Hc in *.
  assert (Hself : same_ply h nd (Some n)) by (simpl; eauto).
  pose proof (var_head_same_ply nd fuel s (Some n) x Hh E Hself) as Hx.
  pose proof (scan_down_same_ply nd fuel s x _ _ None x1 Hh E1 Hx I) as Hq.
  destruct x1 as [m|].
  - ret_inv H.
    destruct (undo_variation_inv s x1 n m l nd fuel HI Hn Hq E2) as (l' & HI').
    exists m, l'. apply (inv_updateCommentStr_inv x1 s' m l' HI' H).
  - injection H as <-. eauto.
Qed.

Lemma gogame_moveVar_up_inv (fuel : nat) (s s' : State) (n : nat)
    (l : list nat) :
  Inv s n l -> gogame_moveVar_up fuel s = Ret s' ->
  exists n' l', Inv s' n' l'.
Proof.
  intros HI H. assert (HI0 := HI).
  destruct HI0 as (Hh & Hsz & Ht & Hf & Hc & Hrp & Hbd).
  destruct (root_path_node h r n l Hrp) as (nd & Hn).
  unfold gogame_moveVar_up in H. rewrite Ht, Hf in H.
  ret_inv H. ret_inv H. ret_inv H.
  rewrite Hc in *.
  assert (Hself : same_ply h nd (Some n)) by (simpl; eauto).
  pose proof (var_head_same_ply nd fuel s (Some n) x Hh E Hself) as Hx.
  pose proof (scan_up_same_ply nd fuel s x _ _ None x1 Hh E1 Hx I) as Hq.
  destruct x1 as [m|].
  - ret_inv H.
    destruct (undo_variation_inv s x1 n m l nd fuel HI Hn Hq E2) as (l' & HI').
    exists m, l'. apply (inv_updateCommentStr_inv x1 s' m l' HI' H).
  - injection H as <-. eauto.
Qed.

Lemma inv_facts (s : State) (n : nat) (l : list nat) :
  Inv s n l ->
  nodes s = h /\ gameTree s <> None
  /\ c_true (bShowFullScreenComment s) = false /\ curNode s = Some n
  /\ exists nd, nth_error h n = Some nd.
Proof.
  intros (Hh & Hsz & Ht & Hf & Hc & Hrp & Hbd).
  repeat (split; [congruence|]). eapply root_path_node; eauto.
Qed.

Lemma gogame_move_forward_inv (s s' : State) (n : nat) (l : list nat) :
  Inv s n l -> gogame_move_forward s = Ret s' ->
  exists n' l', Inv s' n' l'.
Proof.
  intros HI H.
  destruct (inv_facts s n l HI) as (Hh & Ht & Hf & Hc & nd & Hn).
  unfold gogame_move_forward in H.
  destruct (child nd) as [c|] eqn:Hch.
  - destruct (inv_forward s n c l nd HI Hn Hch)
      as (ndc & Hndc & _ & _ & HI').
    rewrite (gogame_move_forward_update_eq 1 s n c nd ndc) in H;
      try rewrite Hh; auto.
    change (c_true 1) with true in H. cbv iota in H.
    exists c, (l ++ [c]).
    apply (inv_updateCommentStr_inv _ s' c _ HI' H).
  - rewrite (gogame_move_forward_update_leaf 1 s n nd) in H;
      try rewrite Hh; auto.
    injection H as <-. eauto.
Qed.

Lemma gogame_move_back_inv (s s' : State) (n : nat) (l : list nat) :
  Inv s n l -> gogame_move_back s = Ret s' ->
  exists n' l', Inv s' n' l'.
Proof.
  intros HI H.
  destruct (inv_facts s n l HI) as (Hh & Ht & Hf & Hc & nd & Hn).
  destruct (inv_board s n l nd HI Hn) as (l0 & El & Hbd).
  unfold gogame_move_back in H.
  rewrite (gogame_move_back_update_eq 1 s n nd (node_cmds sz nd)
             (replay h sz l0) Ht Hf Hc) in H;
    [| rewrite Hh; exact Hn | exact Hbd].
  change (c_true 1) with true in H. cbv iota in H.
  destruct (parent nd) as [p|] eqn:Hpar.
  - destruct (inv_back s n p l nd HI Hn Hpar)
      as (l' & ndp & El' & _ & _ & _ & HI').
    assert (l' = l0).
    { rewrite El in El'. apply app_inj_tail in El'. symmetry. tauto. }
    subst l'. exists p, l0.
    apply (inv_updateCommentStr_inv _ s' p _ HI' H).
  - exfalso. revert H. apply updateCommentStr_null. reflexivity.
Qed.

Lemma gogame_move_to_nextEvt_inv (fuel : nat) (s s' : State) (n : nat)
    (l : list nat) (nd : SGFNode) :
  Inv s n l -> nth_error h n = Some nd ->
  gogame_move_to_nextEvt fuel s = Ret s' ->
  exists n' l',
    Inv s' n' l'
    /\ fwd_run h (match child nd with Some c => c | None => n end) n'.
Proof.
  intros HI Hn H.
  destruct (inv_facts s n l HI) as (Hh & Ht & Hf & Hc & _).
  unfold gogame_move_to_nextEvt in H.
  destruct (gameTree s); [|congruence]. rewrite Hf in H.
  destruct (child nd) as [c|] eqn:Hch.
  - destruct (inv_forward s n c l nd HI Hn Hch)
      as (ndc & Hndc & _ & E & HI').
    rewrite E in H. simpl in H. ret_inv H.
    destruct (nextEvt_loop_inv fuel _ c _ x HI' E0)
      as (n' & l' & HI'' & Hrun & _).
    exists n', l'. split; [|assumption].
    apply (inv_updateCommentStr_inv _ s' n' _ HI'' H).
  - rewrite (gogame_move_forward_update_leaf 0 s n nd) in H;
      try rewrite Hh; auto.
    simpl in H. ret_inv H.
    destruct (nextEvt_loop_inv fuel _ n _ x HI E)
      as (n' & l' & HI'' & Hrun & _).
    exists n', l'. split; [|assumption].
    apply (inv_updateCommentStr_inv _ s' n' _ HI'' H).
Qed.

Lemma prevEvt_loop_null (fuel : nat) (s s' : State) :
  curNode s = None -> prevEvt_loop fuel s <> Ret s'.
Proof.
  intros Hc. destruct fuel; simpl; [discriminate|].
  unfold prevEvt_cond. rewrite Hc. unfold deref. simpl. discriminate.
Qed.

Lemma gogame_move_to_prevEvt_inv (fuel : nat) (s s' : State) (n : nat)
    (l : list nat) (nd : SGFNode) :
  Inv s n l -> nth_error h n = Some nd ->
  gogame_move_to_prevEvt fuel s = Ret s' ->
  exists p n' l',
    parent nd = Some p /\ Inv s' n' l' /\ bwd_run h p n'.
Proof.
  intros HI Hn H.
  destruct (inv_facts s n l HI) as (Hh & Ht & Hf & Hc & _).
  unfold gogame_move_to_prevEvt in H.
  destruct (gameTree s); [|congruence]. rewrite Hf in H.
  destruct (parent nd) as [p|] eqn:Hpar.
  - destruct (inv_back s n p l nd HI Hn Hpar)
      as (l' & ndp & El & _ & _ & E & HI').
    rewrite E in H. simpl in H. ret_inv H.
    destruct (prevEvt_loop_inv fuel _ p _ x HI' E0)
      as (n' & l'' & HI'' & Hrun).
    exists p, n', l''. split; [reflexivity|]. split; [|assumption].
    apply (inv_updateCommentStr_inv _ s' n' _ HI'' H).
  - rewrite (inv_back_root s n l nd HI Hn Hpar) in H.
    simpl in H. ret_inv H. exfalso. revert E.
    apply prevEvt_loop_null. reflexivity.
Qed.

Lemma gogame_move_to_page_inv (fuel : nat) (page : Z) (s s' : State)
    (res : Z) (n : nat) (l : list nat) :
  Inv s n l -> gogame_move_to_page fuel page s = Ret (s', res) ->
  exists n' l' nd',
    Inv s' n' l' /\ nth_error h n' = Some nd'
    /\ (page = move_num nd'
        \/ (page < move_num nd' /\ parent nd' = None)
        \/ (move_num nd' < page /\ child nd' = None)).
Proof.
  intros HI H.
  destruct (inv_facts s n l HI) as (Hh & Ht & Hf & Hc & nd & Hn).
  unfold gogame_move_to_page in H.
  destruct (gameTree s); [|congruence]. rewrite Hf, Hc in H.
  rewrite (deref_some s n nd) in H by (rewrite Hh; assumption).
  simpl in H.
  destruct (page =? move_num nd) eqn:Eeq.
  - apply Z.eqb_eq in Eeq. injection H as <- <-.
    exists n, l, nd. auto.
  - apply Z.eqb_neq in Eeq. ret_inv H. ret_inv H. injection H as <- <-.
    destruct (page <? move_num nd) eqn:Elt.
    + apply Z.ltb_lt in Elt.
      destruct (page_back_loop_inv fuel page s n l nd x HI Hn
                  ltac:(lia) E)
        as (n' & l' & nd' & HI' & Hn' & Hle & Hex & _).
      exists n', l', nd'. split.
      { apply (inv_updateCommentStr_inv _ x0 n' _ HI' E0). }
      split; [assumption|].
      destruct Hex as [Hex|Hex]; [|left; assumption].
      destruct (Z.eq_dec page (move_num nd')); [left; assumption|].
      right. left. split; [lia | assumption].
    + apply Z.ltb_ge in Elt.
      assert (Egt : (page >? move_num nd) = true).
      { apply Z.gtb_lt. lia. }
      rewrite Egt in E.
      destruct (page_forward_loop_inv fuel page s n l nd x HI Hn
                  ltac:(lia) E)
        as (n' & l' & nd' & HI' & Hn' & Hle & Hex & _).
      exists n', l', nd'. split.
      { apply (inv_updateCommentStr_inv _ x0 n' _ HI' E0). }
      split; [assumption|].
      destruct Hex as [Hex|Hex]; [|left; assumption].
      destruct (Z.eq_dec page (move_num nd')); [left; assumption|].
      right. right. split; [lia | assumption].
Qed.

(** A page jump from a position a page jump could have stopped on issues
    no primitive call. *)
Lemma gogame_move_to_page_again (fuel : nat) (page : Z) (s : State)
    (n : nat) (l : list nat) (nd : SGFNode) :
  Inv s n l -> nth_error h n = Some nd ->
  (page = move_num nd
   \/ (page < move_num nd /\ parent nd = None)
   \/ (move_num nd < page /\ child nd = None)) ->
  (0 < fuel)%nat ->
  exists s2 r2,
    gogame_move_to_page fuel page s = Ret (s2, r2)
    /\ curNode s2 = curNode s /\ board s2 = board s /\ prims s2 = prims s.
Proof.
  intros HI Hn Hcase Hfuel.
  destruct (inv_facts s n l HI) as (Hh & Ht & Hf & Hc & _).
  destruct (inv_updateCommentStr s n l HI) as (c & u & Eu).
  unfold gogame_move_to_page.
  destruct (gameTree s); [|congruence]. rewrite Hf, Hc.
  rewrite (deref_some s n nd) by (rewrite Hh; assumption).
  simpl.
  destruct fuel as [|fuel]; [lia|].
  destruct Hcase as [E | [[Hlt Hp] | [Hgt Hch]]].
  - rewrite E, Z.eqb_refl. exists s, 0. auto.
  - assert (E1 : (page =? move_num nd) = false) by (apply Z.eqb_neq; lia).
    assert (E2 : (page <? move_num nd) = true) by (apply Z.ltb_lt; lia).
    rewrite E1, E2. simpl. rewrite Hc.
    rewrite (deref_some s n nd) by (rewrite Hh; assumption).
    simpl. rewrite Hp. simpl. rewrite Eu. simpl.
    eexists. eexists. split; [reflexivity|]. simpl. auto.
  - assert (E1 : (page =? move_num nd) = false) by (apply Z.eqb_neq; lia).
    assert (E2 : (page <? move_num nd) = false) by (apply Z.ltb_ge; lia).
    assert (E3 : (page >? move_num nd) = true) by (apply Z.gtb_lt; lia).
    rewrite E1, E2, E3. simpl. rewrite Hc.
    rewrite (deref_some s n nd) by (rewrite Hh; assumption).
    simpl. rewrite Hch. simpl. rewrite Eu. simpl.
    eexists. eexists. split; [reflexivity|]. simpl. auto.
Qed.

(** *** Termination of the event skips and of the page jump *)

Lemma nextEvt_loop_total (fuel : nat) :
  forall s n l,
    Inv s n l -> (length h < fuel + length l)%nat ->
    exists s', nextEvt_loop fuel s = Ret s'.
Proof.
  induction fuel as [|fuel IH]; intros s n l HI Hfuel.
  - assert (Hrp : root_path h r n l) by (destruct HI; tauto).
    pose proof (root_path_bound h r Hwf n l Hrp). simpl in Hfuel. lia.
  - simpl.
    destruct (inv_facts s n l HI) as (_ & _ & _ & _ & nd & Hn).
    rewrite (nextEvt_cond_eq s n l nd HI Hn). simpl.
    destruct (fwd_continue nd) eqn:Ec; [|eauto].
    assert (exists c, child nd = Some c) as (c & Hch).
    { unfold fwd_continue in Ec. destruct (child nd); [eauto|discriminate]. }
    destruct (inv_forward s n c l nd HI Hn Hch)
      as (ndc & Hndc & _ & E & HI').
    rewrite E. simpl. apply (IH _ c (l ++ [c]) HI').
    rewrite length_app. simpl. lia.
Qed.

Lemma prevEvt_cond_total (s : State) (n : nat) (l : list nat) :
  Inv s n l -> exists b, prevEvt_cond s = Ret b.
Proof.
  intros HI.
  destruct (inv_facts s n l HI) as (Hh & _ & _ & Hc & nd & Hn).
  unfold prevEvt_cond. rewrite Hc.
  rewrite (deref_some s n nd) by (rewrite Hh; assumption). simpl.
  destruct (parent nd) as [p|] eqn:Hpar; [|eauto].
  destruct (is_some (next nd)); [eauto|].
  destruct (wf_parent h r Hwf n nd p Hn Hpar) as (ndp & Hndp & _ & _ & Hch).
  rewrite (deref_some s p ndp) by (rewrite Hh; assumption). simpl.
  destruct (child ndp) as [c|] eqn:Hc'; [|congruence].
  destruct (wf_child h r Hwf p ndp c Hndp Hc') as (ndc & Hndc & _).
  rewrite (deref_some s c ndc) by (rewrite Hh; assumption). simpl.
  destruct (is_some (next ndc)); eauto.
Qed.

Lemma prevEvt_loop_total (fuel : nat) :
  forall s n l,
    Inv s n l -> (length l <= fuel)%nat ->
    exists s', prevEvt_loop fuel s = Ret s'.
Proof.
  induction fuel as [|fuel IH]; intros s n l HI Hfuel.
  - assert (Hrp : root_path h r n l) by (destruct HI; tauto).
    destruct (root_path_last h r n l Hrp) as (l' & ->).
    rewrite length_app in Hfuel. simpl in Hfuel. lia.
  - simpl.
    destruct (prevEvt_cond_total s n l HI) as (b & Eb).
    rewrite Eb. simpl. destruct b; [|eauto].
    destruct (inv_facts s n l HI) as (Hh & _ & _ & Hc & nd & Hn).
    destruct (parent nd) as [p|] eqn:Hpar.
    + destruct (inv_back s n p l nd HI Hn Hpar)
        as (l' & ndp & El & _ & _ & E & HI').
      rewrite E. simpl. apply (IH _ p l' HI').
      subst l. rewrite length_app in Hfuel. simpl in Hfuel. lia.
    + exfalso. unfold prevEvt_cond in Eb. rewrite Hc in Eb.
      rewrite (deref_some s n nd) in Eb by (rewrite Hh; assumption).
      simpl in Eb. rewrite Hpar in Eb. discriminate.
Qed.

Lemma gogame_move_to_nextEvt_total (fuel : nat) (s : State) (n : nat)
    (l : list nat) :
  Inv s n l -> (length h <= fuel)%nat ->
  exists s', gogame_move_to_nextEvt fuel s = Ret s'.
Proof.
  intros HI Hfuel.
  destruct (inv_facts s n l HI) as (Hh & Ht & Hf & Hc & nd & Hn).
  assert (Hrp : root_path h r n l) by (destruct HI; tauto).
  destruct (root_path_last h r n l Hrp) as (l0 & El).
  assert (Hlen : (1 <= length l)%nat).
  { subst l. rewrite length_app. simpl. lia. }
  unfold gogame_move_to_nextEvt.
  destruct (gameTree s); [|congruence]. rewrite Hf.
  destruct (child nd) as [c|] eqn:Hch.
  - destruct (inv_forward s n c l nd HI Hn Hch)
      as (ndc & Hndc & _ & E & HI').
    rewrite E. simpl.
    destruct (nextEvt_loop_total fuel _ c (l ++ [c]) HI') as (s1 & E1).
    { rewrite length_app. simpl. lia. }
    rewrite E1. simpl.
    destruct (nextEvt_loop_inv fuel _ c _ s1 HI' E1)
      as (n' & l' & HI'' & _).
    destruct (inv_updateCommentStr s1 n' l' HI'') as (cm & u & Eu).
    rewrite Eu. eauto.
  - rewrite (gogame_move_forward_update_leaf 0 s n nd);
      try rewrite Hh; auto.
    simpl.
    destruct (nextEvt_loop_total fuel s n l HI) as (s1 & E1); [lia|].
    rewrite E1. simpl.
    destruct (nextEvt_loop_inv fuel _ n _ s1 HI E1)
      as (n' & l' & HI'' & _).
    destruct (inv_updateCommentStr s1 n' l' HI'') as (cm & u & Eu).
    rewrite Eu. eauto.
Qed.

Lemma gogame_move_to_prevEvt_total (fuel : nat) (s : State) (n p : nat)
    (l : list nat) (nd : SGFNode) :
  Inv s n l -> nth_error h n = Some nd -> parent nd = Some p ->
  (length h <= fuel)%nat ->
  exists s', gogame_move_to_prevEvt fuel s = Ret s'.
Proof.
  intros HI Hn Hpar Hfuel.
  destruct (inv_facts s n l HI) as (Hh & Ht & Hf & Hc & _).
  unfold gogame_move_to_prevEvt.
  destruct (gameTree s); [|congruence]. rewrite Hf.
  destruct (inv_back s n p l nd HI Hn Hpar)
    as (l' & ndp & El & _ & _ & E & HI').
  rewrite E. simpl.
  assert (Hrp : root_path h r p l') by (destruct HI'; tauto).
  pose proof (root_path_bound h r Hwf p l' Hrp) as Hb.
  destruct (prevEvt_loop_total fuel _ p l' HI') as (s1 & E1); [lia|].
  rewrite E1. simpl.
  destruct (prevEvt_loop_inv fuel _ p _ s1 HI' E1)
    as (n' & l'' & HI'' & _).
  destruct (inv_updateCommentStr s1 n' l'' HI'') as (cm & u & Eu).
  rewrite Eu. eauto.
Qed.

Lemma page_back_loop_total (fuel : nat) (page : Z) :
  forall s n l,
    Inv s n l -> (length l <= fuel)%nat ->
    exists s', page_back_loop fuel page s = Ret s'.
Proof.
  induction fuel as [|fuel IH]; intros s n l HI Hfuel.
  - assert (Hrp : root_path h r n l) by (destruct HI; tauto).
    destruct (root_path_last h r n l Hrp) as (l' & ->).
    rewrite length_app in Hfuel. simpl in Hfuel. lia.
  - simpl.
    destruct (inv_facts s n l HI) as (Hh & _ & _ & Hc & nd & Hn).
    rewrite Hc. rewrite (deref_some s n nd) by (rewrite Hh; assumption).
    simpl.
    destruct (parent nd) as [p|] eqn:Hpar; simpl; [|eauto].
    destruct (page <? move_num nd); [|eauto].
    destruct (inv_back s n p l nd HI Hn Hpar)
      as (l' & ndp & El & _ & _ & E & HI').
    rewrite E. simpl. apply (IH _ p l' HI').
    subst l. rewrite length_app in Hfuel. simpl in Hfuel. lia.
Qed.

Lemma page_forward_loop_total (fuel : nat) (page : Z) :
  forall s n l,
    Inv s n l -> (length h < fuel + length l)%nat ->
    exists s', page_forward_loop fuel page s = Ret s'.
Proof.
  induction fuel as [|fuel IH]; intros s n l HI Hfuel.
  - assert (Hrp : root_path h r n l) by (destruct HI; tauto).
    pose proof (root_path_bound h r Hwf n l Hrp). simpl in Hfuel. lia.
  - simpl.
    destruct (inv_facts s n l HI) as (Hh & _ & _ & Hc & nd & Hn).
    rewrite Hc. rewrite (deref_some s n nd) by (rewrite Hh; assumption).
    simpl.
    destruct (child nd) as [c|] eqn:Hch; simpl; [|eauto].
    destruct (page >? move_num nd); [|eauto].
    destruct (inv_forward s n c l nd HI Hn Hch)
      as (ndc & Hndc & _ & E & HI').
    rewrite E. simpl. apply (IH _ c (l ++ [c]) HI').
    rewrite length_app. simpl. lia.
Qed.

Lemma gogame_move_to_page_total (fuel : nat) (page : Z) (s : State) (n : nat)
    (l : list nat) :
  Inv s n l -> (length h <= fuel)%nat ->
  exists s' res, gogame_move_to_page fuel page s = Ret (s', res).
Proof.
  intros HI Hfuel.
  destruct (inv_facts s n l HI) as (Hh & Ht & Hf & Hc & nd & Hn).
  assert (Hrp : root_path h r n l) by (destruct HI; tauto).
  pose proof (root_path_bound h r Hwf n l Hrp) as Hb.
  destruct (root_path_last h r n l Hrp) as (l0 & El).
  assert (Hlen : (1 <= length l)%nat).
  { subst l. rewrite length_app. simpl. lia. }
  unfold gogame_move_to_page.
  destruct (gameTree s); [|congruence]. rewrite Hf, Hc.
  rewrite (deref_some s n nd) by (rewrite Hh; assumption). simpl.
  destruct (page =? move_num nd); [eauto|].
  destruct (page <? move_num nd) eqn:Elt.
  - destruct (page_back_loop_total fuel page s n l HI) as (s1 & E1); [lia|].
    rewrite E1. simpl.
    apply Z.ltb_lt in Elt.
    destruct (page_back_loop_inv fuel page s n l nd s1 HI Hn
                ltac:(lia) E1) as (n' & l' & nd' & HI' & _).
    destruct (inv_updateCommentStr s1 n' l' HI') as (cm & u & Eu).
    rewrite Eu. simpl. eauto.
  - apply Z.ltb_ge in Elt.
    destruct (page >? move_num nd) eqn:Egt.
    + destruct (page_forward_loop_total fuel page s n l HI) as (s1 & E1); [lia|].
      rewrite E1. simpl.
      apply Z.gtb_lt in Egt.
      destruct (page_forward_loop_inv fuel page s n l nd s1 HI Hn
                  ltac:(lia) E1) as (n' & l' & nd' & HI' & _).
      destruct (inv_updateCommentStr s1 n' l' HI') as (cm & u & Eu).
      rewrite Eu. simpl. eauto.
    + simpl.
      destruct (inv_updateCommentStr s n l HI) as (cm & u & Eu).
      rewrite Eu. simpl. eauto.
Qed.

End Navigation.

(** ** The projection in step, on the sample record *)

Lemma consistent_inv (s : State) :
  loaded s -> consistent s -> c_true (bShowFullScreenComment s) = false ->
  exists r n l,
    wf_tree (nodes s) r
    /\ inv (nodes s) (boardSize s) {| root := Some r |} r s n l.
Proof.
  intros (r & Ht & Hwf) (r' & n & l & Ht' & Hc & Hrp & Hb) Hf.
  assert (r' = r) by congruence. subst r'.
  exists r, n, l. split; [assumption|]. unfold inv. auto 10.
Qed.

(** Build a root path of a concrete record, node by node. *)
Ltac build_root_path :=
  repeat first
    [ eapply root_path_root; reflexivity
    | match goal with
      | |- root_path _ _ ?n ?l => change l with (removelast l ++ [n])
      end;
      eapply root_path_step; [ | reflexivity | reflexivity ];
      cbn [removelast app] ].

Lemma sample_path_C : root_path sample_nodes 0 4 [0; 1; 2; 4]%nat.
Proof. build_root_path. Qed.

Lemma sample_at_loaded (path : list nat) (n : nat) : loaded (sample_at path n).
Proof. exists 0%nat. split; [reflexivity | exact sample_wf]. Qed.

Lemma sample_at_C_consistent : consistent (sample_at [0; 1; 2; 4]%nat 4).
Proof.
  exists 0%nat, 4%nat, [0; 1; 2; 4]%nat. split; [reflexivity|].
  split; [reflexivity|]. split; [exact sample_path_C | reflexivity].
Qed.

Lemma sample_start_loaded : loaded sample_start.
Proof. exists 0%nat. split; [reflexivity | exact sample_wf]. Qed.

Lemma sample_start_consistent : consistent sample_start.
Proof.
  exists 0%nat, 0%nat, [0%nat]. split; [reflexivity|].
  split; [reflexivity|]. split; [build_root_path | reflexivity].
Qed.

(** ** The variation switch (C2) *)

Lemma var_chain_target (h : list SGFNode) (a b : nat) :
  var_chain h a b ->
  (exists nda, nth_error h a = Some nda) /\ (exists ndb, nth_error h b = Some ndb).
Proof.
  induction 1 as [n nd Hn | n nd m k Hn Hnx Hch IH | n nd m k Hn Hpv Hch IH].
  - eauto.
  - destruct IH as [_ Hb]. eauto.
  - destruct IH as [_ Hb]. eauto.
Qed.



(** ** Stepping back from a node without parent (C5) *)

Lemma updateCommentStr_null_abort (s : State) :
  gameTree s <> None -> curNode s = None ->
  updateCommentStr s = AssertFail.
Proof.
  intros Ht Hc. unfold updateCommentStr. rewrite Hc.
  destruct (gameTree s); [reflexivity | congruence].
Qed.

(** C5: the step back with the comment refresh ([bUpdate] set; the public
    [gogame_move_back] passes 1), called with a record loaded and the
    full-screen comment off, in a state where [board_undo()] reports
    success.  If the current node has no parent, the call aborts: the
    cursor becomes NULL and the refresh asserts that it is not.  Whenever
    the call returns, the node had a parent and the cursor is on it, a node
    of the store.  It does return when the parent link points into the
    store. *)
Theorem step_back_cursor (bUpdate : Z) (s : State) :
  gameTree s <> None ->
  c_true (bShowFullScreenComment s) = false ->
  c_true bUpdate = true ->
  fst (board_undo s) = true ->
  (forall n nd,
      curNode s = Some n -> nth_error (nodes s) n = Some nd ->
      parent nd = None ->
      gogame_move_back_update bUpdate s = AssertFail)
  /\ (forall s',
      gogame_move_back_update bUpdate s = Ret s' ->
      exists n nd p ndp,
        curNode s = Some n /\ nth_error (nodes s) n = Some nd
        /\ parent nd = Some p
        /\ curNode s' = Some p /\ nth_error (nodes s') p = Some ndp
        /\ nodes s' = nodes s)
  /\ (forall n nd p ndp,
      curNode s = Some n -> nth_error (nodes s) n = Some nd ->
      parent nd = Some p -> nth_error (nodes s) p = Some ndp ->
      exists s', gogame_move_back_update bUpdate s = Ret s'
                 /\ curNode s' = Some p).
Proof.
  intros Ht Hf Hu Hok.
  unfold gogame_move_back_update.
  destruct (gameTree s) as [t|] eqn:Et; [|congruence].
  rewrite Hf, Hu.
  destruct (board_undo s) as [ok s1] eqn:Eu. simpl in Hok. subst ok.
  assert (Hs1 : s1 = set_board (snd (board_pop (board s))) (PrimUndo true) s).
  { unfold board_undo in Eu. destruct (board_pop (board s)) as [ok b].
    injection Eu as -> <-. reflexivity. }
  assert (Ht1 : gameTree s1 <> None) by (subst s1; simpl; congruence).
  assert (Hc1 : curNode s1 = curNode s) by (subst s1; reflexivity).
  assert (Hn1 : nodes s1 = nodes s) by (subst s1; reflexivity).
  split; [|split].
  - intros n nd Hc Hn Hp.
    rewrite Hc1, Hc.
    rewrite (deref_some s1 n nd) by (rewrite Hn1; exact Hn).
    simpl. rewrite Hp.
    apply updateCommentStr_null_abort; [exact Ht1 | reflexivity].
  - intros s' H. ret_inv H. ret_inv E.
    apply deref_ret_inv in E0. destruct E0 as (n & Hc & Hn).
    injection E as <-.
    destruct (updateCommentStr_ret_inv _ _ H) as (c & u & ->).
    unfold updateCommentStr in H. ret_inv H. ret_inv H. ret_inv H. clear H.
    match goal with
    | Hd : deref _ _ = Ret ?y |- _ =>
        apply deref_ret_inv in Hd; destruct Hd as (p & Hp & Hnp);
        exists n, x0, p, y
    end.
    simpl in Hp, Hnp. simpl. rewrite <- Hn1, <- Hc1. auto 10.
  - intros n nd p ndp Hc Hn Hp Hnp.
    rewrite Hc1, Hc.
    rewrite (deref_some s1 n nd) by (rewrite Hn1; exact Hn).
    simpl. rewrite Hp.
    destruct (updateCommentStr_ret (set_curNode (Some p) s1) p ndp)
      as (c & u & E); [exact Ht1 | reflexivity | simpl; rewrite Hn1; exact Hnp |].
    rewrite E. eexists. split; reflexivity.
Qed.

(** On the sample record: from node 1 the step back returns with the cursor
    on the root; with the projection out of step (the cursor on the root
    while the board still holds the stone of node 1 to undo) it aborts. *)
Lemma step_back_cursor_witness :
  (exists s', gogame_move_back (sample_on [0; 1]%nat 1) = Ret s'
              /\ curNode s' = Some 0%nat)
  /\ gogame_move_back (set_curNode (Some 0%nat) (sample_on [0; 1]%nat 1))
     = AssertFail.
Proof.
  split.
  - pose proof (step_back_cursor 1 (sample_on [0; 1]%nat 1)
                  ltac:(discriminate) eq_refl eq_refl eq_refl)
      as (_ & _ & H).
    exact (H 1%nat (nth 1 sample_nodes sgfNewNode)
             0%nat (nth 0 sample_nodes sgfNewNode)
             eq_refl eq_refl eq_refl eq_refl).
  - pose proof (step_back_cursor 1
                  (set_curNode (Some 0%nat) (sample_on [0; 1]%nat 1))
                  ltac:(discriminate) eq_refl eq_refl eq_refl)
      as (H & _).
    exact (H 0%nat (nth 0 sample_nodes sgfNewNode) eq_refl eq_refl eq_refl).
Defined.

(** ** Event skip (C7) *)

Lemma fwd_run_stops (h : list SGFNode) (a m : nat) :
  fwd_run h a m ->
  exists ndm, nth_error h m = Some ndm /\ fwd_stop ndm.
Proof.
  induction 1 as [n nd Hn Hc | n nd c m Hn Hc Hch Hrun IH]; [|exact IH].
  exists nd. split; [assumption|]. unfold fwd_continue in Hc. unfold fwd_stop.
  destruct (child nd); [|auto].
  destruct (next nd); [right; left; discriminate|].
  destruct (annotation nd); [right; right; discriminate | discriminate].
Qed.

Lemma bwd_run_stops (h : list SGFNode) (a m : nat) :
  bwd_run h a m ->
  exists ndm, nth_error h m = Some ndm /\ bwd_stop h ndm.
Proof.
  induction 1 as [n nd Hn Hp | n nd p ndp c ndc Hn Hp Hnp Hch Hnc Hc
                  | n nd p Hn Hp Hnx
                  | n nd p ndp c ndc m Hn Hp Hnp Hch Hnc Hc Hrun IH];
    [| | |exact IH]; exists nd; (split; [assumption|]); unfold bwd_stop.
  - auto.
  - unfold bwd_continue in Hc.
    destruct (next nd); [right; left; discriminate|].
    destruct (next ndc) eqn:Hx.
    + right. right. right. exists p, ndp, c, ndc.
      rewrite Hx. repeat (split; [assumption|]). discriminate.
    + destruct (annotation nd); [right; right; left; discriminate|discriminate].
  - right. left. apply is_some_true. assumption.
Qed.




(** ** Page jump twice (C8) *)



(** * Further properties of the navigation code *)

(** ** What a navigation call leaves alone *)

Lemma same_record_refl (s : State) : same_record s s.
Proof. unfold same_record. auto. Qed.

Lemma same_record_trans (s1 s2 s3 : State) :
  same_record s1 s2 -> same_record s2 s3 -> same_record s1 s3.
Proof.
  unfold same_record. intros (A1 & A2 & A3 & A4) (B1 & B2 & B3 & B4).
  repeat split; congruence.
Qed.

Lemma quiet_refl (s : State) : quiet s s.
Proof. unfold quiet, same_record. auto 10. Qed.

Lemma quiet_trans (s1 s2 s3 : State) :
  quiet s1 s2 -> quiet s2 s3 -> quiet s1 s3.
Proof.
  unfold quiet. intros (A & A1 & A2) (B & B1 & B2).
  split; [eapply same_record_trans; eauto|]. split; congruence.
Qed.

Lemma quiet_set_curNode (s : State) (p : ptr) : quiet s (set_curNode p s).
Proof. unfold quiet, same_record. simpl. auto 10. Qed.

Lemma quiet_set_board (s : State) (b : Board) (p : Prim) :
  quiet s (set_board b p s).
Proof. unfold quiet, same_record. simpl. auto 10. Qed.

Lemma apply_sgf_cmds_to_board_quiet (s s' : State) :
  apply_sgf_cmds_to_board s = Ret s' -> quiet s s'.
Proof.
  unfold apply_sgf_cmds_to_board. intros H. ret_inv H.
  destruct (curNode s) as [n|]; [|discriminate].
  ret_inv H. injection H as <-. apply quiet_set_board.
Qed.

Lemma raw_step_quiet (s s1 s' : State) :
  quiet s s1 -> (if c_true 0 then updateCommentStr s1 else Ret s1) = Ret s' ->
  quiet s s'.
Proof.
  intros Hq H. change (c_true 0) with false in H. cbv iota in H.
  injection H as <-. exact Hq.
Qed.

(** The shape of a step forward: nothing at all, or a quiet move followed by
    the refresh when [bUpdate] is set. *)
Lemma gogame_move_forward_update_shape (bUpdate : Z) (s s' : State) :
  gogame_move_forward_update bUpdate s = Ret s' ->
  s' = s
  \/ exists s1, quiet s s1
                /\ (if c_true bUpdate then updateCommentStr s1 else Ret s1)
                   = Ret s'.
Proof.
  unfold gogame_move_forward_update. intros H.
  destruct (gameTree s); [|injection H as <-; auto].
  destruct (c_true (bShowFullScreenComment s)); [injection H as <-; auto|].
  ret_inv H. destruct (child x) as [c|]; [|injection H as <-; auto].
  ret_inv H. right. exists x0. split; [|exact H].
  eapply quiet_trans; [apply (quiet_set_curNode s (Some c))|].
  apply apply_sgf_cmds_to_board_quiet. exact E0.
Qed.

Lemma gogame_move_back_update_shape (bUpdate : Z) (s s' : State) :
  gogame_move_back_update bUpdate s = Ret s' ->
  s' = s
  \/ exists s1, quiet s s1
                /\ (if c_true bUpdate then updateCommentStr s1 else Ret s1)
                   = Ret s'.
Proof.
  unfold gogame_move_back_update. intros H.
  destruct (gameTree s); [|injection H as <-; auto].
  destruct (c_true (bShowFullScreenComment s)); [injection H as <-; auto|].
  unfold board_undo in H. destruct (board_pop (board s)) as [ok b].
  ret_inv H. right. exists x. split; [|exact H].
  destruct ok.
  - ret_inv E. injection E as <-.
    eapply quiet_trans; [apply (quiet_set_board s b (PrimUndo true))|].
    apply quiet_set_curNode.
  - injection E as <-. apply quiet_set_board.
Qed.

Lemma gogame_move_forward_update_quiet (s s' : State) :
  gogame_move_forward_update 0 s = Ret s' -> quiet s s'.
Proof.
  intros H. apply gogame_move_forward_update_shape in H.
  destruct H as [-> | (s1 & Hq & H)]; [apply quiet_refl|].
  eapply raw_step_quiet; eauto.
Qed.

Lemma gogame_move_back_update_quiet (s s' : State) :
  gogame_move_back_update 0 s = Ret s' -> quiet s s'.
Proof.
  intros H. apply gogame_move_back_update_shape in H.
  destruct H as [-> | (s1 & Hq & H)]; [apply quiet_refl|].
  eapply raw_step_quiet; eauto.
Qed.

Lemma nextEvt_loop_quiet (fuel : nat) :
  forall s s', nextEvt_loop fuel s = Ret s' -> quiet s s'.
Proof.
  induction fuel as [|fuel IH]; intros s s' H; [discriminate|].
  simpl in H. ret_inv H. destruct x.
  - ret_inv H. eapply quiet_trans; [|apply IH; exact H].
    apply gogame_move_forward_update_quiet. exact E0.
  - injection H as <-. apply quiet_refl.
Qed.

Lemma prevEvt_loop_quiet (fuel : nat) :
  forall s s', prevEvt_loop fuel s = Ret s' -> quiet s s'.
Proof.
  induction fuel as [|fuel IH]; intros s s' H; [discriminate|].
  simpl in H. ret_inv H. destruct x.
  - ret_inv H. eapply quiet_trans; [|apply IH; exact H].
    apply gogame_move_back_update_quiet. exact E0.
  - injection H as <-. apply quiet_refl.
Qed.

Lemma page_back_loop_quiet (fuel : nat) (page : Z) :
  forall s s', page_back_loop fuel page s = Ret s' -> quiet s s'.
Proof.
  induction fuel as [|fuel IH]; intros s s' H; [discriminate|].
  simpl in H. ret_inv H.
  destruct (is_some (parent x) && (page <? move_num x)).
  - ret_inv H. eapply quiet_trans; [|apply IH; exact H].
    apply gogame_move_back_update_quiet. exact E0.
  - injection H as <-. apply quiet_refl.
Qed.

Lemma page_forward_loop_quiet (fuel : nat) (page : Z) :
  forall s s', page_forward_loop fuel page s = Ret s' -> quiet s s'.
Proof.
  induction fuel as [|fuel IH]; intros s s' H; [discriminate|].
  simpl in H. ret_inv H.
  destruct (is_some (child x) && (page >? move_num x)).
  - ret_inv H. eapply quiet_trans; [|apply IH; exact H].
    apply gogame_move_forward_update_quiet. exact E0.
  - injection H as <-. apply quiet_refl.
Qed.

Lemma undo_variation_ascend_quiet (fuel : nat) :
  forall s a b path s' a' b' path',
    undo_variation_ascend fuel s a b path = Ret (s', a', b', path') ->
    quiet s s'.
Proof.
  induction fuel as [|fuel IH]; intros s a b path s' a' b' path' H;
    [discriminate|].
  simpl in H.
  destruct a as [a|]; [|injection H as <- _ _ _; apply quiet_refl].
  destruct b as [b|]; [|injection H as <- _ _ _; apply quiet_refl].
  destruct (Nat.eqb a b); [injection H as <- _ _ _; apply quiet_refl|].
  unfold board_undo in H. destruct (board_pop (board s)) as [ok bd].
  ret_inv H. ret_inv H. ret_inv H.
  eapply quiet_trans; [|eapply IH; exact H].
  destruct ok.
  - ret_inv E. injection E as <-.
    eapply quiet_trans; [apply (quiet_set_board s bd (PrimUndo true))|].
    apply quiet_set_curNode.
  - injection E as <-. apply quiet_set_board.
Qed.

Lemma undo_variation_replay_quiet (path : list nat) :
  forall s s', undo_variation_replay path s = Ret s' -> quiet s s'.
Proof.
  induction path as [|n path IH]; intros s s' H; simpl in H.
  - injection H as <-. apply quiet_refl.
  - ret_inv H. eapply quiet_trans; [|apply IH; exact H].
    eapply quiet_trans; [apply (quiet_set_curNode s (Some n))|].
    apply apply_sgf_cmds_to_board_quiet. exact E.
Qed.

Lemma undo_variation_quiet (fuel : nat) (a b : ptr) (s s' : State) :
  undo_variation fuel a b s = Ret s' -> quiet s s'.
Proof.
  unfold undo_variation. intros H.
  ret_inv H. ret_inv H. ret_inv H.
  destruct x1 as [[[s1 a'] b'] path]. ret_inv H. ret_inv H.
  eapply quiet_trans.
  - eapply undo_variation_ascend_quiet. exact E1.
  - eapply undo_variation_replay_quiet. exact H.
Qed.

(** Every public navigation operation either returns the state it was
    given or ends with the comment refresh after quiet moves. *)
Lemma run_op_shape (fuel : nat) (op : NavOp) (s s' : State) :
  run_op fuel op s = Ret s' -> s' = s \/ refreshed s s'.
Proof.
  intros H. destruct op; simpl in H.
  - apply gogame_move_forward_update_shape in H.
    destruct H as [-> | (s1 & Hq & H)]; [auto|].
    right. exists s1. auto.
  - apply gogame_move_back_update_shape in H.
    destruct H as [-> | (s1 & Hq & H)]; [auto|].
    right. exists s1. auto.
  - unfold gogame_moveVar_down in H.
    destruct (gameTree s); [|injection H as <-; auto].
    destruct (c_true (bShowFullScreenComment s)); [injection H as <-; auto|].
    ret_inv H. ret_inv H. ret_inv H.
    destruct x1; [|injection H as <-; auto].
    ret_inv H. right. exists x1. split; [|exact H].
    eapply undo_variation_quiet. exact E2.
  - unfold gogame_moveVar_up in H.
    destruct (gameTree s); [|injection H as <-; auto].
    destruct (c_true (bShowFullScreenComment s)); [injection H as <-; auto|].
    ret_inv H. ret_inv H. ret_inv H.
    destruct x1; [|injection H as <-; auto].
    ret_inv H. right. exists x1. split; [|exact H].
    eapply undo_variation_quiet. exact E2.
  - unfold gogame_move_to_nextEvt in H.
    destruct (gameTree s); [|injection H as <-; auto].
    destruct (c_true (bShowFullScreenComment s)); [injection H as <-; auto|].
    ret_inv H. ret_inv H. right. exists x0. split; [|exact H].
    eapply quiet_trans.
    + apply gogame_move_forward_update_quiet. exact E.
    + eapply nextEvt_loop_quiet. exact E0.
  - unfold gogame_move_to_prevEvt in H.
    destruct (gameTree s); [|injection H as <-; auto].
    destruct (c_true (bShowFullScreenComment s)); [injection H as <-; auto|].
    ret_inv H. ret_inv H. right. exists x0. split; [|exact H].
    eapply quiet_trans.
    + apply gogame_move_back_update_quiet. exact E.
    + eapply prevEvt_loop_quiet. exact E0.
  - ret_inv H. destruct x as [s1 res]. simpl in H. injection H as <-.
    unfold gogame_move_to_page in E.
    destruct (gameTree s); [|injection E as <- _; auto].
    destruct (c_true (bShowFullScreenComment s)); [injection E as <- _; auto|].
    destruct (curNode s) as [n|] eqn:Hc; [|injection E as <- _; auto].
    ret_inv E. destruct (page =? move_num x); [injection E as <- _; auto|].
    ret_inv E. ret_inv E. injection E as <- _.
    right. exists x0. split; [|exact E2].
    destruct (page <? move_num x).
    + eapply page_back_loop_quiet. exact E1.
    + destruct (page >? move_num x).
      * eapply page_forward_loop_quiet. exact E1.
      * injection E1 as <-. apply quiet_refl.
Qed.

(** What the final refresh establishes. *)
Lemma refreshed_facts (s s' : State) :
  refreshed s s' ->
  same_record s s'
  /\ exists n nd,
       curNode s' = Some n /\ nth_error (nodes s') n = Some nd
       /\ comment_str s' = annotation nd
       /\ comment_update s' =
            match annotation nd, comment_str s with
            | None, None => 0
            | _, _ => 1
            end.
Proof.
  intros (s1 & (Hr & Hcs & Hcu) & H).
  unfold updateCommentStr in H. ret_inv H. ret_inv H. ret_inv H.
  apply deref_ret_inv in E1. destruct E1 as (n & Hc & Hn).
  rewrite <- Hcs.
  destruct (annotation x1) eqn:Ha; [|destruct (comment_str s1) eqn:Hs];
    injection H as <-; (split; [exact Hr|]); exists n, x1; simpl;
    rewrite ?Ha; auto.
Qed.

(** X1: a public navigation operation never changes the record it walks:
    the node store, the tree handle, the board size and the full-screen
    flag are the same after the call, in whatever state it is made. *)
Theorem navigation_reads_record_only (fuel : nat) (op : NavOp) (s s' : State) :
  run_op fuel op s = Ret s' -> same_record s s'.
Proof.
  intros H. apply run_op_shape in H.
  destruct H as [-> | H]; [apply same_record_refl|].
  apply refreshed_facts in H. tauto.
Qed.

Lemma navigation_reads_record_only_witness :
  exists s', run_op 6 OpVarDown (sample_at [0; 1; 2; 4]%nat 4) = Ret s'
             /\ same_record (sample_at [0; 1; 2; 4]%nat 4) s'.
Proof.
  assert (exists s', run_op 6 OpVarDown (sample_at [0; 1; 2; 4]%nat 4) = Ret s')
    as (s' & E) by (eexists; vm_compute; reflexivity).
  exists s'. split; [exact E|].
  apply (navigation_reads_record_only 6 OpVarDown _ s' E).
Defined.

Lemma run_cmd_comment_in_step (fuel : nat) (c : Cmd) (s s' : State) :
  comment_in_step s -> run_cmd fuel c s = Ret s' -> comment_in_step s'.
Proof.
  intros Hs H. destruct c as [op|]; simpl in H.
  - apply run_op_shape in H. destruct H as [-> | H]; [exact Hs|].
    apply refreshed_facts in H.
    destruct H as (_ & n & nd & Hc & Hn & Ha & _).
    exists n, nd. auto.
  - injection H as <-. unfold gogame_switch_fullComment.
    destruct (gameTree s); [|exact Hs].
    destruct (comment_str s) eqn:Ec; [|exact Hs].
    destruct Hs as (n & nd & Hc & Hn & Ha).
    exists n, nd. simpl. auto.
Qed.

(** X2: the comment cache stays in step with the cursor.  If [comment_str]
    is the annotation of the node under the cursor (as it is after
    loading), it still is after any session of navigation operations and
    full-screen switches: an operation that moves the cursor ends with the
    refresh, and one that returns early has not moved it. *)
Theorem comment_cache_in_step (fuel : nat) (cs : list Cmd) :
  forall s s',
    comment_in_step s -> run_cmds fuel cs s = Ret s' -> comment_in_step s'.
Proof.
  induction cs as [|c cs IH]; intros s s' Hs H; simpl in H.
  - injection H as <-. exact Hs.
  - ret_inv H. apply (IH x s'); [|exact H].
    eapply run_cmd_comment_in_step; eauto.
Qed.

Lemma sample_start_comment_in_step : comment_in_step sample_start.
Proof. exists 0%nat. eexists. split; [reflexivity|]. split; reflexivity. Qed.

Lemma comment_cache_in_step_witness :
  exists s',
    run_cmds 6 [CmdNav OpForward; CmdNav OpForward; CmdNav OpForward;
                CmdSwitchFull; CmdNav OpBack; CmdSwitchFull;
                CmdNav OpVarDown; CmdNav (OpPage 1)] sample_start = Ret s'
    /\ comment_in_step s'.
Proof.
  assert (exists s',
            run_cmds 6 [CmdNav OpForward; CmdNav OpForward; CmdNav OpForward;
                        CmdSwitchFull; CmdNav OpBack; CmdSwitchFull;
                        CmdNav OpVarDown; CmdNav (OpPage 1)] sample_start
            = Ret s')
    as (s' & E) by (eexists; vm_compute; reflexivity).
  exists s'. split; [exact E|].
  apply (comment_cache_in_step 6 _ sample_start s'
           sample_start_comment_in_step E).
Defined.

(** X3: the dirty flag never misses a change of the comment.  After a
    public navigation operation either the cached comment is the one the
    call started with or [comment_update] is 1. *)
Theorem comment_change_sets_dirty (fuel : nat) (op : NavOp) (s s' : State) :
  run_op fuel op s = Ret s' ->
  comment_str s' = comment_str s \/ comment_update s' = 1.
Proof.
  intros H. apply run_op_shape in H.
  destruct H as [-> | H]; [auto|].
  apply refreshed_facts in H.
  destruct H as (_ & n & nd & _ & _ & Ha & Hu).
  rewrite Ha, Hu.
  destruct (annotation nd); [auto|].
  destruct (comment_str s); auto.
Qed.

Lemma comment_change_sets_dirty_witness :
  exists s',
    run_op 6 OpForward (sample_at [0; 1; 2]%nat 2) = Ret s'
    /\ comment_str s' = Some "good move"%string
    /\ comment_update s' = 1.
Proof.
  assert (exists s', run_op 6 OpForward (sample_at [0; 1; 2]%nat 2) = Ret s')
    as (s' & E) by (eexists; vm_compute; reflexivity).
  exists s'. split; [exact E|].
  destruct (comment_change_sets_dirty 6 OpForward _ s' E) as [H | H].
  - vm_compute in E. injection E as <-. discriminate H.
  - split; [|exact H]. vm_compute in E. injection E as <-. reflexivity.
Defined.

Lemma run_cmd_fullscreen_has_comment (fuel : nat) (c : Cmd) (s s' : State) :
  fullscreen_has_comment s -> run_cmd fuel c s = Ret s' ->
  fullscreen_has_comment s'.
Proof.
  intros Hs H. destruct c as [op|]; simpl in H.
  - destruct (c_true (bShowFullScreenComment s)) eqn:Hf.
    + rewrite (run_op_fullscreen fuel op s Hf) in H. injection H as <-.
      exact Hs.
    + apply run_op_shape in H. destruct H as [-> | H]; [exact Hs|].
      apply refreshed_facts in H. destruct H as ((_ & _ & _ & Hfl) & _).
      destruct Hs as [H01 _]. unfold fullscreen_has_comment.
      rewrite Hfl. split; [exact H01|]. congruence.
  - injection H as <-. unfold gogame_switch_fullComment.
    destruct (gameTree s); [|exact Hs].
    destruct (comment_str s) eqn:Ec; [|exact Hs].
    unfold fullscreen_has_comment. simpl. rewrite Ec. split.
    + destruct (c_true (bShowFullScreenComment s)); auto.
    + discriminate.
Qed.

(** X4: the assertion of [gogame_draw_fullrepaint] holds throughout a
    session.  If the full-screen flag is 0 or 1 and is set only with a
    cached comment (as after loading, where it is 0), the same is true
    after any sequence of navigation operations and full-screen switches:
    the switch refuses without a comment and navigation is off while the
    flag is set. *)
Theorem fullscreen_always_has_comment (fuel : nat) (cs : list Cmd) :
  forall s s',
    fullscreen_has_comment s -> run_cmds fuel cs s = Ret s' ->
    fullscreen_has_comment s'.
Proof.
  induction cs as [|c cs IH]; intros s s' Hs H; simpl in H.
  - injection H as <-. exact Hs.
  - ret_inv H. apply (IH x s'); [|exact H].
    eapply run_cmd_fullscreen_has_comment; eauto.
Qed.

Lemma sample_start_fullscreen_has_comment : fullscreen_has_comment sample_start.
Proof. split; [left; reflexivity | discriminate]. Qed.

Lemma fullscreen_always_has_comment_witness :
  exists s',
    run_cmds 6 [CmdSwitchFull; CmdNav OpForward; CmdNav OpForward;
                CmdNav OpForward; CmdSwitchFull; CmdNav OpBack] sample_start
      = Ret s'
    /\ bShowFullScreenComment s' = 1
    /\ fullscreen_has_comment s'.
Proof.
  assert (exists s',
            run_cmds 6 [CmdSwitchFull; CmdNav OpForward; CmdNav OpForward;
                        CmdNav OpForward; CmdSwitchFull; CmdNav OpBack]
                     sample_start = Ret s')
    as (s' & E) by (eexists; vm_compute; reflexivity).
  exists s'. split; [exact E|]. split.
  - vm_compute in E. injection E as <-. reflexivity.
  - apply (fullscreen_always_has_comment 6 _ sample_start s'
             sample_start_fullscreen_has_comment E).
Defined.

(** ** Accounting for the primitive calls of the linear walks *)

Section Accounting.

Variables (h : list SGFNode) (sz : Z) (t : SGFTree) (r : nat).
Hypothesis Hwf : wf_tree h r.

Abbreviation Inv := (inv h sz t r).

Lemma orphan_is_root (n : nat) (nd : SGFNode) :
  nth_error h n = Some nd -> parent nd = None -> move_num nd = 0.
Proof.
  intros Hn Hp. pose proof (wf_orphan h r Hwf n nd Hn Hp) as ->.
  destruct (wf_root h r Hwf) as (ndr & Hr & _ & Hm). congruence.
Qed.

Lemma page_back_loop_exact (fuel : nat) (page : Z) :
  forall s n l nd,
    Inv s n l -> nth_error h n = Some nd -> page <= move_num nd ->
    (length l <= fuel)%nat ->
    exists s' n' l' sfx nd',
      page_back_loop fuel page s = Ret s'
      /\ Inv s' n' l' /\ l = l' ++ sfx
      /\ nth_error h n' = Some nd' /\ move_num nd' = Z.max page 0
      /\ prims s' = prims s ++ repeat (PrimUndo true) (length sfx).
Proof.
  induction fuel as [|fuel IH]; intros s n l nd HI Hn Hle Hfuel.
  - assert (Hrp : root_path h r n l) by (destruct HI; tauto).
    destruct (root_path_last h r n l Hrp) as (l' & ->).
    rewrite length_app in Hfuel. simpl in Hfuel. lia.
  - simpl.
    destruct (inv_facts h sz t r s n l HI) as (Hh & _ & _ & Hc & _).
    rewrite Hc. rewrite (deref_some s n nd) by (rewrite Hh; assumption).
    simpl.
    destruct (parent nd) as [p|] eqn:Hpar; simpl.
    + destruct (inv_back h sz t r Hwf s n p l nd HI Hn Hpar)
        as (l' & ndp & El & Hndp & Hm & E & HI').
      pose proof (move_num_nonneg h r Hwf p ndp Hndp) as H0.
      destruct (page <? move_num nd) eqn:Elt.
      * apply Z.ltb_lt in Elt. rewrite E. simpl.
        destruct (IH _ p l' ndp HI' Hndp ltac:(lia)) as
          (s' & n' & l'' & sfx & nd' & E' & HI'' & El' & Hn' & Hm' & Hpr).
        { subst l. rewrite length_app in Hfuel. simpl in Hfuel. lia. }
        exists s', n', l'', (sfx ++ [n]), nd'.
        split; [exact E'|]. split; [exact HI''|].
        split. { rewrite El, El'. rewrite app_assoc. reflexivity. }
        split; [exact Hn'|]. split; [exact Hm'|].
        rewrite Hpr. simpl. rewrite length_app. simpl.
        rewrite Nat.add_1_r. rewrite <- app_assoc. reflexivity.
      * apply Z.ltb_ge in Elt.
        exists s, n, l, [], nd. simpl. rewrite !app_nil_r.
        repeat (split; [solve [auto]|]). split; [lia | reflexivity].
    + pose proof (orphan_is_root n nd Hn Hpar) as Hm.
      exists s, n, l, [], nd. simpl. rewrite !app_nil_r.
      repeat (split; [solve [auto]|]). split; [lia | reflexivity].
Qed.

Lemma page_forward_loop_exact (fuel : nat) (page : Z) :
  forall s n l nd,
    Inv s n l -> nth_error h n = Some nd -> move_num nd <= page ->
    (length h < fuel + length l)%nat ->
    exists s' n' sfx nd',
      page_forward_loop fuel page s = Ret s'
      /\ Inv s' n' (l ++ sfx) /\ main_line h n sfx
      /\ nth_error h n' = Some nd'
      /\ (move_num nd' = page \/ (child nd' = None /\ move_num nd' < page))
      /\ prims s' = prims s ++ map PrimApply sfx.
Proof.
  induction fuel as [|fuel IH]; intros s n l nd HI Hn Hle Hfuel.
  - assert (Hrp : root_path h r n l) by (destruct HI; tauto).
    pose proof (root_path_bound h r Hwf n l Hrp). simpl in Hfuel. lia.
  - simpl.
    destruct (inv_facts h sz t r s n l HI) as (Hh & _ & _ & Hc & _).
    rewrite Hc. rewrite (deref_some s n nd) by (rewrite Hh; assumption).
    simpl.
    destruct (child nd) as [c|] eqn:Hch; simpl.
    + destruct (page >? move_num nd) eqn:Egt.
      * apply Z.gtb_lt in Egt.
        destruct (inv_forward h sz t r Hwf s n c l nd HI Hn Hch)
          as (ndc & Hndc & Hm & E & HI').
        rewrite E. simpl.
        destruct (IH _ c (l ++ [c]) ndc HI' Hndc ltac:(lia)) as
          (s' & n' & sfx & nd' & E' & HI'' & Hml & Hn' & Hex & Hpr).
        { rewrite length_app. simpl. lia. }
        exists s', n', (c :: sfx), nd'.
        split; [exact E'|].
        split. { rewrite <- app_assoc in HI''. exact HI''. }
        split. { simpl. exists nd. auto. }
        split; [exact Hn'|]. split; [exact Hex|].
        rewrite Hpr. simpl. rewrite <- app_assoc. reflexivity.
      * assert (move_num nd = page).
        { rewrite Z.gtb_ltb in Egt. apply Z.ltb_ge in Egt. lia. }
        exists s, n, [], nd. simpl. rewrite !app_nil_r.
        repeat (split; [solve [auto]|]). reflexivity.
    + exists s, n, [], nd. simpl. rewrite !app_nil_r.
      repeat (split; [solve [auto]|]).
      split; [|reflexivity].
      destruct (Z.eq_dec (move_num nd) page); [left; assumption|].
      right. split; [assumption | lia].
Qed.

Lemma nextEvt_loop_exact (fuel : nat) :
  forall s n l,
    Inv s n l -> (length h < fuel + length l)%nat ->
    exists s' n' sfx,
      nextEvt_loop fuel s = Ret s'
      /\ Inv s' n' (l ++ sfx) /\ main_line h n sfx
      /\ prims s' = prims s ++ map PrimApply sfx.
Proof.
  induction fuel as [|fuel IH]; intros s n l HI Hfuel.
  - assert (Hrp : root_path h r n l) by (destruct HI; tauto).
    pose proof (root_path_bound h r Hwf n l Hrp). simpl in Hfuel. lia.
  - simpl.
    destruct (inv_facts h sz t r s n l HI) as (_ & _ & _ & _ & nd & Hn).
    rewrite (nextEvt_cond_eq h sz t r s n l nd HI Hn). simpl.
    destruct (fwd_continue nd) eqn:Ec.
    + assert (exists c, child nd = Some c) as (c & Hch).
      { unfold fwd_continue in Ec. destruct (child nd); [eauto|discriminate]. }
      destruct (inv_forward h sz t r Hwf s n c l nd HI Hn Hch)
        as (ndc & Hndc & _ & E & HI').
      rewrite E. simpl.
      destruct (IH _ c (l ++ [c]) HI') as (s' & n' & sfx & E' & HI'' & Hml & Hpr).
      { rewrite length_app. simpl. lia. }
      exists s', n', (c :: sfx).
      split; [exact E'|].
      split. { rewrite <- app_assoc in HI''. exact HI''. }
      split. { simpl. exists nd. auto. }
      rewrite Hpr. simpl. rewrite <- app_assoc. reflexivity.
    + exists s, n, []. simpl. rewrite !app_nil_r. auto.
Qed.

Lemma prevEvt_loop_exact (fuel : nat) :
  forall s n l,
    Inv s n l -> (length l <= fuel)%nat ->
    exists s' n' l' sfx,
      prevEvt_loop fuel s = Ret s'
      /\ Inv s' n' l' /\ l = l' ++ sfx
      /\ prims s' = prims s ++ repeat (PrimUndo true) (length sfx).
Proof.
  induction fuel as [|fuel IH]; intros s n l HI Hfuel.
  - assert (Hrp : root_path h r n l) by (destruct HI; tauto).
    destruct (root_path_last h r n l Hrp) as (l' & ->).
    rewrite length_app in Hfuel. simpl in Hfuel. lia.
  - simpl.
    destruct (prevEvt_cond_total h sz t r Hwf s n l HI) as (b & Eb).
    rewrite Eb. simpl. destruct b.
    + destruct (inv_facts h sz t r s n l HI) as (Hh & _ & _ & Hc & nd & Hn).
      destruct (parent nd) as [p|] eqn:Hpar.
      * destruct (inv_back h sz t r Hwf s n p l nd HI Hn Hpar)
          as (l' & ndp & El & _ & _ & E & HI').
        rewrite E. simpl.
        destruct (IH _ p l' HI') as (s' & n' & l'' & sfx & E' & HI'' & El' & Hpr).
        { subst l. rewrite length_app in Hfuel. simpl in Hfuel. lia. }
        exists s', n', l'', (sfx ++ [n]).
        split; [exact E'|]. split; [exact HI''|].
        split. { rewrite El, El'. rewrite app_assoc. reflexivity. }
        rewrite Hpr. simpl. rewrite length_app. simpl.
        rewrite Nat.add_1_r. rewrite <- app_assoc. reflexivity.
      * exfalso. unfold prevEvt_cond in Eb. rewrite Hc in Eb.
        rewrite (deref_some s n nd) in Eb by (rewrite Hh; assumption).
        simpl in Eb. rewrite Hpar in Eb. discriminate.
    + exists s, n, l, []. simpl. rewrite !app_nil_r. auto.
Qed.

End Accounting.

Lemma inv_at_node (h : list SGFNode) (sz : Z) (t : SGFTree) (r : nat)
    (s : State) (n : nat) (l : list nat) :
  inv h sz t r s n l -> at_node s r n l.
Proof.
  intros (Hh & Hsz & _ & _ & Hc & Hrp & Hb).
  unfold at_node. rewrite Hh, Hsz. auto.
Qed.

Lemma at_node_inv (s : State) (r n : nat) (l : list nat) :
  gameTree s = Some {| root := Some r |} ->
  c_true (bShowFullScreenComment s) = false ->
  at_node s r n l ->
  inv (nodes s) (boardSize s) {| root := Some r |} r s n l.
Proof. intros Ht Hf (Hc & Hrp & Hb). unfold inv. auto 10. Qed.

(** ** Page jump: the result (C3) *)

(** The return value of [gogame_move_to_page] tells whether anything was
    attempted. *)
Lemma gogame_move_to_page_flag (fuel : nat) (page : Z) (s s' : State) (r : Z) :
  gogame_move_to_page fuel page s = Ret (s', r) ->
  (r = 0 /\ s' = s
   /\ (gameTree s = None \/ c_true (bShowFullScreenComment s) = true
       \/ curNode s = None
       \/ exists n nd, curNode s = Some n /\ nth_error (nodes s) n = Some nd
                       /\ move_num nd = page))
  \/ (r = 1 /\ gameTree s <> None /\ c_true (bShowFullScreenComment s) = false
      /\ exists n nd, curNode s = Some n /\ nth_error (nodes s) n = Some nd
                      /\ move_num nd <> page).
Proof.
  unfold gogame_move_to_page. intros H.
  destruct (gameTree s) eqn:Et.
  2:{ injection H as <- <-. left. auto. }
  destruct (c_true (bShowFullScreenComment s)) eqn:Ef.
  { injection H as <- <-. left. auto. }
  destruct (curNode s) as [n|] eqn:Ec.
  2:{ injection H as <- <-. left. auto 6. }
  ret_inv H. apply deref_ret_inv in E. destruct E as (n' & Hn' & Hnd).
  injection Hn' as <-.
  destruct (page =? move_num x) eqn:Ep.
  - injection H as <- <-. left. apply Z.eqb_eq in Ep.
    split; [reflexivity|]. split; [reflexivity|].
    right. right. right. exists n, x. auto.
  - ret_inv H. ret_inv H. injection H as <- <-.
    right. apply Z.eqb_neq in Ep.
    split; [reflexivity|]. split; [discriminate|]. split; [reflexivity|].
    exists n, x. auto.
Qed.

Lemma gogame_move_to_page_idle (fuel : nat) (page : Z) (s : State) :
  gameTree s = None \/ c_true (bShowFullScreenComment s) = true
  \/ curNode s = None
  \/ (exists n nd, curNode s = Some n /\ nth_error (nodes s) n = Some nd
                   /\ move_num nd = page) ->
  gogame_move_to_page fuel page s = Ret (s, 0).
Proof.
  intros H. unfold gogame_move_to_page.
  destruct (gameTree s); [|reflexivity].
  destruct (c_true (bShowFullScreenComment s)); [reflexivity|].
  destruct (curNode s) as [n|] eqn:Ec; [|reflexivity].
  destruct H as [H | [H | [H | (n' & nd & Hc & Hn & Hm)]]]; try discriminate.
  injection Hc as <-. rewrite (deref_some s n nd Hn). simpl.
  rewrite <- Hm, Z.eqb_refl. reflexivity.
Qed.












(** ** Variation up and down over a chain *)

Lemma chain_prev_snoc (prev : ptr) (pre : list nat) (y : nat) :
  chain_prev prev (pre ++ [y]) = Some y.
Proof.
  revert prev. induction pre as [|z pre IH]; intros prev; simpl; auto.
Qed.

Lemma is_chain_split (h : list SGFNode) (pre : list nat) :
  forall prev x post,
    is_chain h prev (pre ++ x :: post) ->
    exists nd, nth_error h x = Some nd
               /\ prevVar nd = chain_prev prev pre
               /\ nextVar nd = hd_error post
               /\ is_chain h (Some x) post.
Proof.
  induction pre as [|y pre IH]; intros prev x post H; simpl in H.
  - exact H.
  - destruct H as (ndy & _ & _ & _ & H). simpl. apply (IH _ x post H).
Qed.

Lemma is_chain_node (h : list SGFNode) (prev : ptr) (c : list nat) (x : nat) :
  is_chain h prev c -> In x c -> exists nd, nth_error h x = Some nd.
Proof.
  intros H Hx. apply in_split in Hx. destruct Hx as (pre & post & ->).
  destruct (is_chain_split h pre prev x post H) as (nd & Hn & _). eauto.
Qed.

Lemma lvl_at_node (h : list SGFNode) (x : nat) (nd : SGFNode) :
  nth_error h x = Some nd -> lvl_at h x = draw_lvl nd.
Proof. intros H. unfold lvl_at. rewrite H. reflexivity. Qed.

Lemma hd_snoc (x y : nat) (pre : list nat) : hd x (pre ++ [y]) = hd y pre.
Proof. destruct pre; reflexivity. Qed.

(** Walking [prevVar] from any node of a chain ends on its first node. *)
Lemma var_head_chain (s : State) (pre : list nat) :
  forall x post fuel,
    is_chain (nodes s) None (pre ++ x :: post) ->
    (length pre < fuel)%nat ->
    var_head fuel s (Some x) = Ret (Some (hd x pre)).
Proof.
  induction pre as [|y pre IH] using rev_ind; intros x post fuel H Hfuel.
  - destruct fuel as [|fuel]; [simpl in Hfuel; lia|].
    destruct (is_chain_split _ [] None x post H) as (nd & Hn & Hp & _).
    simpl. rewrite (deref_some s x nd Hn). simpl. simpl in Hp. rewrite Hp.
    reflexivity.
  - destruct fuel as [|fuel]; [simpl in Hfuel; lia|].
    destruct (is_chain_split _ (pre ++ [y]) None x post H) as (nd & Hn & Hp & _).
    rewrite chain_prev_snoc in Hp.
    simpl. rewrite (deref_some s x nd Hn). simpl. rewrite Hp.
    rewrite <- app_assoc in H. simpl in H.
    rewrite (IH y (x :: post) fuel H).
    + rewrite hd_snoc. reflexivity.
    + rewrite length_app in Hfuel. simpl in Hfuel. lia.
Qed.

(** The downward scan over the rest [c] of a chain, entered with the bound
    [lvl] and the candidate [best]. *)
Lemma scan_down_chain (s : State) (cl : Z) (c : list nat) :
  forall prev lvl best fuel,
    is_chain (nodes s) prev c -> (length c < fuel)%nat ->
    exists res,
      scan_down fuel s (hd_error c) cl lvl best = Ret res
      /\ ((res = best
           /\ forall x, In x c -> ~ (cl < lvl_at (nodes s) x < lvl))
          \/ exists m,
               res = Some m /\ In m c /\ cl < lvl_at (nodes s) m < lvl
               /\ forall x, In x c -> cl < lvl_at (nodes s) x ->
                            lvl_at (nodes s) m <= lvl_at (nodes s) x).
Proof.
  induction c as [|x c IH]; intros prev lvl best fuel H Hfuel;
    (destruct fuel as [|fuel]; [simpl in Hfuel; lia|]).
  - exists best. simpl. split; [reflexivity|]. left. split; [reflexivity|].
    intros x [].
  - simpl in H. destruct H as (nd & Hn & _ & Hnx & H).
    pose proof (lvl_at_node _ x nd Hn) as Hl.
    simpl. rewrite (deref_some s x nd Hn). simpl. rewrite Hnx.
    simpl in Hfuel.
    destruct ((draw_lvl nd >? cl) && (draw_lvl nd <? lvl)) eqn:Ec.
    + apply andb_prop in Ec. destruct Ec as [E1 E2].
      apply Z.gtb_lt in E1. apply Z.ltb_lt in E2.
      destruct (IH (Some x) (draw_lvl nd) (Some x) fuel H ltac:(lia))
        as (res & E & [[Hres Hnone] | (m & Hres & Hin & Hr & Hmin)]).
      * exists res. split; [exact E|]. right. exists x.
        split; [exact Hres|]. split; [left; reflexivity|].
        split; [lia|].
        intros y [<- | Hy] Hy'; [lia|].
        specialize (Hnone y Hy). lia.
      * exists res. split; [exact E|]. right. exists m.
        split; [exact Hres|]. split; [right; exact Hin|].
        split; [lia|].
        intros y [<- | Hy] Hy'; [lia|]. apply Hmin; assumption.
    + assert (Hno : ~ (cl < draw_lvl nd < lvl)).
      { intros [A B]. apply Z.gtb_lt in A. apply Z.ltb_lt in B.
        rewrite A, B in Ec. discriminate. }
      destruct (IH (Some x) lvl best fuel H ltac:(lia))
        as (res & E & [[Hres Hnone] | (m & Hres & Hin & Hr & Hmin)]).
      * exists res. split; [exact E|]. left. split; [exact Hres|].
        intros y [<- | Hy]; [rewrite Hl; exact Hno | apply Hnone; exact Hy].
      * exists res. split; [exact E|]. right. exists m.
        split; [exact Hres|]. split; [right; exact Hin|].
        split; [exact Hr|].
        intros y [<- | Hy] Hy'; [lia | apply Hmin; assumption].
Qed.

(** The upward scan, likewise. *)
Lemma scan_up_chain (s : State) (cl : Z) (c : list nat) :
  forall prev lvl best fuel,
    is_chain (nodes s) prev c -> (length c < fuel)%nat ->
    exists res,
      scan_up fuel s (hd_error c) cl lvl best = Ret res
      /\ ((res = best
           /\ forall x, In x c -> ~ (lvl < lvl_at (nodes s) x < cl))
          \/ exists m,
               res = Some m /\ In m c /\ lvl < lvl_at (nodes s) m < cl
               /\ forall x, In x c -> lvl_at (nodes s) x < cl ->
                            lvl_at (nodes s) x <= lvl_at (nodes s) m).
Proof.
  induction c as [|x c IH]; intros prev lvl best fuel H Hfuel;
    (destruct fuel as [|fuel]; [simpl in Hfuel; lia|]).
  - exists best. simpl. split; [reflexivity|]. left. split; [reflexivity|].
    intros x [].
  - simpl in H. destruct H as (nd & Hn & _ & Hnx & H).
    pose proof (lvl_at_node _ x nd Hn) as Hl.
    simpl. rewrite (deref_some s x nd Hn). simpl. rewrite Hnx.
    simpl in Hfuel.
    destruct ((draw_lvl nd <? cl) && (draw_lvl nd >? lvl)) eqn:Ec.
    + apply andb_prop in Ec. destruct Ec as [E1 E2].
      apply Z.ltb_lt in E1. apply Z.gtb_lt in E2.
      destruct (IH (Some x) (draw_lvl nd) (Some x) fuel H ltac:(lia))
        as (res & E & [[Hres Hnone] | (m & Hres & Hin & Hr & Hmin)]).
      * exists res. split; [exact E|]. right. exists x.
        split; [exact Hres|]. split; [left; reflexivity|].
        split; [lia|].
        intros y [<- | Hy] Hy'; [lia|].
        specialize (Hnone y Hy). lia.
      * exists res. split; [exact E|]. right. exists m.
        split; [exact Hres|]. split; [right; exact Hin|].
        split; [lia|].
        intros y [<- | Hy] Hy'; [lia|]. apply Hmin; assumption.
    + assert (Hno : ~ (lvl < draw_lvl nd < cl)).
      { intros [A B]. apply Z.gtb_lt in A. apply Z.ltb_lt in B.
        rewrite A, B in Ec. discriminate. }
      destruct (IH (Some x) lvl best fuel H ltac:(lia))
        as (res & E & [[Hres Hnone] | (m & Hres & Hin & Hr & Hmin)]).
      * exists res. split; [exact E|]. left. split; [exact Hres|].
        intros y [<- | Hy]; [rewrite Hl; exact Hno | apply Hnone; exact Hy].
      * exists res. split; [exact E|]. right. exists m.
        split; [exact Hres|]. split; [right; exact Hin|].
        split; [exact Hr|].
        intros y [<- | Hy] Hy'; [lia | apply Hmin; assumption].
Qed.

Lemma hd_error_chain (pre : list nat) (n : nat) (post : list nat) :
  hd_error (pre ++ n :: post) = Some (hd n pre).
Proof. destruct pre; reflexivity. Qed.

Section VariationMoves.

Variables (h : list SGFNode) (sz : Z) (t : SGFTree) (r : nat).
Hypothesis Hwf : wf_tree h r.

Abbreviation Inv := (inv h sz t r).

(** Switching to a node of the same ply: the call returns. *)
Lemma undo_variation_same_ply (s : State) (n m : nat) (l : list nat)
    (nd : SGFNode) (fuel : nat) :
  Inv s n l -> nth_error h n = Some nd -> same_ply h nd (Some m) ->
  (length l <= fuel)%nat ->
  exists s' lb,
    undo_variation fuel (Some n) (Some m) s = Ret s'
    /\ Inv s' m lb /\ length lb = length l.
Proof.
  intros HI Hn (ndm & Hm & Eply) Hfuel.
  assert (Hrp : root_path h r n l) by (destruct HI; tauto).
  destruct (root_path_exists h r Hwf m ndm Hm) as (lb & Hlb).
  pose proof (root_path_length h r Hwf n l Hrp nd Hn) as L1.
  pose proof (root_path_length h r Hwf m lb Hlb ndm Hm) as L2.
  assert (Hlen : length l = length lb).
  { apply Nat2Z.inj. rewrite L1, L2, Eply. reflexivity. }
  destruct (undo_variation_ok h sz t r Hwf s n m l lb fuel HI Hlb Hlen Hfuel)
    as (s' & lc & sa & sb & E & HI' & _).
  exists s', lb. auto.
Qed.

Lemma gogame_moveVar_down_ok (fuel : nat) (s : State) (n : nat)
    (l : list nat) (nd : SGFNode) (c : list nat) :
  Inv s n l -> nth_error h n = Some nd ->
  is_chain h None c -> In n c ->
  (length c < fuel)%nat -> (length l <= fuel)%nat ->
  exists s' res,
    is_next_below h c (draw_lvl nd) res
    /\ gogame_moveVar_down fuel s = Ret s'
    /\ match res with
       | None => s' = s
       | Some m => exists lb, Inv s' m lb /\ length lb = length l
       end.
Proof.
  intros HI Hn Hch Hin Hf1 Hf2.
  destruct (inv_facts h sz t r s n l HI) as (Hh & Ht & Hf & Hc & _).
  apply in_split in Hin. destruct Hin as (pre & post & Ec).
  rewrite <- Hh in Hch.
  assert (E1 : var_head fuel s (Some n) = Ret (Some (hd n pre))).
  { apply (var_head_chain s pre n post fuel).
    - rewrite <- Ec. exact Hch.
    - rewrite Ec in Hf1. rewrite length_app in Hf1. simpl in Hf1. lia. }
  destruct (scan_down_chain s (draw_lvl nd) c None 20000 None fuel Hch Hf1)
    as (res & E2 & Hres).
  rewrite Ec in E2 at 1. rewrite hd_error_chain in E2.
  unfold gogame_moveVar_down.
  destruct (gameTree s) eqn:Et; [|congruence]. rewrite Hf, Hc, E1. simpl.
  rewrite (deref_some s n nd) by (rewrite Hh; exact Hn). simpl.
  rewrite E2. simpl. rewrite Hh in Hres.
  destruct Hres as [[-> Hnone] | (m & -> & Hm & Hr & Hmin)].
  - exists s, None. split; [exact Hnone|]. split; reflexivity.
  - assert (Hself : same_ply h nd (Some n)) by (simpl; eauto).
    pose proof (var_head_same_ply h r Hwf nd fuel s _ _ Hh E1 Hself) as Hx.
    pose proof (scan_down_same_ply h r Hwf nd fuel s _ _ _ None _ Hh E2 Hx I)
      as Hq.
    destruct (undo_variation_same_ply s n m l nd fuel HI Hn Hq Hf2)
      as (s1 & lb & E3 & HI1 & Hlen).
    rewrite E3. simpl.
    destruct (inv_updateCommentStr h sz t r s1 m lb HI1) as (cm & u & Eu).
    rewrite Eu. exists (set_comment cm u s1), (Some m).
    split. { simpl. auto. }
    split; [reflexivity|].
    exists lb. split; [apply inv_set_comment; exact HI1 | exact Hlen].
Qed.

Lemma gogame_moveVar_up_ok (fuel : nat) (s : State) (n : nat)
    (l : list nat) (nd : SGFNode) (c : list nat) :
  Inv s n l -> nth_error h n = Some nd ->
  is_chain h None c -> In n c ->
  (length c < fuel)%nat -> (length l <= fuel)%nat ->
  exists s' res,
    is_next_above h c (draw_lvl nd) res
    /\ gogame_moveVar_up fuel s = Ret s'
    /\ match res with
       | None => s' = s
       | Some m => exists lb, Inv s' m lb /\ length lb = length l
       end.
Proof.
  intros HI Hn Hch Hin Hf1 Hf2.
  destruct (inv_facts h sz t r s n l HI) as (Hh & Ht & Hf & Hc & _).
  apply in_split in Hin. destruct Hin as (pre & post & Ec).
  rewrite <- Hh in Hch.
  assert (E1 : var_head fuel s (Some n) = Ret (Some (hd n pre))).
  { apply (var_head_chain s pre n post fuel).
    - rewrite <- Ec. exact Hch.
    - rewrite Ec in Hf1. rewrite length_app in Hf1. simpl in Hf1. lia. }
  destruct (scan_up_chain s (draw_lvl nd) c None (-20000) None fuel Hch Hf1)
    as (res & E2 & Hres).
  rewrite Ec in E2 at 1. rewrite hd_error_chain in E2.
  unfold gogame_moveVar_up.
  destruct (gameTree s) eqn:Et; [|congruence]. rewrite Hf, Hc, E1. simpl.
  rewrite (deref_some s n nd) by (rewrite Hh; exact Hn). simpl.
  rewrite E2. simpl. rewrite Hh in Hres.
  destruct Hres as [[-> Hnone] | (m & -> & Hm & Hr & Hmin)].
  - exists s, None. split; [exact Hnone|]. split; reflexivity.
  - assert (Hself : same_ply h nd (Some n)) by (simpl; eauto).
    pose proof (var_head_same_ply h r Hwf nd fuel s _ _ Hh E1 Hself) as Hx.
    pose proof (scan_up_same_ply h r Hwf nd fuel s _ _ _ None _ Hh E2 Hx I)
      as Hq.
    destruct (undo_variation_same_ply s n m l nd fuel HI Hn Hq Hf2)
      as (s1 & lb & E3 & HI1 & Hlen).
    rewrite E3. simpl.
    destruct (inv_updateCommentStr h sz t r s1 m lb HI1) as (cm & u & Eu).
    rewrite Eu. exists (set_comment cm u s1), (Some m).
    split. { simpl. auto. }
    split; [reflexivity|].
    exists lb. split; [apply inv_set_comment; exact HI1 | exact Hlen].
Qed.

End VariationMoves.





(** ** Loading and cleaning up *)

Lemma run_op_no_record (fuel : nat) (op : NavOp) (s : State) :
  gameTree s = None -> run_op fuel op s = Ret s.
Proof.
  intros H.
  destruct op; simpl;
    unfold gogame_move_forward, gogame_move_back,
      gogame_move_forward_update, gogame_move_back_update,
      gogame_moveVar_down, gogame_moveVar_up, gogame_move_to_nextEvt,
      gogame_move_to_prevEvt, gogame_move_to_page;
    rewrite H; reflexivity.
Qed.

Lemma gogame_cleanup_closed (s : State) : gameTree (gogame_cleanup s) = None.
Proof.
  unfold gogame_cleanup. destruct (gameTree s) eqn:E; [reflexivity | exact E].
Qed.

Lemma gogame_cleanup_comment (s : State) :
  comment_str (gogame_cleanup s) = comment_str s
  /\ prims (gogame_cleanup s) = prims s.
Proof. unfold gogame_cleanup. destruct (gameTree s); auto. Qed.



(** X15: a load that fails closes the game.  Whatever the state before
    (in particular with a record open), when [gogame_new_from_file] returns
    a code other than 0 no record is loaded any more:
    [gogame_isGameOpened] is 0, every navigation operation returns the
    state unchanged and the full-screen switch refuses; the code is 1 when
    the handle could not be allocated and 2 when the file could not be
    read. *)
Theorem failed_load_closes (malloc_ok : bool)
    (parsed : option (list SGFNode * SGFTree)) (sz : Z) (s s' : State)
    (code : Z) :
  gogame_new_from_file_call malloc_ok parsed sz s = Ret (s', code) ->
  code <> 0 ->
  (code = if malloc_ok then 2 else 1)
  /\ gogame_isGameOpened s' = 0
  /\ (forall fuel op, run_op fuel op s' = Ret s')
  /\ gogame_switch_fullComment s' = (s', 0).
Proof.
  unfold gogame_new_from_file_call. intros H Hcode.
  assert (Hclosed : gameTree s' = None /\ code = if malloc_ok then 2 else 1).
  { destruct malloc_ok; simpl in H.
    - destruct parsed as [[mem tree]|].
      + ret_inv H. ret_inv H. injection H as _ <-. congruence.
      + injection H as <- <-. split; reflexivity.
    - injection H as <- <-. split; [apply gogame_cleanup_closed | reflexivity]. }
  destruct Hclosed as [Hg Hc].
  split; [exact Hc|].
  split. { unfold gogame_isGameOpened. rewrite Hg. reflexivity. }
  split. { intros fuel op. apply run_op_no_record. exact Hg. }
  unfold gogame_switch_fullComment. rewrite Hg. reflexivity.
Qed.

Lemma failed_load_closes_witness :
  exists s',
    gogame_new_from_file_call true None 19 (sample_at [0; 1; 2; 4]%nat 4)
      = Ret (s', 2)
    /\ gogame_isGameOpened s' = 0
    /\ run_op 5 OpBack s' = Ret s'.
Proof.
  assert (exists s',
            gogame_new_from_file_call true None 19
              (sample_at [0; 1; 2; 4]%nat 4) = Ret (s', 2))
    as (s' & E) by (eexists; vm_compute; reflexivity).
  destruct (failed_load_closes true None 19 _ s' 2 E ltac:(discriminate))
    as (_ & Ho & Hop & _).
  exists s'. split; [exact E|]. split; [exact Ho | apply Hop].
Defined.

(** ** Property names *)

Lemma char_code_range (c : ascii) : 0 <= char_code c < 256.
Proof.
  unfold char_code. pose proof (N_ascii_bounded c). lia.
Qed.

Lemma char_code_inj (c c' : ascii) : char_code c = char_code c' -> c = c'.
Proof.
  unfold char_code. intros H. apply N2Z.inj in H.
  rewrite <- (ascii_N_embedding c), <- (ascii_N_embedding c'), H.
  reflexivity.
Qed.

(** The two bytes of [c1 | c2 << 8]. *)
Lemma packed_bytes (a b : Z) :
  0 <= a < 256 -> 0 <= b < 256 ->
  Z.land (Z.lor a (Z.shiftl b 8)) 255 = a
  /\ Z.shiftr (Z.lor a (Z.shiftl b 8)) 8 = b
  /\ Z.lor a (Z.shiftl b 8) = 256 * b + a.
Proof.
  intros Ha Hb.
  assert (H1 : Z.land (Z.lor a (Z.shiftl b 8)) 255 = a).
  { change 255 with (Z.ones 8). rewrite Z.land_lor_distr_l.
    rewrite !Z.land_ones by lia. rewrite Z.shiftl_mul_pow2 by lia.
    rewrite Z.mod_mul by lia. rewrite Z.lor_0_r.
    apply Z.mod_small. change (2 ^ 8) with 256. lia. }
  assert (H2 : Z.shiftr (Z.lor a (Z.shiftl b 8)) 8 = b).
  { rewrite Z.shiftr_lor. rewrite Z.shiftr_shiftl_l by lia.
    rewrite Z.shiftr_div_pow2 by lia. change (2 ^ 8) with 256.
    rewrite Z.div_small by lia. simpl. reflexivity. }
  split; [exact H1|]. split; [exact H2|].
  set (v := Z.lor a (Z.shiftl b 8)) in *.
  rewrite (Z.div_mod v 256) by lia.
  rewrite Z.shiftr_div_pow2 in H2 by lia. change (2 ^ 8) with 256 in H2.
  change 255 with (Z.ones 8) in H1. rewrite Z.land_ones in H1 by lia.
  change (2 ^ 8) with 256 in H1. rewrite H1, H2. reflexivity.
Qed.

Lemma to_short_small (v : Z) : 0 <= v < 32768 -> to_short v = v.
Proof.
  intros H. unfold to_short. rewrite Z.mod_small by lia. lia.
Qed.

(** X16: a property name of two ASCII characters reads back.  For two
    characters with codes below 128 (where a signed and an unsigned C
    [char] agree), the characters [test_readSGF] prints for the name built
    by [ENC_SGFPROP] ([name & 255] and [name >> 8]) are the two characters
    it was built from. *)
Theorem ENC_SGFPROP_reads_back (c1 c2 : ascii) :
  char_code c1 < 128 -> char_code c2 < 128 ->
  prop_name_chars (ENC_SGFPROP c1 c2) = (char_code c1, char_code c2).
Proof.
  intros H1 H2. pose proof (char_code_range c1) as R1.
  pose proof (char_code_range c2) as R2.
  destruct (packed_bytes (char_code c1) (char_code c2) R1 R2)
    as (Hl & Hs & Hv).
  unfold ENC_SGFPROP, prop_name_chars.
  rewrite to_short_small by (rewrite Hv; lia).
  rewrite Hl, Hs. reflexivity.
Qed.

Lemma ENC_SGFPROP_reads_back_witness :
  prop_name_chars (ENC_SGFPROP "S" "Q") = (char_code "S", char_code "Q").
Proof.
  apply ENC_SGFPROP_reads_back; vm_compute; reflexivity.
Defined.

(** X17: no two property names of ASCII characters share a code.  On
    characters with codes below 128 [ENC_SGFPROP] gives equal codes only
    for equal pairs, so the cases of the switch in
    [apply_sgf_cmds_to_board] and the look-up of the comment property
    never take one such name for another. *)
Theorem ENC_SGFPROP_injective (c1 c2 d1 d2 : ascii) :
  char_code c1 < 128 -> char_code c2 < 128 ->
  char_code d1 < 128 -> char_code d2 < 128 ->
  (ENC_SGFPROP c1 c2 = ENC_SGFPROP d1 d2 <-> c1 = d1 /\ c2 = d2).
Proof.
  intros Hc1 Hc2 Hd1 Hd2. split.
  - intros H. unfold ENC_SGFPROP in H.
    pose proof (char_code_range c1) as Rc1.
    pose proof (char_code_range c2) as Rc2.
    pose proof (char_code_range d1) as Rd1.
    pose proof (char_code_range d2) as Rd2.
    destruct (packed_bytes (char_code c1) (char_code c2) Rc1 Rc2)
      as (Hl & Hs & Hv).
    destruct (packed_bytes (char_code d1) (char_code d2) Rd1 Rd2)
      as (Hl' & Hs' & Hv').
    rewrite !to_short_small in H by (rewrite ?Hv, ?Hv'; lia).
    rewrite H in Hl, Hs.
    split; apply char_code_inj; congruence.
  - intros [-> ->]. reflexivity.
Qed.

(** The names of a black setup stone and of a white one differ. *)
Lemma ENC_SGFPROP_injective_witness :
  ENC_SGFPROP "A" "B" <> ENC_SGFPROP "A" "W".
Proof.
  intros H.
  apply (ENC_SGFPROP_injective "A" "B" "A" "W") in H;
    [| vm_compute; reflexivity ..].
  destruct H as [_ H]. discriminate H.
Defined.

(** ** The full-screen switch *)

(** X18: the full-screen switch is its own inverse.  With the flag 0 or 1
    (as it always is in a session), [gogame_switch_fullComment] returns 1
    exactly when a record is loaded and a comment is cached, it changes
    nothing but the flag, and a second call restores the state. *)
Theorem switch_fullComment_twice (s : State) :
  bShowFullScreenComment s = 0 \/ bShowFullScreenComment s = 1 ->
  (snd (gogame_switch_fullComment s) = 1
   <-> gameTree s <> None /\ comment_str s <> None)
  /\ (snd (gogame_switch_fullComment s) = 0
      -> fst (gogame_switch_fullComment s) = s)
  /\ fst (gogame_switch_fullComment s)
     = set_fullscreen (bShowFullScreenComment
                         (fst (gogame_switch_fullComment s))) s
  /\ fst (gogame_switch_fullComment (fst (gogame_switch_fullComment s))) = s.
Proof.
  intros H01. destruct s as [nds gt cur cs cu bs fl bd pr]. simpl in H01.
  unfold gogame_switch_fullComment. simpl.
  destruct gt as [tr|]; [destruct cs as [str|]|]; simpl.
  - split. { split; [intros _; split; discriminate | reflexivity]. }
    split; [discriminate|]. split; [reflexivity|].
    destruct H01 as [-> | ->]; reflexivity.
  - split. { split; [discriminate | intros [_ H]; congruence]. }
    split; [reflexivity|]. split; reflexivity.
  - split. { split; [discriminate | intros [H _]; congruence]. }
    split; [reflexivity|]. split; reflexivity.
Qed.

Lemma switch_fullComment_twice_witness :
  snd (gogame_switch_fullComment
         (set_comment (Some "good move"%string) 1
            (sample_at [0; 1; 2; 4]%nat 4))) = 1
  /\ fst (gogame_switch_fullComment
           (fst (gogame_switch_fullComment
                   (set_comment (Some "good move"%string) 1
                      (sample_at [0; 1; 2; 4]%nat 4)))))
     = set_comment (Some "good move"%string) 1 (sample_at [0; 1; 2; 4]%nat 4).
Proof.
  destruct (switch_fullComment_twice
              (set_comment (Some "good move"%string) 1
                 (sample_at [0; 1; 2; 4]%nat 4)))
    as (H1 & _ & _ & H2).
  - left. reflexivity.
  - split; [|exact H2]. apply H1. split; discriminate.
Defined.

(** ** A switch between nodes of different ply *)

Lemma undo_variation_ascend_step (fuel : nat) (s : State) (a b : nat)
    (path : list nat) (nda ndb : SGFNode) (f : Frame) (bd : Board) :
  a <> b -> board s = f :: bd -> curNode s = Some a ->
  nth_error (nodes s) a = Some nda -> nth_error (nodes s) b = Some ndb ->
  undo_variation_ascend (S fuel) s (Some a) (Some b) path
  = undo_variation_ascend fuel (stepped_back s bd (parent nda))
      (parent nda) (parent ndb) (b :: path).
Proof.
  intros Hab Hb Hc Ha Hnb. simpl.
  apply Nat.eqb_neq in Hab. rewrite Hab.
  unfold board_undo. rewrite Hb. simpl board_pop. cbv iota beta.
  simpl curNode. rewrite Hc.
  rewrite (deref_some _ a nda) by (simpl; assumption).
  simpl bind at 2. simpl bind at 1.
  rewrite (deref_some _ a nda) by (simpl; assumption).
  simpl bind at 1.
  rewrite (deref_some _ b ndb) by (simpl; assumption).
  simpl bind at 1. reflexivity.
Qed.

Section UnequalPly.

Variables (h : list SGFNode) (sz : Z) (t : SGFTree) (r : nat).
Hypothesis Hwf : wf_tree h r.

Abbreviation Inv := (inv h sz t r).

(** With the walkers on different plies one of them runs off the root. *)
Lemma undo_variation_ascend_unequal (a : nat) (la : list nat) :
  root_path h r a la ->
  forall b lb s path fuel,
    root_path h r b lb -> length la <> length lb ->
    Inv s a la -> (length la < fuel)%nat ->
    exists s' a' b' path',
      undo_variation_ascend fuel s (Some a) (Some b) path
        = Ret (s', a', b', path')
      /\ (a' = None \/ b' = None).
Proof.
  induction 1 as [nd Hn Hp | p l a nd Hpath IH Hn Hp];
    intros b lb s path fuel Hb Hlen HI Hfuel.
  - destruct (root_path_node h r b lb Hb) as (ndb & Hndb).
    destruct (parent ndb) as [q|] eqn:Hq.
    2:{ destruct (root_path_inv_root h r b lb ndb Hb Hndb Hq) as [_ ->].
        simpl in Hlen. congruence. }
    assert (Hab : r <> b) by (intros ->; congruence).
    destruct (inv_board h sz t r s r [r] nd HI Hn) as (l' & _ & Hbd).
    destruct (inv_facts h sz t r s r [r] HI) as (Hh & _ & _ & Hc & _).
    destruct fuel as [|[|fuel]]; [simpl in Hfuel; lia | simpl in Hfuel; lia|].
    rewrite (undo_variation_ascend_step _ s r b path nd ndb _ _ Hab Hbd Hc)
      by (rewrite Hh; assumption).
    rewrite Hp. simpl. eauto 10.
  - assert (Hla : root_path h r a (l ++ [a]))
      by (eapply root_path_step; eauto).
    destruct (root_path_node h r b lb Hb) as (ndb & Hndb).
    assert (Hab : a <> b).
    { intros ->. apply Hlen. f_equal.
      apply (root_path_unique h r b _ Hla lb Hb). }
    destruct (inv_board h sz t r s a (l ++ [a]) nd HI Hn) as (l' & El & Hbd).
    apply app_inj_tail in El. destruct El as [<- _].
    destruct (inv_facts h sz t r s a (l ++ [a]) HI) as (Hh & _ & _ & Hc & _).
    destruct (inv_back h sz t r Hwf s a p (l ++ [a]) nd HI Hn Hp)
      as (l' & ndp & El & _ & _ & _ & HI').
    apply app_inj_tail in El. destruct El as [<- _].
    rewrite length_app in Hfuel, Hlen. simpl in Hfuel, Hlen.
    destruct (root_path_last h r p l Hpath) as (l0 & El0).
    assert (Hl1 : (1 <= length l)%nat).
    { subst l. rewrite length_app. simpl. lia. }
    destruct fuel as [|[|fuel]]; [lia | lia |].
    rewrite (undo_variation_ascend_step _ s a b path nd ndb _ _ Hab Hbd Hc)
      by (rewrite Hh; assumption).
    rewrite Hp.
    destruct (parent ndb) as [q|] eqn:Hq.
    + destruct (root_path_inv_parent h r b q lb ndb Hb Hndb Hq)
        as (l2 & -> & Hq').
      rewrite length_app in Hlen. simpl in Hlen.
      apply (IH q l2 _ (b :: path) (S fuel) Hq' ltac:(lia) HI' ltac:(lia)).
    + simpl. eauto 10.
Qed.

End UnequalPly.

(** X19: a switch between nodes of different ply aborts.  On a well-formed
    tree with the projection in step, [undo_variation] from the cursor to a
    node whose root path has another length walks one of its two pointers
    off the root and stops on the assertion that follows the loop ("this
    should never happen"); it never returns. *)
Theorem undo_variation_unequal_ply_aborts (s : State) (r a b : nat)
    (la lb : list nat) (fuel : nat) :
  gameTree s = Some {| root := Some r |} ->
  wf_tree (nodes s) r ->
  c_true (bShowFullScreenComment s) = false ->
  at_node s r a la ->
  root_path (nodes s) r b lb ->
  length la <> length lb ->
  (length la < fuel)%nat ->
  undo_variation fuel (Some a) (Some b) s = AssertFail.
Proof.
  intros Ht Hwf Hf Hat Hb Hlen Hfuel.
  pose proof (at_node_inv s r a la Ht Hf Hat) as HI.
  destruct Hat as (_ & Hrp & _).
  destruct (undo_variation_ascend_unequal _ _ _ r Hwf a la Hrp b lb s []
              fuel Hb Hlen HI Hfuel)
    as (s' & a' & b' & path' & E & Hnone).
  unfold undo_variation. simpl. rewrite E. simpl.
  destruct Hnone as [-> | ->]; [reflexivity|].
  destruct a'; reflexivity.
Qed.

Lemma undo_variation_unequal_ply_aborts_witness :
  undo_variation 5 (Some 4%nat) (Some 3%nat) (sample_at [0; 1; 2; 4]%nat 4)
  = AssertFail.
Proof.
  apply (undo_variation_unequal_ply_aborts (sample_at [0; 1; 2; 4]%nat 4)
           0 4 3 [0; 1; 2; 4]%nat [0; 1; 3]%nat 5).
  - reflexivity.
  - exact sample_wf.
  - reflexivity.
  - split; [reflexivity|]. split; [exact sample_path_C | reflexivity].
  - build_root_path.
  - simpl. lia.
  - simpl. lia.
Defined.

(** ** Navigation does not crash *)



(** * The navigation code over the board calls *)

(** ** Where the two projections agree *)

Lemma calls_board_apply_sent (b : Board) (f : Frame) :
  f <> [] -> Calls.board_apply b f = board_apply b f.
Proof. destruct f; [congruence | reflexivity]. Qed.

(** Applying a node that sends something is the spec's [apply(node)]. *)
Lemma calls_apply_sent (s : State) (n : nat) (nd : SGFNode) :
  curNode s = Some n -> nth_error (nodes s) n = Some nd ->
  node_cmds (boardSize s) nd <> [] ->
  Calls.apply_sgf_cmds_to_board s = apply_sgf_cmds_to_board s.
Proof.
  intros Hc Hn Hne.
  unfold Calls.apply_sgf_cmds_to_board, apply_sgf_cmds_to_board.
  rewrite Hc. rewrite (deref_some s n nd Hn).
  destruct (gameTree s); simpl; [|reflexivity].
  rewrite (calls_board_apply_sent _ _ Hne).
  destruct (node_cmds (boardSize s) nd); [congruence | reflexivity].
Qed.

(** Applying a node that sends nothing changes nothing. *)
Lemma calls_apply_silent (s : State) (n : nat) (nd : SGFNode) :
  gameTree s <> None ->
  curNode s = Some n -> nth_error (nodes s) n = Some nd ->
  node_cmds (boardSize s) nd = [] ->
  Calls.apply_sgf_cmds_to_board s = Ret s.
Proof.
  intros Ht Hc Hn He. unfold Calls.apply_sgf_cmds_to_board.
  rewrite Hc. rewrite (deref_some s n nd Hn).
  destruct (gameTree s); [|congruence]. simpl. rewrite He. reflexivity.
Qed.

Lemma sends_below_rootb_sound (h : list SGFNode) (sz : Z) :
  sends_below_rootb h sz = true -> sends_below_root h sz.
Proof.
  unfold sends_below_rootb, sends_below_root. intros H n nd Hn Hp.
  rewrite forallb_forall in H.
  specialize (H nd (nth_error_In _ _ Hn)).
  destruct (parent nd); [|congruence]. simpl in H.
  destruct (node_cmds sz nd); discriminate.
Qed.

Lemma sample_sends : sends_below_root sample_nodes 19.
Proof. apply sends_below_rootb_sound. reflexivity. Qed.

Lemma calls_move_forward_update_eq (bUpdate : Z) (s : State) (n c : nat)
    (nd ndc : SGFNode) :
  gameTree s <> None ->
  c_true (bShowFullScreenComment s) = false ->
  curNode s = Some n ->
  nth_error (nodes s) n = Some nd ->
  child nd = Some c ->
  nth_error (nodes s) c = Some ndc ->
  node_cmds (boardSize s) ndc <> [] ->
  Calls.gogame_move_forward_update bUpdate s =
    if c_true bUpdate then updateCommentStr (stepped_forward s c ndc)
    else Ret (stepped_forward s c ndc).
Proof.
  intros Ht Hf Hc Hn Hch Hnc Hne.
  rewrite <- (gogame_move_forward_update_eq bUpdate s n c nd ndc Ht Hf Hc Hn
                Hch Hnc).
  unfold Calls.gogame_move_forward_update, gogame_move_forward_update.
  destruct (gameTree s); [|reflexivity].
  rewrite Hf, Hc. rewrite (deref_some s n nd Hn). simpl. rewrite Hch.
  rewrite (calls_apply_sent (set_curNode (Some c) s) c ndc);
    [reflexivity | reflexivity | exact Hnc | exact Hne].
Qed.

Lemma calls_move_forward_update_leaf (bUpdate : Z) (s : State) (n : nat)
    (nd : SGFNode) :
  curNode s = Some n ->
  nth_error (nodes s) n = Some nd ->
  child nd = None ->
  Calls.gogame_move_forward_update bUpdate s = Ret s.
Proof.
  intros Hc Hn Hch. unfold Calls.gogame_move_forward_update.
  destruct (gameTree s); [|reflexivity].
  destruct (c_true (bShowFullScreenComment s)); [reflexivity|].
  rewrite Hc. rewrite (deref_some s n nd Hn). simpl. rewrite Hch. reflexivity.
Qed.

(** A step back on an empty board: the undo fails and the cursor stays. *)
Lemma gogame_move_back_update_empty (bUpdate : Z) (s : State) :
  gameTree s <> None ->
  c_true (bShowFullScreenComment s) = false ->
  board s = [] ->
  gogame_move_back_update bUpdate s =
    if c_true bUpdate then updateCommentStr (set_board [] (PrimUndo false) s)
    else Ret (set_board [] (PrimUndo false) s).
Proof.
  intros Ht Hf Hb. unfold gogame_move_back_update.
  destruct (gameTree s); [|congruence].
  rewrite Hf. unfold board_undo. rewrite Hb. reflexivity.
Qed.

Lemma root_path_tail_parent (h : list SGFNode) (r n : nat) (l : list nat) :
  root_path h r n (l ++ [n]) -> l <> [] ->
  exists nd p, nth_error h n = Some nd /\ parent nd = Some p.
Proof.
  intros H Hl. remember (l ++ [n]) as l0 eqn:E.
  destruct H as [nd Hn Hp | p l1 n nd Hpath Hn Hp].
  - destruct l as [|x l]; [congruence|].
    destruct l; discriminate.
  - eauto.
Qed.

Lemma nextEvt_cond_at (s : State) (n : nat) (nd : SGFNode) :
  curNode s = Some n -> nth_error (nodes s) n = Some nd ->
  nextEvt_cond s = Ret (fwd_continue nd).
Proof.
  intros Hc Hn. unfold nextEvt_cond. rewrite Hc.
  rewrite (deref_some s n nd Hn). reflexivity.
Qed.

Section CallsNavigation.

Variables (h : list SGFNode) (sz : Z) (t : SGFTree) (r : nat).
Hypothesis Hwf : wf_tree h r.
Hypothesis Hsend : sends_below_root h sz.

Abbreviation CInv := (Calls.inv h sz t r).

Lemma calls_replay_snoc (l : list nat) (n p : nat) (nd : SGFNode) :
  nth_error h n = Some nd -> parent nd = Some p ->
  Calls.replay h sz (l ++ [n]) = node_cmds sz nd :: Calls.replay h sz l.
Proof.
  intros Hn Hp. unfold Calls.replay. rewrite fold_left_app. simpl.
  unfold Calls.apply_node at 1. rewrite Hn.
  rewrite calls_board_apply_sent; [reflexivity|].
  apply (Hsend n nd Hn). congruence.
Qed.

Lemma cinv_set_comment (s : State) (n : nat) (l : list nat) c u :
  CInv s n l -> CInv (set_comment c u s) n l.
Proof. unfold Calls.inv. simpl. tauto. Qed.

Lemma cinv_facts (s : State) (n : nat) (l : list nat) :
  CInv s n l ->
  nodes s = h /\ gameTree s <> None
  /\ c_true (bShowFullScreenComment s) = false /\ curNode s = Some n
  /\ exists nd, nth_error h n = Some nd.
Proof.
  intros (Hh & Hsz & Ht & Hf & Hc & Hrp & Hbd).
  repeat (split; [congruence|]). eapply root_path_node; eauto.
Qed.

Lemma cinv_updateCommentStr (s : State) (n : nat) (l : list nat) :
  CInv s n l -> exists c u, updateCommentStr s = Ret (set_comment c u s).
Proof.
  intros HI. destruct (cinv_facts s n l HI) as (Hh & Ht & _ & Hc & nd & Hn).
  apply (updateCommentStr_ret s n nd); [assumption | assumption |].
  rewrite Hh. assumption.
Qed.

Lemma cinv_forward (s : State) (n c : nat) (l : list nat) (nd : SGFNode) :
  CInv s n l -> nth_error h n = Some nd -> child nd = Some c ->
  exists ndc,
    nth_error h c = Some ndc /\ move_num ndc = move_num nd + 1
    /\ Calls.gogame_move_forward_update 0 s = Ret (stepped_forward s c ndc)
    /\ (forall bUpdate,
          Calls.gogame_move_forward_update bUpdate s =
            if c_true bUpdate then updateCommentStr (stepped_forward s c ndc)
            else Ret (stepped_forward s c ndc))
    /\ CInv (stepped_forward s c ndc) c (l ++ [c]).
Proof.
  intros (Hh & Hsz & Ht & Hf & Hc & Hp & Hb) Hn Hch.
  destruct (wf_child h r Hwf n nd c Hn Hch) as (ndc & Hndc & Hpar).
  destruct (wf_parent h r Hwf c ndc n Hndc Hpar) as (nd' & Hn' & Hm & _).
  assert (nd' = nd) by congruence. subst nd'.
  assert (Hne : node_cmds (boardSize s) ndc <> []).
  { rewrite Hsz. apply (Hsend c ndc Hndc). congruence. }
  assert (Heq : forall bUpdate,
             Calls.gogame_move_forward_update bUpdate s =
               if c_true bUpdate then updateCommentStr (stepped_forward s c ndc)
               else Ret (stepped_forward s c ndc)).
  { intros bUpdate.
    apply (calls_move_forward_update_eq bUpdate s n c nd ndc);
      try rewrite Hh; auto. congruence. }
  exists ndc. split; [assumption|]. split; [assumption|].
  split; [exact (Heq 0)|]. split; [exact Heq|].
  unfold Calls.inv, stepped_forward. simpl.
  repeat (split; [assumption|]). split; [reflexivity|]. split.
  - eapply root_path_step; eauto.
  - rewrite Hsz, Hb. unfold board_apply.
    symmetry. apply (calls_replay_snoc l c n ndc); assumption.
Qed.

Lemma cinv_board (s : State) (n p : nat) (l : list nat) (nd : SGFNode) :
  CInv s n l -> nth_error h n = Some nd -> parent nd = Some p ->
  exists l', l = l' ++ [n]
             /\ board s = node_cmds sz nd :: Calls.replay h sz l'.
Proof.
  intros (Hh & Hsz & Ht & Hf & Hc & Hp & Hb) Hn Hpar.
  destruct (root_path_last h r n l Hp) as (l' & ->).
  exists l'. split; [reflexivity|].
  rewrite Hb. apply (calls_replay_snoc l' n p nd); assumption.
Qed.

Lemma cinv_back (s : State) (n p : nat) (l : list nat) (nd : SGFNode) :
  CInv s n l -> nth_error h n = Some nd -> parent nd = Some p ->
  exists l' ndp,
    l = l' ++ [n]
    /\ nth_error h p = Some ndp /\ move_num nd = move_num ndp + 1
    /\ gogame_move_back_update 0 s
       = Ret (stepped_back s (Calls.replay h sz l') (Some p))
    /\ (forall bUpdate,
          gogame_move_back_update bUpdate s =
            if c_true bUpdate
            then updateCommentStr
                   (stepped_back s (Calls.replay h sz l') (Some p))
            else Ret (stepped_back s (Calls.replay h sz l') (Some p)))
    /\ CInv (stepped_back s (Calls.replay h sz l') (Some p)) p l'.
Proof.
  intros HI Hn Hpar.
  destruct (cinv_board s n p l nd HI Hn Hpar) as (l' & El & Hb').
  destruct HI as (Hh & Hsz & Ht & Hf & Hc & Hp & Hb).
  destruct (wf_parent h r Hwf n nd p Hn Hpar) as (ndp & Hndp & Hm & _).
  destruct (root_path_inv_parent h r n p l nd Hp Hn Hpar) as (l'' & El' & Hp').
  assert (l'' = l').
  { rewrite El in El'. apply app_inj_tail in El'. symmetry. tauto. }
  subst l''.
  assert (Heq : forall bUpdate,
             gogame_move_back_update bUpdate s =
               if c_true bUpdate
               then updateCommentStr
                      (stepped_back s (Calls.replay h sz l') (Some p))
               else Ret (stepped_back s (Calls.replay h sz l') (Some p))).
  { intros bUpdate.
    rewrite (gogame_move_back_update_eq bUpdate s n nd (node_cmds sz nd)
               (Calls.replay h sz l'));
      try rewrite Hh; auto; try congruence.
    rewrite Hpar. reflexivity. }
  exists l', ndp. split; [assumption|]. split; [assumption|].
  split; [assumption|]. split; [exact (Heq 0)|]. split; [exact Heq|].
  unfold Calls.inv, stepped_back. simpl. auto 10.
Qed.

(** With the cursor on the root the board holds the frame of the root, if
    the root sent anything, and nothing else. *)
Lemma cinv_root (s : State) (n : nat) (l : list nat) (nd : SGFNode) :
  CInv s n l -> nth_error h n = Some nd -> parent nd = None ->
  n = r /\ l = [r]
  /\ board s = Calls.board_apply [] (node_cmds sz nd).
Proof.
  intros (Hh & Hsz & Ht & Hf & Hc & Hp & Hb) Hn Hpar.
  destruct (root_path_inv_root h r n l nd Hp Hn Hpar) as [-> ->].
  split; [reflexivity|]. split; [reflexivity|].
  rewrite Hb. unfold Calls.replay. simpl. unfold Calls.apply_node.
  rewrite Hn. reflexivity.
Qed.

(** Stepping back from the root of a record whose root sent nothing: the
    undo fails, the cursor stays. *)
Lemma cinv_back_root_silent (s : State) (n : nat) (l : list nat)
    (nd : SGFNode) :
  CInv s n l -> nth_error h n = Some nd -> parent nd = None ->
  node_cmds sz nd = [] ->
  (forall bUpdate,
      gogame_move_back_update bUpdate s =
        if c_true bUpdate
        then updateCommentStr (set_board [] (PrimUndo false) s)
        else Ret (set_board [] (PrimUndo false) s))
  /\ CInv (set_board [] (PrimUndo false) s) n l.
Proof.
  intros HI Hn Hpar He.
  destruct (cinv_root s n l nd HI Hn Hpar) as (-> & -> & Hb).
  rewrite He in Hb. simpl in Hb.
  destruct (cinv_facts s r [r] HI) as (Hh & Ht & Hf & Hc & _).
  split.
  - intros bUpdate. apply gogame_move_back_update_empty; assumption.
  - destruct HI as (_ & Hsz & Ht' & _ & _ & Hp & Hb').
    unfold Calls.inv. simpl. rewrite <- Hb', Hb. auto 10.
Qed.

(** Stepping back from the root of a record whose root sent stones: the
    frame of the root is undone and the cursor becomes NULL. *)
Lemma cinv_back_root_sent (s : State) (n : nat) (l : list nat)
    (nd : SGFNode) :
  CInv s n l -> nth_error h n = Some nd -> parent nd = None ->
  node_cmds sz nd <> [] ->
  forall bUpdate,
    gogame_move_back_update bUpdate s =
      if c_true bUpdate then updateCommentStr (stepped_back s [] None)
      else Ret (stepped_back s [] None).
Proof.
  intros HI Hn Hpar Hne bUpdate.
  destruct (cinv_root s n l nd HI Hn Hpar) as (-> & -> & Hb).
  rewrite (calls_board_apply_sent _ _ Hne) in Hb. unfold board_apply in Hb.
  destruct (cinv_facts s r [r] HI) as (Hh & Ht & Hf & Hc & _).
  rewrite (gogame_move_back_update_eq bUpdate s r nd (node_cmds sz nd) []);
    try rewrite Hh; auto.
  rewrite Hpar. reflexivity.
Qed.


(** *** The linear walks *)

Lemma calls_page_back_loop_exact (fuel : nat) (page : Z) :
  forall s n l nd,
    CInv s n l -> nth_error h n = Some nd -> page <= move_num nd ->
    (length l <= fuel)%nat ->
    exists s' n' l' sfx nd',
      page_back_loop fuel page s = Ret s'
      /\ CInv s' n' l' /\ l = l' ++ sfx
      /\ nth_error h n' = Some nd' /\ move_num nd' = Z.max page 0
      /\ prims s' = prims s ++ repeat (PrimUndo true) (length sfx)
      /\ comment_str s' = comment_str s.
Proof.
  induction fuel as [|fuel IH]; intros s n l nd HI Hn Hle Hfuel.
  - assert (Hrp : root_path h r n l) by (destruct HI; tauto).
    destruct (root_path_last h r n l Hrp) as (l' & ->).
    rewrite length_app in Hfuel. simpl in Hfuel. lia.
  - simpl.
    destruct (cinv_facts s n l HI) as (Hh & _ & _ & Hc & _).
    rewrite Hc. rewrite (deref_some s n nd) by (rewrite Hh; assumption).
    simpl.
    destruct (parent nd) as [p|] eqn:Hpar; simpl.
    + destruct (cinv_back s n p l nd HI Hn Hpar)
        as (l' & ndp & El & Hndp & Hm & E & _ & HI').
      pose proof (move_num_nonneg h r Hwf p ndp Hndp) as H0.
      destruct (page <? move_num nd) eqn:Elt.
      * apply Z.ltb_lt in Elt. rewrite E. simpl.
        destruct (IH _ p l' ndp HI' Hndp ltac:(lia)) as
          (s' & n' & l'' & sfx & nd' & E' & HI'' & El' & Hn' & Hm' & Hpr & Hcm).
        { subst l. rewrite length_app in Hfuel. simpl in Hfuel. lia. }
        exists s', n', l'', (sfx ++ [n]), nd'.
        split; [exact E'|]. split; [exact HI''|].
        split. { rewrite El, El'. rewrite app_assoc. reflexivity. }
        split; [exact Hn'|]. split; [exact Hm'|].
        split; [|rewrite Hcm; reflexivity].
        rewrite Hpr. simpl. rewrite length_app. simpl.
        rewrite Nat.add_1_r. rewrite <- app_assoc. reflexivity.
      * apply Z.ltb_ge in Elt.
        exists s, n, l, [], nd. simpl. rewrite !app_nil_r.
        repeat (split; [solve [auto]|]). split; [lia | auto].
    + pose proof (orphan_is_root h r Hwf n nd Hn Hpar) as Hm.
      exists s, n, l, [], nd. simpl. rewrite !app_nil_r.
      repeat (split; [solve [auto]|]). split; [lia | auto].
Qed.

Lemma calls_page_forward_loop_exact (fuel : nat) (page : Z) :
  forall s n l nd,
    CInv s n l -> nth_error h n = Some nd -> move_num nd <= page ->
    (length h < fuel + length l)%nat ->
    exists s' n' sfx nd',
      Calls.page_forward_loop fuel page s = Ret s'
      /\ CInv s' n' (l ++ sfx) /\ main_line h n sfx
      /\ nth_error h n' = Some nd'
      /\ (move_num nd' = page \/ (child nd' = None /\ move_num nd' < page))
      /\ prims s' = prims s ++ map PrimApply sfx
      /\ comment_str s' = comment_str s.
Proof.
  induction fuel as [|fuel IH]; intros s n l nd HI Hn Hle Hfuel.
  - assert (Hrp : root_path h r n l) by (destruct HI; tauto).
    pose proof (root_path_bound h r Hwf n l Hrp). simpl in Hfuel. lia.
  - simpl.
    destruct (cinv_facts s n l HI) as (Hh & _ & _ & Hc & _).
    rewrite Hc. rewrite (deref_some s n nd) by (rewrite Hh; assumption).
    simpl.
    destruct (child nd) as [c|] eqn:Hch; simpl.
    + destruct (page >? move_num nd) eqn:Egt.
      * apply Z.gtb_lt in Egt.
        destruct (cinv_forward s n c l nd HI Hn Hch)
          as (ndc & Hndc & Hm & E & _ & HI').
        rewrite E. simpl.
        destruct (IH _ c (l ++ [c]) ndc HI' Hndc ltac:(lia)) as
          (s' & n' & sfx & nd' & E' & HI'' & Hml & Hn' & Hex & Hpr & Hcm).
        { rewrite length_app. simpl. lia. }
        exists s', n', (c :: sfx), nd'.
        split; [exact E'|].
        split. { rewrite <- app_assoc in HI''. exact HI''. }
        split. { simpl. exists nd. auto. }
        split; [exact Hn'|]. split; [exact Hex|].
        split; [|rewrite Hcm; reflexivity].
        rewrite Hpr. simpl. rewrite <- app_assoc. reflexivity.
      * assert (move_num nd = page).
        { rewrite Z.gtb_ltb in Egt. apply Z.ltb_ge in Egt. lia. }
        exists s, n, [], nd. simpl. rewrite !app_nil_r.
        repeat (split; [solve [auto]|]). auto.
    + exists s, n, [], nd. simpl. rewrite !app_nil_r.
      repeat (split; [solve [auto]|]).
      split; [|auto].
      destruct (Z.eq_dec (move_num nd) page); [left; assumption|].
      right. split; [assumption | lia].
Qed.

Lemma calls_nextEvt_loop_exact (fuel : nat) :
  forall s n l,
    CInv s n l -> (length h < fuel + length l)%nat ->
    exists s' n' sfx,
      Calls.nextEvt_loop fuel s = Ret s'
      /\ CInv s' n' (l ++ sfx) /\ main_line h n sfx
      /\ prims s' = prims s ++ map PrimApply sfx.
Proof.
  induction fuel as [|fuel IH]; intros s n l HI Hfuel.
  - assert (Hrp : root_path h r n l) by (destruct HI; tauto).
    pose proof (root_path_bound h r Hwf n l Hrp). simpl in Hfuel. lia.
  - simpl.
    destruct (cinv_facts s n l HI) as (Hh & _ & _ & Hc & nd & Hn).
    rewrite (nextEvt_cond_at s n nd Hc) by (rewrite Hh; exact Hn). simpl.
    destruct (fwd_continue nd) eqn:Ec.
    + assert (exists c, child nd = Some c) as (c & Hch).
      { unfold fwd_continue in Ec. destruct (child nd); [eauto|discriminate]. }
      destruct (cinv_forward s n c l nd HI Hn Hch)
        as (ndc & Hndc & _ & E & _ & HI').
      rewrite E. simpl.
      destruct (IH _ c (l ++ [c]) HI') as (s' & n' & sfx & E' & HI'' & Hml & Hpr).
      { rewrite length_app. simpl. lia. }
      exists s', n', (c :: sfx).
      split; [exact E'|].
      split. { rewrite <- app_assoc in HI''. exact HI''. }
      split. { simpl. exists nd. auto. }
      rewrite Hpr. simpl. rewrite <- app_assoc. reflexivity.
    + exists s, n, []. simpl. rewrite !app_nil_r. auto.
Qed.

Lemma calls_prevEvt_cond_ret (s : State) (n : nat) (l : list nat)
    (nd : SGFNode) :
  CInv s n l -> nth_error h n = Some nd ->
  exists b, prevEvt_cond s = Ret b /\ (parent nd = None -> b = false).
Proof.
  intros HI Hn.
  destruct (cinv_facts s n l HI) as (Hh & _ & _ & Hc & _).
  unfold prevEvt_cond. rewrite Hc.
  rewrite (deref_some s n nd) by (rewrite Hh; assumption). simpl.
  destruct (parent nd) as [p|] eqn:Hpar; [|eauto].
  destruct (is_some (next nd)); [eexists; split; [reflexivity | discriminate]|].
  destruct (wf_parent h r Hwf n nd p Hn Hpar) as (ndp & Hndp & _ & _ & Hch).
  rewrite (deref_some s p ndp) by (rewrite Hh; assumption). simpl.
  destruct (child ndp) as [c|] eqn:Hc'; [|congruence].
  destruct (wf_child h r Hwf p ndp c Hndp Hc') as (ndc & Hndc & _).
  rewrite (deref_some s c ndc) by (rewrite Hh; assumption). simpl.
  destruct (is_some (next ndc));
    eexists; (split; [reflexivity | discriminate]).
Qed.

Lemma calls_prevEvt_loop_exact (fuel : nat) :
  forall s n l,
    CInv s n l -> (length l <= fuel)%nat ->
    exists s' n' l' sfx,
      prevEvt_loop fuel s = Ret s'
      /\ CInv s' n' l' /\ l = l' ++ sfx
      /\ prims s' = prims s ++ repeat (PrimUndo true) (length sfx).
Proof.
  induction fuel as [|fuel IH]; intros s n l HI Hfuel.
  - assert (Hrp : root_path h r n l) by (destruct HI; tauto).
    destruct (root_path_last h r n l Hrp) as (l' & ->).
    rewrite length_app in Hfuel. simpl in Hfuel. lia.
  - simpl.
    destruct (cinv_facts s n l HI) as (Hh & _ & _ & Hc & nd & Hn).
    destruct (calls_prevEvt_cond_ret s n l nd HI Hn) as (b & Eb & Hroot).
    rewrite Eb. simpl. destruct b.
    + destruct (parent nd) as [p|] eqn:Hpar.
      * destruct (cinv_back s n p l nd HI Hn Hpar)
          as (l' & ndp & El & _ & _ & E & _ & HI').
        rewrite E. simpl.
        destruct (IH _ p l' HI') as (s' & n' & l'' & sfx & E' & HI'' & El' & Hpr).
        { subst l. rewrite length_app in Hfuel. simpl in Hfuel. lia. }
        exists s', n', l'', (sfx ++ [n]).
        split; [exact E'|]. split; [exact HI''|].
        split. { rewrite El, El'. rewrite app_assoc. reflexivity. }
        rewrite Hpr. simpl. rewrite length_app. simpl.
        rewrite Nat.add_1_r. rewrite <- app_assoc. reflexivity.
      * specialize (Hroot eq_refl). discriminate.
    + exists s, n, l, []. simpl. rewrite !app_nil_r. auto.
Qed.

(** *** The variation switch *)

Lemma calls_undo_variation_ascend_ok (a : nat) (la : list nat) :
  root_path h r a la ->
  forall b lb s path fuel,
    root_path h r b lb -> length la = length lb ->
    CInv s a la -> (length la <= fuel)%nat ->
    exists s' c lc sa sb,
      undo_variation_ascend fuel s (Some a) (Some b) path
        = Ret (s', Some c, Some c, sb ++ path)
      /\ CInv s' c lc
      /\ la = lc ++ sa /\ lb = lc ++ sb /\ length sa = length sb
      /\ (forall x y, hd_error sa = Some x -> hd_error sb = Some y -> x <> y)
      /\ prims s' = prims s ++ repeat (PrimUndo true) (length sa)
      /\ comment_str s' = comment_str s
      /\ comment_update s' = comment_update s.
Proof.
  induction 1 as [nd Hn Hp | p l a nd Hpath IH Hn Hp];
    intros b lb s path fuel Hb Hlen HI Hfuel.
  - (* both walkers are on the root *)
    destruct lb as [|x lb]; [discriminate|].
    destruct lb; [|discriminate].
    destruct (root_path_single h r b x Hb) as [-> ->].
    destruct fuel as [|fuel]; [simpl in Hfuel; lia|].
    exists s, r, [r], [], []. simpl. rewrite Nat.eqb_refl.
    rewrite app_nil_r. conj_auto.
  - destruct fuel as [|fuel]; [rewrite length_app in Hfuel; simpl in Hfuel; lia|].
    simpl. destruct (Nat.eqb a b) eqn:Eab.
    + apply Nat.eqb_eq in Eab. subst b.
      assert (Hla : root_path h r a (l ++ [a]))
        by (eapply root_path_step; eauto).
      rewrite <- (root_path_unique h r a _ Hla lb Hb).
      exists s, a, (l ++ [a]), [], []. simpl.
      rewrite !app_nil_r. conj_auto.
    + apply Nat.eqb_neq in Eab.
      destruct (root_path_node h r b lb Hb) as (ndb & Hndb).
      destruct (parent ndb) as [q|] eqn:Hq.
      2:{ destruct (root_path_inv_root h r b lb ndb Hb Hndb Hq) as [_ ->].
          rewrite length_app in Hlen. simpl in Hlen.
          destruct (root_path_last h r p l Hpath) as (l0 & ->).
          rewrite length_app in Hlen. simpl in Hlen. lia. }
      destruct (root_path_inv_parent h r b q lb ndb Hb Hndb Hq)
        as (l2 & -> & Hq').
      assert (HI0 := HI).
      destruct HI0 as (Hh & Hsz & Ht & Hf & Hc & Hrp & Hbd).
      destruct (cinv_back s a p (l ++ [a]) nd HI Hn Hp)
        as (l' & ndp & El & Hndp & _ & _ & _ & HI').
      apply app_inj_tail in El. destruct El as [<- _].
      destruct (cinv_board s a p (l ++ [a]) nd HI Hn Hp) as (l'' & El & Hbd').
      apply app_inj_tail in El. destruct El as [<- _].
      unfold board_undo. rewrite Hbd'. simpl board_pop. cbv iota beta.
      simpl curNode. rewrite Hc.
      rewrite (deref_some _ a nd) by (simpl; rewrite Hh; assumption).
      simpl bind at 2. simpl bind at 1.
      rewrite Hp.
      rewrite (deref_some _ a nd) by (simpl; rewrite Hh; assumption).
      simpl bind at 1.
      rewrite (deref_some _ b ndb) by (simpl; rewrite Hh; assumption).
      simpl bind at 1. rewrite Hp, Hq.
      rewrite !length_app in Hlen. rewrite length_app in Hfuel.
      simpl in Hlen, Hfuel.
      destruct (IH q l2 (stepped_back s (Calls.replay h sz l) (Some p))
                  (b :: path) fuel Hq' ltac:(lia) HI' ltac:(lia))
        as (s' & c & lc & sa & sb & E & HI'' & Ela & Elb & Hlen' & Hhd
            & Hpr & Hcs & Hcu).
      exists s', c, lc, (sa ++ [a]), (sb ++ [b]).
      split. { unfold stepped_back in E. rewrite E. rewrite <- app_assoc.
               reflexivity. }
      split; [assumption|].
      split. { rewrite Ela. rewrite app_assoc. reflexivity. }
      split. { rewrite Elb. rewrite app_assoc. reflexivity. }
      split. { rewrite !length_app. simpl. lia. }
      split.
      { intros x y Hx Hy. destruct sa as [|x0 sa]; destruct sb as [|y0 sb];
          try discriminate.
        - simpl in Hx, Hy. congruence.
        - simpl in Hx, Hy. apply (Hhd x y); simpl; assumption. }
      split.
      { rewrite Hpr. simpl. rewrite length_app. simpl.
        rewrite Nat.add_1_r. rewrite <- app_assoc. reflexivity. }
      split; [rewrite Hcs; reflexivity | rewrite Hcu; reflexivity].
Qed.

Lemma calls_undo_variation_replay_ok (sb : list nat) :
  forall s c lc b,
    CInv s c lc -> root_path h r b (lc ++ sb) ->
    exists s',
      Calls.undo_variation_replay sb s = Ret s'
      /\ CInv s' b (lc ++ sb)
      /\ prims s' = prims s ++ map PrimApply sb
      /\ comment_str s' = comment_str s
      /\ comment_update s' = comment_update s.
Proof.
  induction sb as [|n sb IH]; intros s c lc b HI Hb.
  - rewrite app_nil_r in *. exists s. simpl. rewrite app_nil_r.
    destruct HI as (Hh & Hsz & Ht & Hf & Hc & Hrp & Hbd).
    destruct (root_path_last h r c lc Hrp) as (l1 & E1).
    destruct (root_path_last h r b lc Hb) as (l2 & E2).
    rewrite E1 in E2. apply app_inj_tail in E2. destruct E2 as [_ ->].
    unfold Calls.inv. auto 10.
  - pose proof (root_path_prefix h r b _ Hb lc n sb eq_refl) as Hn.
    destruct HI as (Hh & Hsz & Ht & Hf & Hc & Hrp & Hbd).
    assert (Hlc : lc <> []).
    { destruct (root_path_last h r c lc Hrp) as (l0 & ->).
      destruct l0; discriminate. }
    destruct (root_path_tail_parent h r n lc Hn Hlc) as (ndn & pn & Hndn & Hpn).
    assert (Hne : node_cmds sz ndn <> []).
    { apply (Hsend n ndn Hndn). congruence. }
    simpl.
    rewrite (calls_apply_sent (set_curNode (Some n) s) n ndn);
      [| reflexivity | simpl; rewrite Hh; assumption
       | simpl; rewrite Hsz; assumption].
    rewrite (apply_sgf_cmds_to_board_eq (set_curNode (Some n) s) n ndn);
      [| simpl; congruence | reflexivity | simpl; rewrite Hh; assumption].
    simpl bind.
    match goal with
    | |- exists s', Calls.undo_variation_replay sb ?s1 = _ /\ _ =>
        destruct (IH s1 n (lc ++ [n]) b) as (s' & E & HI' & Hpr & Hcs & Hcu)
    end.
    + unfold Calls.inv. simpl. repeat (split; [assumption|]).
      split; [reflexivity|]. split; [assumption|].
      rewrite Hsz, Hbd. unfold board_apply. symmetry.
      apply (calls_replay_snoc lc n pn ndn); assumption.
    + rewrite <- app_assoc. exact Hb.
    + exists s'. split; [exact E|].
      split. { rewrite <- app_assoc in HI'. exact HI'. }
      split. { rewrite Hpr. simpl. rewrite <- app_assoc. reflexivity. }
      split; [rewrite Hcs; reflexivity | rewrite Hcu; reflexivity].
Qed.

Lemma calls_undo_variation_ok (s : State) (a b : nat) (la lb : list nat)
    (fuel : nat) :
  CInv s a la -> root_path h r b lb -> length la = length lb ->
  (length la <= fuel)%nat ->
  exists s' lc sa sb,
    Calls.undo_variation fuel (Some a) (Some b) s = Ret s'
    /\ CInv s' b lb
    /\ la = lc ++ sa /\ lb = lc ++ sb /\ length sa = length sb
    /\ lc <> []
    /\ (forall x y, hd_error sa = Some x -> hd_error sb = Some y -> x <> y)
    /\ prims s' = prims s ++ repeat (PrimUndo true) (length sa)
                          ++ map PrimApply sb
    /\ comment_str s' = comment_str s
    /\ comment_update s' = comment_update s.
Proof.
  intros HI Hb Hlen Hfuel.
  assert (Ha : root_path h r a la) by (destruct HI; tauto).
  destruct (calls_undo_variation_ascend_ok a la Ha b lb s [] fuel Hb Hlen HI
              Hfuel)
    as (s1 & c & lc & sa & sb & E & HI1 & Ela & Elb & Hl & Hhd & Hpr & Hcs & Hcu).
  rewrite app_nil_r in E.
  rewrite Elb in Hb.
  destruct (calls_undo_variation_replay_ok sb s1 c lc b HI1 Hb)
    as (s' & E' & HI' & Hpr' & Hcs' & Hcu').
  exists s', lc, sa, sb.
  split. { unfold Calls.undo_variation. simpl. rewrite E. simpl. exact E'. }
  split. { rewrite Elb. exact HI'. }
  split; [assumption|]. split; [assumption|]. split; [assumption|].
  split. { destruct HI1 as (_ & _ & _ & _ & _ & Hrp & _).
           destruct (root_path_last h r c lc Hrp) as (l0 & ->).
           destruct l0; discriminate. }
  split; [assumption|].
  split. { rewrite Hpr', Hpr. rewrite <- app_assoc. reflexivity. }
  split; congruence.
Qed.

(** Switching to a node of the same ply: the call returns. *)
Lemma calls_undo_variation_same_ply (s : State) (n m : nat) (l : list nat)
    (nd : SGFNode) (fuel : nat) :
  CInv s n l -> nth_error h n = Some nd -> same_ply h nd (Some m) ->
  (length l <= fuel)%nat ->
  exists s' lb,
    Calls.undo_variation fuel (Some n) (Some m) s = Ret s'
    /\ CInv s' m lb /\ length lb = length l.
Proof.
  intros HI Hn (ndm & Hm & Eply) Hfuel.
  assert (Hrp : root_path h r n l) by (destruct HI; tauto).
  destruct (root_path_exists h r Hwf m ndm Hm) as (lb & Hlb).
  pose proof (root_path_length h r Hwf n l Hrp nd Hn) as L1.
  pose proof (root_path_length h r Hwf m lb Hlb ndm Hm) as L2.
  assert (Hlen : length l = length lb).
  { apply Nat2Z.inj. rewrite L1, L2, Eply. reflexivity. }
  destruct (calls_undo_variation_ok s n m l lb fuel HI Hlb Hlen Hfuel)
    as (s' & lc & sa & sb & E & HI' & _).
  exists s', lb. auto.
Qed.

Lemma calls_moveVar_down_ok (fuel : nat) (s : State) (n : nat)
    (l : list nat) (nd : SGFNode) (c : list nat) :
  CInv s n l -> nth_error h n = Some nd ->
  is_chain h None c -> In n c ->
  (length c < fuel)%nat -> (length l <= fuel)%nat ->
  exists s' res,
    is_next_below h c (draw_lvl nd) res
    /\ Calls.gogame_moveVar_down fuel s = Ret s'
    /\ match res with
       | None => s' = s
       | Some m => exists lb, CInv s' m lb /\ length lb = length l
       end.
Proof.
  intros HI Hn Hch Hin Hf1 Hf2.
  destruct (cinv_facts s n l HI) as (Hh & Ht & Hf & Hc & _).
  apply in_split in Hin. destruct Hin as (pre & post & Ec).
  rewrite <- Hh in Hch.
  assert (E1 : var_head fuel s (Some n) = Ret (Some (hd n pre))).
  { apply (var_head_chain s pre n post fuel).
    - rewrite <- Ec. exact Hch.
    - rewrite Ec in Hf1. rewrite length_app in Hf1. simpl in Hf1. lia. }
  destruct (scan_down_chain s (draw_lvl nd) c None 20000 None fuel Hch Hf1)
    as (res & E2 & Hres).
  rewrite Ec in E2 at 1. rewrite hd_error_chain in E2.
  unfold Calls.gogame_moveVar_down.
  destruct (gameTree s) eqn:Et; [|congruence]. rewrite Hf, Hc, E1. simpl.
  rewrite (deref_some s n nd) by (rewrite Hh; exact Hn). simpl.
  rewrite E2. simpl. rewrite Hh in Hres.
  destruct Hres as [[-> Hnone] | (m & -> & Hm & Hr & Hmin)].
  - exists s, None. split; [exact Hnone|]. split; reflexivity.
  - assert (Hself : same_ply h nd (Some n)) by (simpl; eauto).
    pose proof (var_head_same_ply h r Hwf nd fuel s _ _ Hh E1 Hself) as Hx.
    pose proof (scan_down_same_ply h r Hwf nd fuel s _ _ _ None _ Hh E2 Hx I)
      as Hq.
    destruct (calls_undo_variation_same_ply s n m l nd fuel HI Hn Hq Hf2)
      as (s1 & lb & E3 & HI1 & Hlen).
    rewrite E3. simpl.
    destruct (cinv_updateCommentStr s1 m lb HI1) as (cm & u & Eu).
    rewrite Eu. exists (set_comment cm u s1), (Some m).
    split. { simpl. auto. }
    split; [reflexivity|].
    exists lb. split; [apply cinv_set_comment; exact HI1 | exact Hlen].
Qed.

Lemma calls_moveVar_up_ok (fuel : nat) (s : State) (n : nat)
    (l : list nat) (nd : SGFNode) (c : list nat) :
  CInv s n l -> nth_error h n = Some nd ->
  is_chain h None c -> In n c ->
  (length c < fuel)%nat -> (length l <= fuel)%nat ->
  exists s' res,
    is_next_above h c (draw_lvl nd) res
    /\ Calls.gogame_moveVar_up fuel s = Ret s'
    /\ match res with
       | None => s' = s
       | Some m => exists lb, CInv s' m lb /\ length lb = length l
       end.
Proof.
  intros HI Hn Hch Hin Hf1 Hf2.
  destruct (cinv_facts s n l HI) as (Hh & Ht & Hf & Hc & _).
  apply in_split in Hin. destruct Hin as (pre & post & Ec).
  rewrite <- Hh in Hch.
  assert (E1 : var_head fuel s (Some n) = Ret (Some (hd n pre))).
  { apply (var_head_chain s pre n post fuel).
    - rewrite <- Ec. exact Hch.
    - rewrite Ec in Hf1. rewrite length_app in Hf1. simpl in Hf1. lia. }
  destruct (scan_up_chain s (draw_lvl nd) c None (-20000) None fuel Hch Hf1)
    as (res & E2 & Hres).
  rewrite Ec in E2 at 1. rewrite hd_error_chain in E2.
  unfold Calls.gogame_moveVar_up.
  destruct (gameTree s) eqn:Et; [|congruence]. rewrite Hf, Hc, E1. simpl.
  rewrite (deref_some s n nd) by (rewrite Hh; exact Hn). simpl.
  rewrite E2. simpl. rewrite Hh in Hres.
  destruct Hres as [[-> Hnone] | (m & -> & Hm & Hr & Hmin)].
  - exists s, None. split; [exact Hnone|]. split; reflexivity.
  - assert (Hself : same_ply h nd (Some n)) by (simpl; eauto).
    pose proof (var_head_same_ply h r Hwf nd fuel s _ _ Hh E1 Hself) as Hx.
    pose proof (scan_up_same_ply h r Hwf nd fuel s _ _ _ None _ Hh E2 Hx I)
      as Hq.
    destruct (calls_undo_variation_same_ply s n m l nd fuel HI Hn Hq Hf2)
      as (s1 & lb & E3 & HI1 & Hlen).
    rewrite E3. simpl.
    destruct (cinv_updateCommentStr s1 m lb HI1) as (cm & u & Eu).
    rewrite Eu. exists (set_comment cm u s1), (Some m).
    split. { simpl. auto. }
    split; [reflexivity|].
    exists lb. split; [apply cinv_set_comment; exact HI1 | exact Hlen].
Qed.


(** *** The public operations *)

Lemma cinv_refresh (s : State) (n : nat) (l : list nat) :
  CInv s n l ->
  exists s', updateCommentStr s = Ret s' /\ CInv s' n l
             /\ board s' = board s /\ prims s' = prims s.
Proof.
  intros HI. destruct (cinv_updateCommentStr s n l HI) as (c & u & E).
  exists (set_comment c u s). split; [exact E|].
  split; [apply cinv_set_comment; exact HI|]. split; reflexivity.
Qed.

Lemma calls_move_forward_ok (s : State) (n : nat) (l : list nat) :
  CInv s n l ->
  exists s' n' l', Calls.gogame_move_forward s = Ret s' /\ CInv s' n' l'.
Proof.
  intros HI.
  destruct (cinv_facts s n l HI) as (Hh & Ht & Hf & Hc & nd & Hn).
  unfold Calls.gogame_move_forward.
  destruct (child nd) as [c|] eqn:Hch.
  - destruct (cinv_forward s n c l nd HI Hn Hch)
      as (ndc & _ & _ & _ & E & HI').
    rewrite (E 1). change (c_true 1) with true. cbv iota.
    destruct (cinv_refresh _ c _ HI') as (s' & Eu & HI'' & _).
    exists s', c, (l ++ [c]). auto.
  - rewrite (calls_move_forward_update_leaf 1 s n nd);
      try rewrite Hh; auto.
    exists s, n, l. auto.
Qed.

(** The step back: from a node with a parent, from the root of a record
    whose root sent nothing, and from a root that sent stones. *)
Lemma calls_move_back_ok (s : State) (n : nat) (l : list nat) (nd : SGFNode) :
  CInv s n l -> nth_error h n = Some nd ->
  (parent nd <> None \/ node_cmds sz nd = [] ->
   exists s' n' l', gogame_move_back s = Ret s' /\ CInv s' n' l')
  /\ (parent nd = None -> node_cmds sz nd <> [] ->
      gogame_move_back s = AssertFail).
Proof.
  intros HI Hn. unfold gogame_move_back.
  destruct (cinv_facts s n l HI) as (Hh & Ht & Hf & Hc & _).
  destruct (parent nd) as [p|] eqn:Hpar.
  - split; [|discriminate]. intros _.
    destruct (cinv_back s n p l nd HI Hn Hpar)
      as (l' & ndp & _ & _ & _ & _ & E & HI').
    rewrite (E 1). change (c_true 1) with true. cbv iota.
    destruct (cinv_refresh _ p _ HI') as (s' & Eu & HI'' & _).
    exists s', p, l'. auto.
  - split.
    + intros [Hx | He]; [congruence|].
      destruct (cinv_back_root_silent s n l nd HI Hn Hpar He) as (E & HI').
      rewrite (E 1). change (c_true 1) with true. cbv iota.
      destruct (cinv_refresh _ n _ HI') as (s' & Eu & HI'' & _).
      exists s', n, l. auto.
    + intros _ Hne.
      rewrite (cinv_back_root_sent s n l nd HI Hn Hpar Hne 1).
      change (c_true 1) with true. cbv iota.
      apply updateCommentStr_null_abort; [exact Ht | reflexivity].
Qed.

Lemma calls_move_to_nextEvt_ok (fuel : nat) (s : State) (n : nat)
    (l : list nat) :
  CInv s n l -> (length h <= fuel)%nat ->
  exists s' n' l',
    Calls.gogame_move_to_nextEvt fuel s = Ret s' /\ CInv s' n' l'.
Proof.
  intros HI Hfuel.
  destruct (cinv_facts s n l HI) as (Hh & Ht & Hf & Hc & nd & Hn).
  assert (Hrp : root_path h r n l) by (destruct HI; tauto).
  destruct (root_path_last h r n l Hrp) as (l0 & El).
  assert (Hlen : (1 <= length l)%nat).
  { subst l. rewrite length_app. simpl. lia. }
  unfold Calls.gogame_move_to_nextEvt.
  destruct (gameTree s); [|congruence]. rewrite Hf.
  destruct (child nd) as [c|] eqn:Hch.
  - destruct (cinv_forward s n c l nd HI Hn Hch)
      as (ndc & _ & _ & E & _ & HI').
    rewrite E. simpl.
    destruct (calls_nextEvt_loop_exact fuel _ c (l ++ [c]) HI')
      as (s1 & n' & sfx & E1 & HI1 & _).
    { rewrite length_app. simpl. lia. }
    rewrite E1. simpl.
    destruct (cinv_refresh s1 n' _ HI1) as (s' & Eu & HI'' & _).
    exists s', n', ((l ++ [c]) ++ sfx). auto.
  - rewrite (calls_move_forward_update_leaf 0 s n nd);
      try rewrite Hh; auto.
    simpl.
    destruct (calls_nextEvt_loop_exact fuel s n l HI)
      as (s1 & n' & sfx & E1 & HI1 & _); [lia|].
    rewrite E1. simpl.
    destruct (cinv_refresh s1 n' _ HI1) as (s' & Eu & HI'' & _).
    exists s', n', (l ++ sfx). auto.
Qed.

Lemma prevEvt_loop_null_fault (fuel : nat) (s : State) :
  curNode s = None -> (0 < fuel)%nat -> prevEvt_loop fuel s = Fault.
Proof.
  intros Hc Hfuel. destruct fuel; [lia|]. simpl.
  unfold prevEvt_cond. rewrite Hc. reflexivity.
Qed.

Lemma calls_move_to_prevEvt_ok (fuel : nat) (s : State) (n : nat)
    (l : list nat) (nd : SGFNode) :
  CInv s n l -> nth_error h n = Some nd -> (length h <= fuel)%nat ->
  (parent nd <> None \/ node_cmds sz nd = [] ->
   exists s' n' l', gogame_move_to_prevEvt fuel s = Ret s' /\ CInv s' n' l')
  /\ (parent nd = None -> node_cmds sz nd <> [] -> (0 < fuel)%nat ->
      gogame_move_to_prevEvt fuel s = Fault).
Proof.
  intros HI Hn Hfuel.
  destruct (cinv_facts s n l HI) as (Hh & Ht & Hf & Hc & _).
  assert (Hrp : root_path h r n l) by (destruct HI; tauto).
  pose proof (root_path_bound h r Hwf n l Hrp) as Hb.
  unfold gogame_move_to_prevEvt.
  destruct (gameTree s); [|congruence]. rewrite Hf.
  destruct (parent nd) as [p|] eqn:Hpar.
  - split; [|discriminate]. intros _.
    destruct (cinv_back s n p l nd HI Hn Hpar)
      as (l' & ndp & El & _ & _ & E & _ & HI').
    rewrite E. simpl.
    destruct (calls_prevEvt_loop_exact fuel _ p l' HI')
      as (s1 & n' & l'' & sfx & E1 & HI1 & _).
    { subst l. rewrite length_app in Hb. simpl in Hb. lia. }
    rewrite E1. simpl.
    destruct (cinv_refresh s1 n' _ HI1) as (s' & Eu & HI'' & _).
    exists s', n', l''. auto.
  - split.
    + intros [Hx | He]; [congruence|].
      destruct (cinv_back_root_silent s n l nd HI Hn Hpar He) as (E & HI').
      rewrite (E 0). change (c_true 0) with false. cbv iota. simpl.
      destruct (calls_prevEvt_loop_exact fuel _ n l HI')
        as (s1 & n' & l'' & sfx & E1 & HI1 & _); [lia|].
      rewrite E1. simpl.
      destruct (cinv_refresh s1 n' _ HI1) as (s' & Eu & HI'' & _).
      exists s', n', l''. auto.
    + intros _ Hne Hpos.
      rewrite (cinv_back_root_sent s n l nd HI Hn Hpar Hne 0).
      change (c_true 0) with false. cbv iota. simpl.
      rewrite prevEvt_loop_null_fault; [reflexivity | reflexivity | exact Hpos].
Qed.

Lemma calls_move_to_page_ok (fuel : nat) (page : Z) (s : State) (n : nat)
    (l : list nat) :
  CInv s n l -> (length h <= fuel)%nat ->
  exists s' res n' l',
    Calls.gogame_move_to_page fuel page s = Ret (s', res) /\ CInv s' n' l'.
Proof.
  intros HI Hfuel.
  destruct (cinv_facts s n l HI) as (Hh & Ht & Hf & Hc & nd & Hn).
  assert (Hrp : root_path h r n l) by (destruct HI; tauto).
  pose proof (root_path_bound h r Hwf n l Hrp) as Hb.
  destruct (root_path_last h r n l Hrp) as (l0 & El).
  assert (Hlen : (1 <= length l)%nat).
  { subst l. rewrite length_app. simpl. lia. }
  unfold Calls.gogame_move_to_page.
  destruct (gameTree s); [|congruence]. rewrite Hf, Hc.
  rewrite (deref_some s n nd) by (rewrite Hh; assumption). simpl.
  destruct (page =? move_num nd); [exists s, 0, n, l; auto|].
  destruct (page <? move_num nd) eqn:Elt.
  - apply Z.ltb_lt in Elt.
    destruct (calls_page_back_loop_exact fuel page s n l nd HI Hn
                ltac:(lia) ltac:(lia))
      as (s1 & n' & l' & sfx & nd' & E1 & HI1 & _).
    rewrite E1. simpl.
    destruct (cinv_refresh s1 n' _ HI1) as (s' & Eu & HI'' & _).
    rewrite Eu. simpl. exists s', 1, n', l'. auto.
  - apply Z.ltb_ge in Elt.
    destruct (page >? move_num nd) eqn:Egt.
    + apply Z.gtb_lt in Egt.
      destruct (calls_page_forward_loop_exact fuel page s n l nd HI Hn
                  ltac:(lia) ltac:(lia))
        as (s1 & n' & sfx & nd' & E1 & HI1 & _).
      rewrite E1. simpl.
      destruct (cinv_refresh s1 n' _ HI1) as (s' & Eu & HI'' & _).
      rewrite Eu. simpl. exists s', 1, n', (l ++ sfx). auto.
    + simpl.
      destruct (cinv_refresh s n _ HI) as (s' & Eu & HI'' & _).
      rewrite Eu. simpl. exists s', 1, n, l. auto.
Qed.


End CallsNavigation.

(** ** Forward then back (C6) *)




(** ** Projection consistency (C1) *)

Lemma calls_inv_consistent (h : list SGFNode) (sz : Z) (r : nat) (s : State)
    (n : nat) (l : list nat) :
  Calls.inv h sz {| root := Some r |} r s n l ->
  Calls.consistent s /\ nodes s = h /\ boardSize s = sz
  /\ gameTree s = Some {| root := Some r |}.
Proof.
  intros (Hh & Hsz & Ht & Hf & Hc & Hrp & Hbd). split.
  - exists r, n, l. unfold Calls.at_node. rewrite Hh, Hsz. auto.
  - auto.
Qed.

Lemma calls_consistent_inv (s : State) (r : nat) :
  gameTree s = Some {| root := Some r |} ->
  Calls.consistent s -> c_true (bShowFullScreenComment s) = false ->
  exists n l, Calls.inv (nodes s) (boardSize s) {| root := Some r |} r s n l.
Proof.
  intros Ht (r' & n & l & Ht' & Hc & Hrp & Hb) Hf.
  assert (r' = r) by congruence. subst r'.
  exists n, l. unfold Calls.inv. auto 10.
Qed.

(** Right after loading, the board holds what the root has sent. *)
Lemma calls_new_from_file_consistent (mem : list SGFNode) (r : nat) (sz : Z) :
  wf_tree mem r ->
  exists s,
    Calls.gogame_new_from_file mem {| root := Some r |} sz = Ret s
    /\ curNode s = Some r /\ Calls.consistent s
    /\ nodes s = mem /\ boardSize s = sz
    /\ gameTree s = Some {| root := Some r |}.
Proof.
  intros Hwf. destruct (wf_root mem r Hwf) as (nd & Hn & Hp & _).
  unfold Calls.gogame_new_from_file, Calls.apply_sgf_cmds_to_board.
  cbn [root curNode gameTree boardSize board assert bind].
  match goal with
  | |- context [deref ?s0 (Some r)] =>
      rewrite (deref_some s0 r nd) by exact Hn
  end.
  cbn [bind].
  assert (Hgoal : forall s1,
             nodes s1 = mem -> boardSize s1 = sz ->
             gameTree s1 = Some {| root := Some r |} ->
             curNode s1 = Some r ->
             board s1 = Calls.replay mem sz [r] ->
             exists s,
               updateCommentStr s1 = Ret s
               /\ curNode s = Some r /\ Calls.consistent s
               /\ nodes s = mem /\ boardSize s = sz
               /\ gameTree s = Some {| root := Some r |}).
  { intros s1 Hh Hsz Ht Hc Hb.
    destruct (updateCommentStr_ret s1 r nd) as (c & u & E);
      [congruence | exact Hc | rewrite Hh; exact Hn |].
    exists (set_comment c u s1). split; [exact E|]. simpl.
    split; [exact Hc|]. split; [|auto].
    exists r, r, [r]. simpl. split; [exact Ht|].
    unfold Calls.at_node. simpl. rewrite Hh, Hsz.
    split; [exact Hc|].
    split; [eapply root_path_root; eauto | exact Hb]. }
  assert (Hrep : Calls.replay mem sz [r]
                 = Calls.board_apply [] (node_cmds sz nd)).
  { unfold Calls.replay. simpl. unfold Calls.apply_node. rewrite Hn.
    reflexivity. }
  destruct (node_cmds sz nd) as [|cmd f] eqn:Ecmds.
  - apply Hgoal; try reflexivity. rewrite Hrep. reflexivity.
  - apply Hgoal; try reflexivity. rewrite Hrep. reflexivity.
Qed.

Lemma calls_run_op_fullscreen (fuel : nat) (op : NavOp) (s : State) :
  c_true (bShowFullScreenComment s) = true -> Calls.run_op fuel op s = Ret s.
Proof.
  intros H.
  destruct op; simpl;
    unfold Calls.gogame_move_forward, gogame_move_back,
      Calls.gogame_move_forward_update, gogame_move_back_update,
      Calls.gogame_moveVar_down, Calls.gogame_moveVar_up,
      Calls.gogame_move_to_nextEvt,
      gogame_move_to_prevEvt, Calls.gogame_move_to_page;
    rewrite H; destruct (gameTree s); reflexivity.
Qed.

(** One operation, from a state with the board in step: it returns with
    the board in step, unless it steps back from a root that sent stones. *)
Lemma calls_run_op_step (fuel : nat) (op : NavOp) (s : State) (r : nat) :
  gameTree s = Some {| root := Some r |} ->
  wf_tree (nodes s) r ->
  sends_below_root (nodes s) (boardSize s) ->
  chains_listed (nodes s) ->
  Calls.consistent s ->
  (length (nodes s) < fuel)%nat ->
  (back_from_sent_root op s r
   /\ (op = OpBack -> Calls.run_op fuel op s = AssertFail)
   /\ (op = OpPrevEvt -> Calls.run_op fuel op s = Fault))
  \/ (~ back_from_sent_root op s r
      /\ exists s',
           Calls.run_op fuel op s = Ret s' /\ Calls.consistent s'
           /\ nodes s' = nodes s /\ boardSize s' = boardSize s
           /\ gameTree s' = gameTree s).
Proof.
  intros Ht Hwf Hsend Hchains Hcons Hfuel.
  destruct (c_true (bShowFullScreenComment s)) eqn:Hf.
  { right. split.
    - intros (_ & Hf' & _). congruence.
    - exists s. rewrite (calls_run_op_fullscreen fuel op s Hf). auto. }
  destruct (calls_consistent_inv s r Ht Hcons Hf) as (n & l & HI).
  destruct (cinv_facts _ _ _ r s n l HI) as (_ & Ht' & _ & Hc & nd & Hn).
  assert (Hrp : root_path (nodes s) r n l) by (destruct HI; tauto).
  pose proof (root_path_bound _ r Hwf n l Hrp) as Hb.
  assert (Hret : forall s' n' l',
             Calls.run_op fuel op s = Ret s' ->
             Calls.inv (nodes s) (boardSize s) {| root := Some r |} r s' n' l' ->
             exists s',
               Calls.run_op fuel op s = Ret s' /\ Calls.consistent s'
               /\ nodes s' = nodes s /\ boardSize s' = boardSize s
               /\ gameTree s' = gameTree s).
  { intros s' n' l' E HI'. exists s'. split; [exact E|].
    destruct (calls_inv_consistent _ _ _ _ _ _ HI') as (H1 & H2 & H3 & H4).
    rewrite Ht. auto. }
  assert (Hcase : (parent nd <> None \/ node_cmds (boardSize s) nd = [])
                  \/ (parent nd = None /\ node_cmds (boardSize s) nd <> [])).
  { destruct (parent nd); [left; left; discriminate|].
    destruct (node_cmds (boardSize s) nd);
      [left; right; reflexivity | right; split; [reflexivity | discriminate]]. }
  assert (Hquiet : parent nd <> None \/ node_cmds (boardSize s) nd = [] ->
                   ~ back_from_sent_root op s r).
  { intros Hq (_ & _ & Hcr & ndr & Hnr & Hne).
    assert (n = r) by congruence. subst n.
    assert (ndr = nd) by congruence. subst ndr.
    destruct (wf_root _ r Hwf) as (nd0 & Hn0 & Hp0 & _).
    assert (nd0 = nd) by congruence. subst nd0.
    destruct Hq; congruence. }
  assert (Hloud : parent nd = None -> node_cmds (boardSize s) nd <> [] ->
                  op = OpBack \/ op = OpPrevEvt ->
                  back_from_sent_root op s r).
  { intros Hp Hne Hop. split; [exact Hop|]. split; [exact Hf|].
    pose proof (wf_orphan _ r Hwf n nd Hn Hp) as ->.
    split; [exact Hc|]. exists nd. auto. }
  destruct op; simpl.
  - right. split; [intros ([E | E] & _); discriminate|].
    destruct (calls_move_forward_ok _ _ _ r Hwf Hsend s n l HI)
      as (s' & n' & l' & E & HI').
    exact (Hret s' n' l' E HI').
  - destruct (calls_move_back_ok _ _ _ r Hwf Hsend s n l nd HI Hn)
      as [Hok Hbad].
    destruct Hcase as [Hq | [Hp Hne]].
    + right. split; [exact (Hquiet Hq)|].
      destruct (Hok Hq) as (s' & n' & l' & E & HI').
      exact (Hret s' n' l' E HI').
    + left. split; [apply Hloud; auto|].
      split; [intros _; exact (Hbad Hp Hne) | discriminate].
  - right. split; [intros ([E | E] & _); discriminate|].
    destruct (Hchains n nd Hn) as (c & Hch & Hin & Hlen).
    destruct (calls_moveVar_down_ok _ _ _ r Hwf Hsend fuel s n l nd c HI Hn
                Hch Hin ltac:(lia) ltac:(lia)) as (s' & res & _ & E & Hs').
    destruct res as [m|].
    + destruct Hs' as (lb & HI' & _). exact (Hret s' m lb E HI').
    + subst s'. exact (Hret s n l E HI).
  - right. split; [intros ([E | E] & _); discriminate|].
    destruct (Hchains n nd Hn) as (c & Hch & Hin & Hlen).
    destruct (calls_moveVar_up_ok _ _ _ r Hwf Hsend fuel s n l nd c HI Hn
                Hch Hin ltac:(lia) ltac:(lia)) as (s' & res & _ & E & Hs').
    destruct res as [m|].
    + destruct Hs' as (lb & HI' & _). exact (Hret s' m lb E HI').
    + subst s'. exact (Hret s n l E HI).
  - right. split; [intros ([E | E] & _); discriminate|].
    destruct (calls_move_to_nextEvt_ok _ _ _ r Hwf Hsend fuel s n l HI
                ltac:(lia)) as (s' & n' & l' & E & HI').
    exact (Hret s' n' l' E HI').
  - destruct (calls_move_to_prevEvt_ok _ _ _ r Hwf Hsend fuel s n l nd HI Hn
                ltac:(lia)) as [Hok Hbad].
    destruct Hcase as [Hq | [Hp Hne]].
    + right. split; [exact (Hquiet Hq)|].
      destruct (Hok Hq) as (s' & n' & l' & E & HI').
      exact (Hret s' n' l' E HI').
    + left. split; [apply Hloud; auto|].
      split; [discriminate | intros _; apply (Hbad Hp Hne); lia].
  - right. split; [intros ([E | E] & _); discriminate|].
    destruct (calls_move_to_page_ok _ _ _ r Hwf Hsend fuel page s n l HI
                ltac:(lia)) as (s' & res & n' & l' & E & HI').
    apply (Hret s' n' l'); [|exact HI'].
    simpl. rewrite E. reflexivity.
Qed.

(** A session that returns leaves the board in step. *)
Lemma calls_run_ops_consistent (fuel : nat) (r : nat) (ops : list NavOp) :
  forall s s',
    gameTree s = Some {| root := Some r |} ->
    wf_tree (nodes s) r ->
    sends_below_root (nodes s) (boardSize s) ->
    chains_listed (nodes s) ->
    Calls.consistent s ->
    (length (nodes s) < fuel)%nat ->
    Calls.run_ops fuel ops s = Ret s' ->
    Calls.consistent s' /\ nodes s' = nodes s /\ boardSize s' = boardSize s
    /\ gameTree s' = gameTree s.
Proof.
  induction ops as [|op ops IH]; intros s s' Ht Hwf Hsend Hch Hc Hfuel H;
    simpl in H.
  - injection H as <-. auto.
  - ret_inv H.
    destruct (calls_run_op_step fuel op s r Ht Hwf Hsend Hch Hc Hfuel)
      as [(Hbad & H1 & H2) | (_ & s1 & E1 & Hc1 & Hh1 & Hsz1 & Ht1)].
    + destruct Hbad as ([-> | ->] & _).
      * rewrite (H1 eq_refl) in E. discriminate.
      * rewrite (H2 eq_refl) in E. discriminate.
    + assert (x = s1) by congruence. subst x.
      destruct (IH s1 s') as (A & B & C & D);
        try rewrite Hh1; try rewrite Hsz1; try rewrite Ht1; auto.
      repeat split; congruence.
Qed.

(** On a record whose root sends nothing every session returns. *)
Lemma calls_run_ops_total (fuel : nat) (r : nat) (ops : list NavOp) :
  forall s,
    gameTree s = Some {| root := Some r |} ->
    wf_tree (nodes s) r ->
    sends_below_root (nodes s) (boardSize s) ->
    chains_listed (nodes s) ->
    Calls.consistent s ->
    (length (nodes s) < fuel)%nat ->
    (forall ndr, nth_error (nodes s) r = Some ndr ->
                 node_cmds (boardSize s) ndr = []) ->
    exists s', Calls.run_ops fuel ops s = Ret s'.
Proof.
  induction ops as [|op ops IH]; intros s Ht Hwf Hsend Hch Hc Hfuel Hroot;
    simpl.
  - eauto.
  - destruct (calls_run_op_step fuel op s r Ht Hwf Hsend Hch Hc Hfuel)
      as [(Hbad & _) | (_ & s1 & E1 & Hc1 & Hh1 & Hsz1 & Ht1)].
    + destruct Hbad as (_ & _ & _ & ndr & Hnr & Hne).
      exfalso. apply Hne. apply Hroot. exact Hnr.
    + rewrite E1. simpl.
      apply IH; try rewrite Hh1; try rewrite Hsz1; try rewrite Ht1; auto.
Qed.


Lemma sample_chains : chains_listed sample_nodes.
Proof.
  intros n nd Hn.
  assert (Hcases : n = 0%nat \/ n = 1%nat \/ In n [2; 3]%nat \/ In n [4; 5]%nat).
  { do 6 (destruct n as [|n]; [simpl; auto 10|]).
    destruct n; discriminate. }
  destruct Hcases as [-> | [-> | [H | H]]].
  - exists [0%nat]. split; [|split; [simpl; auto | simpl; lia]].
    simpl. eexists. repeat split.
  - exists [1%nat]. split; [|split; [simpl; auto | simpl; lia]].
    simpl. eexists. repeat split.
  - exists [2; 3]%nat. split; [|split; [exact H | simpl; lia]].
    simpl. eexists. split; [reflexivity|]. split; [reflexivity|].
    split; [reflexivity|]. eexists. repeat split.
  - exists [4; 5]%nat. split; [|split; [exact H | simpl; lia]].
    simpl. eexists. split; [reflexivity|]. split; [reflexivity|].
    split; [reflexivity|]. eexists. repeat split.
Qed.



(** ** Switching to a sibling and back *)


Lemma sample_on_C :
  Calls.at_node (sample_on [0; 1; 2; 4]%nat 4) 0 4 [0; 1; 2; 4]%nat.
Proof.
  split; [reflexivity|]. split; [exact sample_path_C | reflexivity].
Qed.


(** ** Variation down, then up *)

Lemma calls_at_node_inv (s : State) (r n : nat) (l : list nat) :
  gameTree s = Some {| root := Some r |} ->
  c_true (bShowFullScreenComment s) = false ->
  Calls.at_node s r n l ->
  Calls.inv (nodes s) (boardSize s) {| root := Some r |} r s n l.
Proof. intros Ht Hf (Hc & Hrp & Hb). unfold Calls.inv. auto 10. Qed.


